(* ===== verification/_CoqProject ===== *)
-Q . S2P
Prelude.v
PyRuntime.v
Wp.v
Replay.v
Quiet.v
NimSum.v
Config.v
Engine.v
Optimal.v
HumanInput.v
Turn.v
NimGame.v
Game.v
Unbeatable.v
