(* ===== verification/Prelude.v ===== *)
(** * Verification of "The Unbeatable Dr. Nimm" (src/unbeatable.py)

    The program is a console game of Nim between a human and one of two
    computer opponents.  Dr. Nimm plays the nimm-sum (bitwise XOR) strategy
    on every turn; Dr. Nymm plays the same strategy but replaces one move,
    chosen by a threshold on the number of stones left, by a deliberately
    wrong one.  The whole program is one Python file of free functions that
    pass the list of heaps, the player to move, the mistake threshold and
    the opponent's name to one another.  [main] calls [setup_game], then
    [player_turn] while stones are left, then [announce_winner];
    [player_turn] calls [cpu_turn] or [human_turn]; [cpu_turn] calls
    [play_correctly] or [make_mistake], which fall back to [choose_random];
    [human_turn] calls the validation loops [input_heap] and
    [input_stones].

    ** Files, in dependency order

    - [Prelude] (this file): what every other file shares.  The notation
      scope [nim_scope] with [x ⊻ y] for XOR on [Z], the rewrite database
      [testbit] and the tactic [bits] for bitwise goals, the hint database
      [nim], and the arithmetic facts on XOR and the order of [Z] that the
      strategy rests on ([lxor_lt_top_bit]).
    - [PyRuntime]: the part of the Python runtime the program calls, which
      is not code of the repository and is modelled from the language
      definition: exceptions, list indexing, [sum], [max], [list.index],
      [str.isdigit], [int], [str], floats, [print], [input],
      [random.randint].  [isdigit] and [int] disagree on some strings
      (superscript digits, more than 4300 digits); a string is [plain]
      when they agree on it.  Effects are a state-and-exception monad [M] over
      a record [World] (standard input still to be read, standard output
      written so far, state of the random source), with the notation
      [x <- m ;; k].  The random source is the typeclass [RandomSource]:
      clients are proved against its law, instances discharge it; the
      instance that reads a tape can draw every number of a range
      ([tape_draw_any]).  The two loop shapes of the program, [for_each]
      and [while_invalid], are here.  The conversion of an integer to a
      float overflows from 2 to the power 1024 on ([py_float_overflow]).
    - [Wp]: specifications of computations in [M].  [wp m Q E w] says that
      [m] run in [w] returns a result that satisfies [Q] or raises an
      exception that satisfies [E], and does not run out of fuel; the rules
      follow the structure of the monad.  The frames [reads], [draws],
      [writes], [took], [asked] and [steps] say what a computation may do
      to the world; they are preorders.  [input_exn w] is the
      postcondition on exceptions of the functions that read what the
      human types: [EOFError] when every line of the input of [w] has
      been taken and all are plain ([at_eof]), [ValueError] when the last
      line taken is the first that is not plain ([bad_line]); on [clean]
      input it is [EOFError] alone ([wp_clean]).  The rule of the
      validation loop is [wp_while_invalid], and [wp_ask] is the rule of
      the three functions that ask and ask again.
    - [Replay]: what a computation depends on.  [replays f] says that a
      run of [f] that returned, or raised something other than
      [EOFError], is repeated by every run that finds the lines it took at
      the front of standard input and the random source in the same
      state, whatever follows these lines, whatever was written before
      and whatever the fuel of the validation loops.  The rules follow
      the structure of the monad, the tactic [replays_tac] applies them,
      and each later file proves [replays] of its functions.
    - [Quiet]: runs that draw no random number.  [quiet m w] says that the
      run of [m] in [w] leaves the random source as it found it, however
      it ends; the rule of [bind] hands the continuation the run of the
      first part, so that a function can be quiet in some states only.
      The functions that ask and write are quiet everywhere,
      [play_correctly] where the nimm-sum is not zero.
    - [NimSum]: the mathematics of the nimm-sum of a list of heaps, as
      pure functions on [list Z]: its value after one heap is changed, the
      existence of a heap that can be lowered to cancel a nonzero
      nimm-sum, legal moves, their effect, and the relation [moved]
      between the positions one legal move apart.  The number of stones
      and the nimm-sum are morphisms for the permutation of lists
      ([py_sum_perm], [nim_sum_perm]).
    - [Config]: the constants of the program (lines 28 to 40) as the class
      [Config], the instance [source_config] with the values of the
      source, and [config_ok], what the comments ask of the constants.
    - [Engine]: the decision functions [play_correctly], [make_mistake],
      [choose_random], [cpu_losing] and the nimm-sum loop they share,
      translated statement by statement.  Theorems: what each returns on
      every branch, errors included; the winning move is found whenever
      there is one and is the lowest-numbered; the wrong move is wrong
      whenever some heap holds more than one stone, and is the winning
      move otherwise; it is made at the lowest-numbered qualifying heap
      of more than one stone ([make_mistake_first]).
    - [Optimal]: the decisions measured against the game tree.  [wins]
      and [loses] are the positions from which the player to move can
      force a win or cannot avoid a loss, defined by the moves alone;
      [mover_wins] is the exhaustive search that decides them.  Theorems:
      a position of heaps that are not negative is lost exactly when its
      nimm-sum is zero, as the glossary of the specification says;
      [cpu_losing] returns what the search returns; [play_correctly]
      moves to a lost position whenever the position is won; the move of
      [make_mistake] leaves a won position.  Who wins does not depend on
      the order of the heaps: [wins] and [loses] are morphisms for
      permutation, by a simulation of the moves ([moved_perm]).
    - [HumanInput]: the validation loops [input_heap], [input_stones],
      [choose_opponent], their tests and prompts, and [human_turn].
      Theorems: the move of the human is legal; plain answers that fail
      the test are skipped and the first valid heap and the first valid
      number of stones are taken; the numbers shown to the human are
      read back when typed; the end of the input raises [EOFError], and
      an answer that is not plain raises [ValueError].
    - [Turn]: [switch_player], [display_heaps], [cpu_turn], [player_turn].
      Theorems: the turn of the computer on both branches, with the
      one-shot trigger and the announcement of the move made, and the
      lines [display_heaps] writes.
    - [NimGame]: the game as section 4 of the specification describes it:
      a record [state], a step relation [turn_step] with three kinds of
      turn, runs, and the positions from which each side wins;
      [turn_kind] is the kind of the turn the program takes in a state,
      read off the tests of [player_turn] and [cpu_turn].  Theorems,
      by induction on steps and runs: well-formedness is preserved, every
      turn takes a stone, a disarmed trigger stays disarmed, a computer
      that is ahead and does not err stays ahead and wins, after the
      mistake the human has a winning strategy ([human_wins]), against a
      computer that does not err the human has one exactly when ahead
      ([human_wins_iff_ahead]), the computer finds a zero nimm-sum only
      after its mistake ([run_guess_after_mistake]), and [player_turn]
      refines [turn_step] and keeps the state well formed.
      Being ahead by the nimm-sum is being ahead in the game tree of
      [Optimal] ([cpu_ahead_game]).
    - [Game]: [set_heaps], [setup_game], [display_intro] and
      [announce_winner].  Theorems: the initial state, the starting
      player, by the nimm-sum and by the game tree (the human starts
      only from lost positions), the range of the trigger in floating
      point, the line [announce_winner] writes, that every admissible
      position can be drawn, among them positions from which the human
      starts, that constants that give no range for the trigger make
      [setup_game] raise before the first prompt, and that the heaps of
      a game that starts hold fewer than 2 to the power 1024 stones.
    - [Unbeatable]: [main] with its loop [main_loop], the test of
      [__name__] that calls it ([script]), and the theorems about whole
      games.  The loop refines [run]; hence the loop ends, a computer
      that is ahead and does not err wins, and [main] never announces
      that the human beat Dr. Nimm.  The program keeps no record of its
      turns, so [main_loop_log] is the loop with a log: it returns what
      [main_loop] returns ([main_loop_log_erase]) and beside it the kinds
      of the turns the loop entered.  The log of a loop that returns
      labels a run of the transition system to the state returned
      ([main_loop_trace]), and in the log of any loop, also one that
      fails, the computer errs at most once ([main_loop_one_mistake]).
      It need not err at all: from three equal heaps and a trigger that
      is not more than one of them, the human can let Dr. Nymm win
      without the mistake ([nymm_may_never_err]).  [main] fails
      only with [EOFError], at the end of an input of plain lines, or
      with [ValueError], on the first line that is not plain; a first
      line that is not plain does make it fail.
      Conversely, from a state in which the human is ahead there are
      lines of input with which the human takes the last stone, and
      every game against Dr. Nimm can be played to its end
      ([main_can_finish]): whatever the random numbers are, some input
      makes [main] return.  [main] depends on the lines it takes and
      on the random draws only ([replays_main]); this holds of every
      computation in [M] and is a lemma of the calculus, not a theorem
      on the game.  Against Dr. Nimm the draws are those of
      [setup_game] alone ([nimm_never_guesses]): the fallback of
      [play_correctly] to a random move is reached only after the
      mistake of Dr. Nymm.  At the boundaries of the configuration: with
      heaps that start empty no turn is taken and the computer is
      announced as the winner ([main_no_stones]), and with a single heap
      the computer takes it whole and the human never moves
      ([main_one_heap]).

    In every file the lemmas named [wp_f] or [f_run] are the specification
    of [f] that the callers of [f] use; the theorems numbered C1, C2, ...
    are what the development shows of [f], stated without reference to
    the calculus where that reads better.  Each numbered theorem that has
    hypotheses is applied, at the end of its file, to concrete heaps and
    a concrete world with the constants of the source.

    ** How the model corresponds to the code

    Python integers are [Z]; [^] is [Z.lxor], which agrees with Python on
    negative numbers too.  The list of heaps is [list Z] read with stdpp's
    lookup and written with stdpp's insert; a read or write out of range
    raises [IndexError] in the model as in Python ([getitem], [setitem]).
    The list is a single object that the functions mutate and return;
    since no second reference to it is ever kept, passing the value is
    faithful.  The player is the integer 1 or 2 and [switch_player] is
    [3 - player], as in the code.  The opponent is the string "Nimm" or
    "Nymm".  [error_trigger] is an integer until the mistake is made and
    [float("-inf")] afterwards: the type [trigger] has these two
    constructors.  The floats [ERROR_MIN] and [ERROR_MAX] are binary64
    numbers of the standard library's [SpecFloat], multiplied and
    truncated as Python does.  A string is a sequence of characters with
    code points below 256; a line of input is such a string.  The
    functions that test an answer call [int] on whatever [isdigit]
    accepts, so they raise [ValueError] on the strings that are not
    [plain]; the model keeps that path, and the theorems on the functions
    that read say when it is taken.

    Loops over [range] and [enumerate] are structural recursions; an early
    [return] from a loop is the result [Some].  Exceptions are values of
    [outcome]: a function that can raise returns [Raise e], and [bind]
    stops at the first one.

    ** Fuel

    The validation loops read standard input until a line is accepted.
    [while_invalid] takes as fuel the number of lines standard input holds
    when the function is entered; every round reads a line, so this is
    enough, and reading past the end raises [EOFError] as in Python
    ([wp_while_invalid]).  The loop of [main] runs while stones are left;
    [main_loop] takes fuel, and since every turn that does not raise
    removes at least one stone, one unit of fuel per stone is enough;
    [main] gives it that amount.  Both facts are theorems: no computation
    specified by [wp] returns [OutOfFuel].  The fuel does not show in the
    results either: by [replays], a run is the same with any amount of
    fuel that is at least the number of lines it takes, so the lines left
    unread, which the model counts to fuel the validation loops, do not
    matter.  The search [mover_wins] of the game tree takes a unit of
    fuel per stone, since every move takes a stone
    ([mover_wins_nim_sum]).

    ** Bounds

    [int] reads at most [int_max_str_digits] = 4300 digits, the default
    of CPython.  [short n] says that [n] is below 2 to the power 4300,
    which is enough for the decimal string of [n] to have at most 4300
    digits ([length_py_str]); the theorems in which the human types a
    number ask it of the number of heaps and of the stones.

    ** What is not modelled

    Characters with code points from 256 on (among them are further
    digits that [isdigit] accepts and [int] rejects, and decimal digits
    of other scripts, which both accept), for which strings would have to
    be sequences of code points with the tables of the Unicode
    database; the limit Python puts on the number of digits of the
    integer [str] converts, which the numbers the program prints do not
    reach in a game that has started, since its heaps hold fewer than 2
    to the power 1024 stones ([setup_game_heaps_bounded]), but which the
    theorems on single functions, stated for all heaps, leave aside;
    exceptions that come from outside the program, such as
    an interrupt from the keyboard; the distribution of
    [random.randint], of which only the range matters to what is proved;
    and the statement [import random] that opens the file. *)

From stdpp Require Export base tactics option list list_numbers sets strings numbers.
From Stdlib Require Export ZArith Lia.

#[global] Open Scope Z_scope.

(** ** Notation *)

Declare Scope nim_scope.
Delimit Scope nim_scope with nim.
Infix "⊻" := Z.lxor (at level 40, left associativity) : nim_scope.
#[global] Open Scope nim_scope.

(** ** Automation *)

Create HintDb nim discriminated.
Create Rewrite HintDb nim.
Create Rewrite HintDb testbit.

#[export] Hint Rewrite Z.lxor_spec Z.land_spec Z.lor_spec Z.testbit_0_l : testbit.
#[export] Hint Rewrite Z.lxor_0_l Z.lxor_0_r Z.lxor_nilpotent : nim.

(** [bits] reduces an equation between integers to an equation between
    their bits and rewrites the bits of compound terms. *)
Ltac bits :=
  apply Z.bits_inj'; intros ?i ?Hi; autorewrite with testbit.

(** Case analysis on a boolean comparison, keeping the proposition it
    decides. *)
Ltac case_ltb a b := destruct (Z.ltb_spec a b).
Ltac case_leb a b := destruct (Z.leb_spec a b).
Ltac case_eqb a b := destruct (Z.eqb_spec a b).

(** ** XOR on integers *)

Section xor.
Implicit Types a b c d : Z.

Lemma lxor_cancel_r a b : a ⊻ b ⊻ b = a.
Proof. by rewrite Z.lxor_assoc, Z.lxor_nilpotent, Z.lxor_0_r. Qed.

Lemma lxor_cancel_l a b : a ⊻ (a ⊻ b) = b.
Proof. by rewrite <- Z.lxor_assoc, Z.lxor_nilpotent, Z.lxor_0_l. Qed.

Lemma lxor_neq_0 a b : a ≠ b → a ⊻ b ≠ 0.
Proof. intros Hab H0. by apply Hab, Z.lxor_eq. Qed.

Lemma lxor_nonneg_nonneg a b : 0 ≤ a → 0 ≤ b → 0 ≤ a ⊻ b.
Proof. intros. by apply Z.lxor_nonneg. Qed.

(** The quotient by [2 ^ d] is twice the quotient by [2 ^ (d + 1)] plus
    bit [d]. *)
Lemma testbit_div_succ a d :
  0 ≤ d → a / 2 ^ d = 2 * (a / 2 ^ (d + 1)) + Z.b2z (Z.testbit a d).
Proof.
  intros Hd. rewrite Z.testbit_spec' by done.
  rewrite Z.pow_add_r, Z.pow_1_r by lia.
  rewrite <- Z.div_div by lia.
  apply Z.div_mod. lia.
Qed.

(** Two integers that agree above bit [d] are ordered by bit [d]. *)
Lemma testbit_high_lt a b d :
  0 ≤ d → Z.testbit a d = true → Z.testbit b d = false →
  (∀ i, d < i → Z.testbit a i = Z.testbit b i) → b < a.
Proof.
  intros Hd Ha Hb Hhi.
  assert (Hq : a / 2 ^ (d + 1) = b / 2 ^ (d + 1)).
  { apply Z.bits_inj'. intros n Hn. rewrite !Z.div_pow2_bits by lia.
    apply Hhi. lia. }
  pose proof (testbit_div_succ a d Hd) as Ea.
  pose proof (testbit_div_succ b d Hd) as Eb.
  rewrite Ha, Hq in Ea. rewrite Hb in Eb. simpl in Ea, Eb.
  assert (0 < 2 ^ d) by (apply Z.pow_pos_nonneg; lia).
  pose proof (Z.mul_div_le a (2 ^ d) ltac:(lia)).
  pose proof (Z.mul_succ_div_gt b (2 ^ d) ltac:(lia)).
  nia.
Qed.

(** XOR with a positive [s] lowers every integer that has the top bit
    of [s]. *)
Lemma lxor_lt_top_bit a s :
  0 < s → Z.testbit a (Z.log2 s) = true → a ⊻ s < a.
Proof.
  intros Hs Ha. apply (testbit_high_lt _ _ (Z.log2 s)); [apply Z.log2_nonneg|done|..].
  - by rewrite Z.lxor_spec, Ha, Z.bit_log2.
  - intros i Hi. rewrite Z.lxor_spec, (Z.bits_above_log2 s i) by lia.
    by rewrite xorb_false_r.
Qed.

(** Below-or-equal results of XOR: what is taken from [a] to reach
    [a ⊻ s] is at least one and at most [a]. *)
Lemma lxor_lt_removal a s :
  0 ≤ a → 0 ≤ s → a ⊻ s < a → 1 ≤ a - a ⊻ s ≤ a.
Proof. intros Ha Hs Hlt. pose proof (lxor_nonneg_nonneg a s Ha Hs). lia. Qed.
End xor.

#[export] Hint Rewrite lxor_cancel_r lxor_cancel_l : nim.
#[export] Hint Resolve lxor_nonneg_nonneg lxor_neq_0 : nim.

(** ** Lists *)

Section lists.
Context {A : Type}.
Implicit Types (l : list A) (P : A → Prop).

(** Nothing passes a filter that every element fails. *)
Lemma filter_none P `{!∀ x, Decision (P x)} l :
  Forall (λ x, ¬ P x) l → filter P l = [].
Proof.
  induction 1 as [|x l Hx _ IH]; [done|]. rewrite filter_cons.
  by destruct (decide (P x)).
Qed.

Lemma filter_not_elem_of (x : A) `{!EqDecision A} l :
  x ∉ l → filter (λ y, y = x) l = [].
Proof. intros Hx. apply filter_none, list.Forall_forall. by intros y Hy ->. Qed.

End lists.

(** A test that holds on a whole interval of integers, by evaluation. *)
Lemma forallb_seqZ (f : Z → bool) (lo len : Z) :
  forallb f (seqZ lo len) = true → ∀ n, lo ≤ n < lo + len → f n = true.
Proof.
  intros Hall n Hn. apply (proj1 (forallb_forall f (seqZ lo len)) Hall).
  apply list_elem_of_In, elem_of_seqZ. lia.
Qed.
