(* ===== verification/PyRuntime.v ===== *)
(** * PyRuntime: the part of the Python runtime the program calls

    None of this is code of the repository: the definitions follow the
    Python language reference and the documentation of [random].  A
    computation either returns a value, raises an exception, or (in the
    model only) runs out of the fuel given to a [while] loop.  Effects act
    on a [World]: the lines of standard input not yet read, the chunks
    written to standard output, and the state of the random source.

    A string is a sequence of characters with code points below 256 (the
    ASCII characters and the Latin-1 supplement).  Among these [isdigit]
    accepts the ten decimal digits and the superscripts one, two and
    three, and [int] accepts only the decimal digits: on a string that
    passed [isdigit], [py_int] is [int], which raises [ValueError] when a
    superscript occurs in the string or when the string has more than
    [int_max_str_digits] digits.  The program calls [int] on no other
    string; on these the model raises [ValueError], although Python also
    accepts a sign, surrounding blanks and underscores.  A string is
    [plain] when [int] returns on it if [isdigit] accepts it.

    Floats are the binary64 numbers of the standard library's
    [SpecFloat]; the conversion of an integer to a float raises
    [OverflowError] from 2 to the power 1024 on, which is proved from the
    definition of rounding. *)

From Stdlib Require Import Ascii DecimalString DecimalZ DecimalPos DecimalFacts.
From Stdlib Require Export SpecFloat.
From S2P Require Import Prelude.

(** ** Outcomes *)

Inductive exn : Type := IndexError | ValueError | EOFError | OverflowError.

Inductive outcome (A : Type) : Type :=
  | Ret (a : A)
  | Raise (e : exn)
  | OutOfFuel.
Arguments Ret {A} a.
Arguments Raise {A} e.
Arguments OutOfFuel {A}.

Definition obind {A B} (o : outcome A) (k : A → outcome B) : outcome B :=
  match o with
  | Ret a => k a
  | Raise e => Raise e
  | OutOfFuel => OutOfFuel
  end.

Definition returns {A} (o : outcome A) : bool :=
  match o with Ret _ => true | _ => false end.

(** ** The random source

    [random.randint(a, b)] returns an integer [N] with [a <= N <= b].  The
    model asks no more of the source than this range. *)

Class RandomSource (R : Type) : Type := {
  draw : Z → Z → R → Z * R;
  draw_range lo hi r : lo ≤ hi → lo ≤ (draw lo hi r).1 ≤ hi
}.

(** A tape of naturals: each draw consumes one cell and reduces it into
    the range; an exhausted tape yields the lower bound. *)
Definition tape_draw (lo hi : Z) (t : list nat) : Z * list nat :=
  match t with
  | [] => (lo, [])
  | n :: t' => (lo + Z.of_nat n mod (hi - lo + 1), t')
  end.

(** The tape from which the draws in the range that starts at [lo] are
    the numbers [xs]. *)
Definition tape_of (lo : Z) (xs : list Z) : list nat := (λ x, Z.to_nat (x - lo)) <$> xs.

(** ** The world and the monad of effects *)

Record World (R : Type) : Type := mkWorld {
  stdin : list string;
  stdout : list string;
  rand : R
}.
Arguments mkWorld {R} _ _ _.
Arguments stdin {R} _.
Arguments stdout {R} _.
Arguments rand {R} _.

Definition M (R A : Type) : Type := World R → outcome A * World R.

Definition ret {R A} (a : A) : M R A := λ w, (Ret a, w).

Definition raise {R A} (e : exn) : M R A := λ w, (Raise e, w).

Definition lift {R A} (o : outcome A) : M R A := λ w, (o, w).

Definition bind {R A B} (m : M R A) (k : A → M R B) : M R B :=
  λ w, match m w with
       | (Ret a, w') => k a w'
       | (Raise e, w') => (Raise e, w')
       | (OutOfFuel, w') => (OutOfFuel, w')
       end.

Declare Scope py_scope.
Delimit Scope py_scope with py.
Notation "x <- m ;; k" := (bind m (λ x, k))
  (at level 100, m at next level, right associativity) : py_scope.
Notation "m ;; k" := (bind m (λ _, k))
  (at level 100, right associativity) : py_scope.
#[global] Open Scope py_scope.

(** ** Lists *)

(** [l[i]] for an index that is not negative. *)
Definition getitem {A} (l : list A) (i : nat) : outcome A :=
  match l !! i with
  | Some x => Ret x
  | None => Raise IndexError
  end.

(** [l[i] = x] for an index that is not negative. *)
Definition setitem {A} (l : list A) (i : nat) (x : A) : outcome (list A) :=
  if decide (i < length l)%nat then Ret (<[i:=x]> l) else Raise IndexError.

(** [sum(l)] *)
Definition py_sum (l : list Z) : Z := foldl Z.add 0 l.

(** [max(l)]: [ValueError] on the empty list. *)
Definition py_max (l : list Z) : outcome Z :=
  match l with
  | [] => Raise ValueError
  | x :: l' => Ret (foldl Z.max x l')
  end.

(** [l.index(x)]: the first position of [x], [ValueError] when absent. *)
Fixpoint list_index (x : Z) (l : list Z) : outcome nat :=
  match l with
  | [] => Raise ValueError
  | y :: l' => if decide (y = x) then Ret 0%nat
               else obind (list_index x l') (λ i, Ret (S i))
  end.

(** ** Strings *)

(** The line feed, written [\n] in the source. *)
Definition nl : string := String "010"%char EmptyString.

(** The characters [0] to [9], which Unicode classes as decimal digits. *)
Definition decimal (c : ascii) : bool :=
  bool_decide (is_Some (uint_of_char c (Some Decimal.Nil))).

(** The superscripts two, three and one (U+00B2, U+00B3, U+00B9), which
    Unicode classes as digits that are not decimal. *)
Definition superscript (c : ascii) : bool :=
  bool_decide (c ∈ ["178"; "179"; "185"]%char).

Fixpoint all_chars (p : ascii → bool) (s : string) : bool :=
  match s with
  | EmptyString => true
  | String c s' => p c && all_chars p s'
  end.

(** [s.isdigit()]: the string is not empty and all its characters are
    digits. *)
Definition isdigit (s : string) : bool :=
  match s with
  | EmptyString => false
  | String _ _ => all_chars (λ c, decimal c || superscript c) s
  end.

(** The number of digits [int] accepts in a string
    ([sys.int_info.default_max_str_digits]). *)
Definition int_max_str_digits : Z := 4300.

(** [int(s)] on a string that passed [isdigit]. *)
Definition py_int (s : string) : outcome Z :=
  match s, NilEmpty.uint_of_string s with
  | String _ _, Some d =>
      if decide (Z.of_nat (String.length s) ≤ int_max_str_digits) then Ret (Z.of_uint d)
      else Raise ValueError
  | _, _ => Raise ValueError
  end.

(** A string on which [int] returns if [isdigit] accepts it. *)
Definition plain (s : string) : Prop := isdigit s = true → returns (py_int s) = true.

(** The string that holds a superscript two. *)
Definition superscript_two : string := String "178" EmptyString.

(** A number small enough for [int] to read its decimal string. *)
Definition short (n : Z) : Prop := n < 2 ^ int_max_str_digits.

(** [str(n)] *)
Definition py_str (n : Z) : string := NilZero.string_of_int (Z.to_int n).

(** ** Floating-point numbers

    Python floats are binary64 numbers; [spec_float] with precision 53 and
    maximal exponent 1024 is their arithmetic. *)

(** [float(n)], the conversion an integer undergoes when it is multiplied
    by a float: the nearest float, [OverflowError] when there is none. *)
Definition py_float (n : Z) : outcome spec_float :=
  match binary_normalize 53 1024 n 0 false with
  | S754_infinity _ => Raise OverflowError
  | f => Ret f
  end.

(** [x * y] on floats. *)
Definition float_mul (x y : spec_float) : spec_float := SFmul 53 1024 x y.

(** [int(x)] on a float: truncation towards zero. *)
Definition int_of_float (x : spec_float) : outcome Z :=
  match x with
  | S754_zero _ => Ret 0
  | S754_finite s m e =>
      let magnitude := if decide (0 ≤ e) then Z.pos m * 2 ^ e else Z.pos m / 2 ^ (- e) in
      Ret (if s then - magnitude else magnitude)
  | S754_infinity _ => Raise OverflowError
  | S754_nan => Raise ValueError
  end.

(** ** Input, output and random numbers *)

Section effects.
Context {R : Type} `{!RandomSource R}.

(** [print(s)] writes [s] and a line feed. *)
Definition print (s : string) : M R unit := λ w,
  (Ret tt, mkWorld (stdin w) (stdout w ++ [s +:+ nl]) (rand w)).

(** [input(prompt)] writes the prompt and reads one line, without its
    line feed; [EOFError] at the end of the input. *)
Definition input (prompt : string) : M R string := λ w,
  match stdin w with
  | [] => (Raise EOFError, mkWorld [] (stdout w ++ [prompt]) (rand w))
  | line :: rest => (Ret line, mkWorld rest (stdout w ++ [prompt]) (rand w))
  end.

(** [random.randint(a, b)]: [ValueError] on an empty range. *)
Definition randint (a b : Z) : M R Z := λ w,
  if decide (a ≤ b) then
    (Ret (draw a b (rand w)).1, mkWorld (stdin w) (stdout w) (draw a b (rand w)).2)
  else (Raise ValueError, w).

(** [for i in range: body(i)] *)
Fixpoint for_each {A} (range : list A) (body : A → M R unit) : M R unit :=
  match range with
  | [] => ret tt
  | i :: range' => body i ;; for_each range' body
  end.

(** [answer = input(..); while invalid(answer): answer = input(..)]: the
    validation loop.  Every round reads a line, so the number of lines left
    on standard input bounds the number of rounds; [fuel] is that bound. *)
Fixpoint while_invalid (fuel : nat) (invalid : string → M R bool)
    (again : M R string) (answer : string) : M R string :=
  bad <- invalid answer ;;
  if bad : bool then
    answer' <- again ;;
    match fuel with
    | O => lift OutOfFuel
    | S fuel' => while_invalid fuel' invalid again answer'
    end
  else ret answer.

End effects.

(** ** Laws of the monad *)

Section laws.
Context {R : Type}.
Implicit Types w : World R.

Lemma bind_ret_l {A B} (a : A) (k : A → M R B) w : bind (ret a) k w = k a w.
Proof. done. Qed.

Lemma bind_lift_Ret {A B} (a : A) (k : A → M R B) w :
  bind (lift (Ret a)) k w = k a w.
Proof. done. Qed.

Lemma bind_lift_Raise {A B} e (k : A → M R B) w :
  bind (lift (Raise e)) k w = (Raise e, w).
Proof. done. Qed.

Lemma bind_ret_r {A} (m : M R A) w : bind m ret w = m w.
Proof. unfold bind, ret. by destruct (m w) as [[]]. Qed.

Lemma bind_assoc {A B C} (m : M R A) (k : A → M R B) (h : B → M R C) w :
  bind (bind m k) h w = bind m (λ a, bind (k a) h) w.
Proof. unfold bind. by destruct (m w) as [[]]. Qed.

(** Running the first part of a bind. *)
Lemma bind_run {A B} (m : M R A) (k : A → M R B) w a w' :
  m w = (Ret a, w') → bind m k w = k a w'.
Proof. unfold bind. by intros ->. Qed.

Lemma bind_run_Raise {A B} (m : M R A) (k : A → M R B) w e w' :
  m w = (Raise e, w') → bind m k w = (Raise e, w').
Proof. unfold bind. by intros ->. Qed.

(** A bind that returns: both parts returned. *)
Lemma bind_Ret_inv {A B} (m : M R A) (k : A → M R B) w b :
  (bind m k w).1 = Ret b → ∃ a w1, m w = (Ret a, w1) ∧ (k a w1).1 = Ret b.
Proof. unfold bind. destruct (m w) as [[a| |] w1]; [by exists a, w1|done..]. Qed.

End laws.

(** ** Runs of [input] and of the validation loop *)

Section runs.
Context {R : Type} `{!RandomSource R}.
Implicit Types (w : World R) (invalid : string → M R bool) (again : M R string).

Lemma input_cons prompt w line rest :
  stdin w = line :: rest →
  input prompt w = (Ret line, mkWorld rest (stdout w ++ [prompt]) (rand w)).
Proof. unfold input. by intros ->. Qed.

Lemma randint_run a b w :
  a ≤ b →
  randint a b w
  = (Ret (draw a b (rand w)).1, mkWorld (stdin w) (stdout w) (draw a b (rand w)).2).
Proof. intros. unfold randint. by rewrite decide_True. Qed.

Lemma input_nil prompt w :
  stdin w = [] → input prompt w = (Raise EOFError, mkWorld [] (stdout w ++ [prompt]) (rand w)).
Proof. unfold input. by intros ->. Qed.

(** An answer that passes the test ends the loop, whatever the fuel. *)
Lemma while_invalid_accepts fuel invalid again answer w w' :
  invalid answer w = (Ret false, w') →
  while_invalid fuel invalid again answer w = (Ret answer, w').
Proof. intros Hv. destruct fuel; simpl; by rewrite (bind_run _ _ _ _ _ Hv). Qed.

(** An answer that fails the test is replaced by the next one. *)
Lemma while_invalid_rejects fuel invalid again answer w w1 answer' w2 :
  invalid answer w = (Ret true, w1) → again w1 = (Ret answer', w2) →
  while_invalid (S fuel) invalid again answer w
  = while_invalid fuel invalid again answer' w2.
Proof.
  intros Hv Ha. simpl. by rewrite (bind_run _ _ _ _ _ Hv), (bind_run _ _ _ _ _ Ha).
Qed.

(** The loop raises what the test raises. *)
Lemma while_invalid_test_Raise fuel invalid again answer w e w' :
  invalid answer w = (Raise e, w') →
  while_invalid fuel invalid again answer w = (Raise e, w').
Proof. intros Hv. destruct fuel; simpl; by rewrite (bind_run_Raise _ _ _ _ _ Hv). Qed.

(** The loop returns the first answer that passes the test: when asking
    again is [input], and the test accepts in silence the answers that
    satisfy [V] and rejects without reading those that satisfy [J], the
    answers that fail are skipped, one line each, and the first that
    passes is returned. *)
Lemma while_invalid_skips (V J : string → Prop) invalid again fuel rejected answer
    accepted rest out r :
  (∃ prompt, ∀ w, again w = input prompt w) →
  (∀ s w, V s → invalid s w = (Ret false, w)) →
  (∀ s w, J s → ∃ out', invalid s w = (Ret true, mkWorld (stdin w) out' (rand w))) →
  J answer → Forall J rejected → V accepted →
  (length rejected < fuel)%nat →
  ∃ out',
    while_invalid fuel invalid again answer
      (mkWorld (rejected ++ accepted :: rest) out r)
    = (Ret accepted, mkWorld rest out' r).
Proof.
  intros [prompt Hagain] Hacc Hrej Hanswer Hrejected Haccepted.
  revert fuel answer out Hanswer.
  induction Hrejected as [|s rejected Hs _ IH]; intros [|fuel] answer out Hanswer Hfuel;
    simpl in Hfuel; try lia;
    match goal with
    | |- context [mkWorld ?i out r] =>
        destruct (Hrej answer (mkWorld i out r) Hanswer) as [out1 Hinv]
    end;
    (erewrite while_invalid_rejects; [|exact Hinv|by rewrite Hagain; apply input_cons]);
    simpl.
  - eexists. by apply while_invalid_accepts, Hacc.
  - apply IH; [done|lia].
Qed.

End runs.

(** ** Laws of the list operations *)

Section lists.
Context {A : Type}.
Implicit Types l : list A.

Lemma getitem_Ret l i x : getitem l i = Ret x ↔ l !! i = Some x.
Proof. unfold getitem. destruct (l !! i); naive_solver. Qed.

Lemma getitem_lookup l i x : l !! i = Some x → getitem l i = Ret x.
Proof. apply getitem_Ret. Qed.

Lemma getitem_IndexError l i : getitem l i = Raise IndexError ↔ (length l ≤ i)%nat.
Proof.
  unfold getitem. destruct (l !! i) eqn:E.
  - apply lookup_lt_Some in E. split; [done|lia].
  - apply lookup_ge_None in E. done.
Qed.

Lemma setitem_Ret l i x : (i < length l)%nat → setitem l i x = Ret (<[i:=x]> l).
Proof. intros. unfold setitem. by case_decide. Qed.

Lemma setitem_IndexError l i x : (length l ≤ i)%nat → setitem l i x = Raise IndexError.
Proof. intros. unfold setitem. case_decide; [lia|done]. Qed.

End lists.

(** ** [sum] *)

Lemma foldl_add_acc (l : list Z) (a : Z) : foldl Z.add a l = a + foldl Z.add 0 l.
Proof.
  revert a. induction l as [|x l IH]; intros a; simpl; [lia|].
  rewrite (IH (a + x)), (IH (0 + x)). lia.
Qed.

Lemma py_sum_nil : py_sum [] = 0.
Proof. done. Qed.

Lemma py_sum_cons x l : py_sum (x :: l) = x + py_sum l.
Proof. unfold py_sum. simpl. by rewrite foldl_add_acc. Qed.

Lemma py_sum_nonneg l : Forall (λ x, 0 ≤ x) l → 0 ≤ py_sum l.
Proof. induction 1; rewrite ?py_sum_nil, ?py_sum_cons; lia. Qed.

Lemma py_sum_insert l i x y :
  l !! i = Some x → py_sum (<[i:=y]> l) = py_sum l - x + y.
Proof.
  revert i. induction l as [|z l IH]; intros [|i] Hi; simplify_eq/=.
  - rewrite !py_sum_cons. lia.
  - rewrite !py_sum_cons, (IH i) by done. lia.
Qed.

Lemma py_sum_lookup_le l i x :
  Forall (λ x, 0 ≤ x) l → l !! i = Some x → x ≤ py_sum l.
Proof.
  intros Hl. revert i. induction Hl as [|z l Hz Hl IH]; intros [|i] Hi; simplify_eq/=.
  - rewrite py_sum_cons. pose proof (py_sum_nonneg l Hl). lia.
  - rewrite py_sum_cons. specialize (IH i Hi). lia.
Qed.

Lemma py_sum_0_all l :
  Forall (λ x, 0 ≤ x) l → py_sum l = 0 → Forall (λ x, x = 0) l.
Proof.
  induction 1 as [|z l Hz Hl IH]; [done|]. rewrite py_sum_cons. intros Hs.
  pose proof (py_sum_nonneg l Hl). constructor; [lia|apply IH; lia].
Qed.

Lemma py_sum_nonpos l : Forall (λ x, x ≤ 0) l → py_sum l ≤ 0.
Proof. induction 1; rewrite ?py_sum_nil, ?py_sum_cons; lia. Qed.

#[export] Hint Rewrite py_sum_nil py_sum_cons : nim.
#[export] Hint Resolve py_sum_nonneg : nim.

(** ** [max] and [index] *)

Lemma foldl_max_ge (l : list Z) (a : Z) : a ≤ foldl Z.max a l.
Proof.
  revert a. induction l as [|x l IH]; intros a; simpl; [lia|].
  specialize (IH (a `max` x)). lia.
Qed.

Lemma foldl_max_upper (l : list Z) (a : Z) : Forall (λ x, x ≤ foldl Z.max a l) l.
Proof.
  revert a. induction l as [|x l IH]; intros a; simpl; constructor; [|done].
  pose proof (foldl_max_ge l (a `max` x)). lia.
Qed.

Lemma foldl_max_elem_of (l : list Z) (a : Z) : foldl Z.max a l ∈ a :: l.
Proof.
  revert a. induction l as [|x l IH]; intros a; simpl; [apply list_elem_of_here|].
  destruct (elem_of_cons l (foldl Z.max (a `max` x) l) (a `max` x)) as [[E|Hin] _];
    [apply IH| |by do 2 apply list_elem_of_further].
  rewrite E. destruct (Z.max_spec a x) as [[_ ->]|[_ ->]];
    [apply list_elem_of_further|]; apply list_elem_of_here.
Qed.

(** [max] of a list that is not empty is an element and an upper bound. *)
Lemma py_max_spec (l : list Z) :
  l ≠ [] → ∃ m, py_max l = Ret m ∧ m ∈ l ∧ Forall (λ x, x ≤ m) l.
Proof.
  destruct l as [|x l]; [done|]. intros _. eexists. split; [done|].
  split; [apply foldl_max_elem_of|]. constructor; [apply foldl_max_ge|apply foldl_max_upper].
Qed.

(** [index] of an element is its first position. *)
Lemma list_index_spec (x : Z) (l : list Z) :
  x ∈ l → ∃ i, list_index x l = Ret i ∧ l !! i = Some x
               ∧ ∀ j y, (j < i)%nat → l !! j = Some y → y ≠ x.
Proof.
  induction l as [|y l IH]; [by intros ?%elem_of_nil|].
  intros Hin. simpl. case_decide as Hy.
  - subst. exists 0%nat. split_and!; [done..|lia].
  - destruct IH as (i & Ei & Hi & Hfirst).
    { apply elem_of_cons in Hin as [?|?]; [congruence|done]. }
    exists (S i). rewrite Ei. split_and!; [done..|].
    intros [|j] z Hj Hz; simplify_eq/=; [done|]. apply (Hfirst j); [lia|done].
Qed.

Lemma list_index_absent (x : Z) (l : list Z) :
  x ∉ l → list_index x l = Raise ValueError.
Proof.
  induction l as [|y l IH]; [done|]. intros Hin. simpl.
  apply not_elem_of_cons in Hin as [? ?]. case_decide; [congruence|].
  by rewrite IH.
Qed.

(** ** Strings of digits *)

Lemma uint_of_char_decimal c d : is_Some (uint_of_char c (Some d)) ↔ decimal c = true.
Proof.
  unfold decimal. rewrite bool_decide_eq_true.
  destruct c as [[] [] [] [] [] [] [] []]; simpl; split; intros [? [=]]; eauto.
Qed.

Lemma uint_of_string_decimal s :
  is_Some (NilEmpty.uint_of_string s) ↔ all_chars decimal s = true.
Proof.
  induction s as [|c s IH]; simpl; [by split; eauto|].
  rewrite andb_true_iff, <- IH. destruct (NilEmpty.uint_of_string s) as [d|].
  - rewrite uint_of_char_decimal. split; [by eauto|by intros []].
  - split; [by intros [? [=]]|]. by intros [_ [? [=]]].
Qed.

Lemma all_chars_impl (p q : ascii → bool) s :
  (∀ c, p c = true → q c = true) → all_chars p s = true → all_chars q s = true.
Proof.
  intros Hpq. induction s as [|c s IH]; simpl; [done|].
  rewrite !andb_true_iff. intros []. auto.
Qed.

(** [int] returns on the strings of at most [int_max_str_digits] decimal
    digits that are not empty. *)
Lemma py_int_Ret s n :
  py_int s = Ret n ↔
  s ≠ EmptyString ∧ Z.of_nat (String.length s) ≤ int_max_str_digits
  ∧ ∃ d, NilEmpty.uint_of_string s = Some d ∧ n = Z.of_uint d.
Proof.
  unfold py_int. destruct s as [|c s]; [by split; [|intros []]|].
  destruct (NilEmpty.uint_of_string _) as [d|];
    [|by split; [|intros (_ & _ & ? & [=] & _)]].
  case_decide; (split; [intros [=]|intros (_ & ? & ? & [= <-] & ->)]); try done.
  split_and!; [done..|]. by exists d.
Qed.

Lemma py_int_isdigit s n : py_int s = Ret n → isdigit s = true.
Proof.
  intros (Hs & _ & d & Hd & _)%py_int_Ret. destruct s as [|c s]; [done|].
  unfold isdigit. eapply all_chars_impl; [|by apply uint_of_string_decimal; eexists].
  by intros c' ->.
Qed.

Lemma py_int_nonneg s n : py_int s = Ret n → 0 ≤ n.
Proof. intros (_ & _ & d & _ & ->)%py_int_Ret. unfold Z.of_uint. lia. Qed.

Lemma py_int_plain s n : py_int s = Ret n → plain s.
Proof. intros E _. by rewrite E. Qed.

Lemma not_isdigit_plain s : isdigit s = false → plain s.
Proof. by intros E; unfold plain; rewrite E. Qed.

(** [int] raises nothing but [ValueError]. *)
Lemma py_int_exn s : returns (py_int s) = false → py_int s = Raise ValueError.
Proof. unfold py_int. by repeat case_match. Qed.

(** What [isdigit] and [int] make of a string: [isdigit] rejects it, or
    [int] reads a number that is not negative, or [isdigit] accepts it and
    [int] raises [ValueError]. *)
Lemma isdigit_cases s :
  isdigit s = false
  ∨ (∃ n, isdigit s = true ∧ py_int s = Ret n ∧ 0 ≤ n)
  ∨ (isdigit s = true ∧ py_int s = Raise ValueError ∧ ¬ plain s).
Proof.
  destruct (isdigit s) eqn:Hd; [right|by left].
  pose proof (py_int_exn s) as Hexn. pose proof (py_int_nonneg s) as Hnonneg.
  unfold plain. rewrite Hd. destruct (py_int s) as [n| |]; simpl in *.
  - left. exists n. auto.
  - right. split_and!; [done|by apply Hexn|]. by intros Hs; specialize (Hs eq_refl).
  - by specialize (Hexn eq_refl).
Qed.

(** On a string that is not plain, [isdigit] and [int] disagree. *)
Lemma not_plain_py_int s : ¬ plain s → isdigit s = true ∧ py_int s = Raise ValueError.
Proof.
  intros Hs. destruct (isdigit s) eqn:Hd; [|by destruct Hs; apply not_isdigit_plain].
  split; [done|]. apply py_int_exn. destruct (returns (py_int s)) eqn:E; [|done].
  destruct Hs. by intros _.
Qed.

(** The decimal string of a number has no more digits than the number has
    bits. *)
Lemma nb_digits_double d :
  (Decimal.nb_digits (Decimal.Little.double d) ≤ S (Decimal.nb_digits d)
   ∧ Decimal.nb_digits (Decimal.Little.succ_double d) ≤ S (Decimal.nb_digits d))%nat.
Proof. induction d; simpl; lia. Qed.

Lemma nb_digits_to_little_uint p :
  (Decimal.nb_digits (Pos.to_little_uint p) ≤ Pos.size_nat p)%nat.
Proof.
  induction p as [p IH|p IH|]; simpl; [| |lia].
  - pose proof (proj2 (nb_digits_double (Pos.to_little_uint p))). lia.
  - pose proof (proj1 (nb_digits_double (Pos.to_little_uint p))). lia.
Qed.

Lemma size_nat_le p (k : nat) : Z.pos p < 2 ^ Z.of_nat k → (Pos.size_nat p ≤ k)%nat.
Proof.
  revert k. induction p as [p IH|p IH|]; intros [|k]; simpl Pos.size_nat;
    rewrite ?Nat2Z.inj_succ, ?Z.pow_succ_r, ?Z.pow_0_r by lia; try lia.
  - intros H. specialize (IH k). lia.
  - intros H. specialize (IH k). lia.
Qed.

Lemma length_string_of_uint d :
  String.length (NilEmpty.string_of_uint d) = Decimal.nb_digits d.
Proof. induction d; simpl; congruence. Qed.

Lemma py_str_pos p : py_str (Z.pos p) = NilEmpty.string_of_uint (Pos.to_uint p).
Proof.
  unfold py_str, Z.to_int, NilZero.string_of_int, NilZero.string_of_uint.
  pose proof (Unsigned.to_uint_nonnil p). by destruct (Pos.to_uint p).
Qed.

Lemma length_py_str n (k : nat) :
  0 ≤ n < 2 ^ Z.of_nat k → (1 ≤ k)%nat → (String.length (py_str n) ≤ k)%nat.
Proof.
  intros [H0 Hk] H1. destruct n as [|p|p]; [done| |lia].
  rewrite py_str_pos, length_string_of_uint. unfold Pos.to_uint.
  rewrite nb_digits_rev. etrans; [apply nb_digits_to_little_uint|]. by apply size_nat_le.
Qed.

(** [int(str(n))] is [n], for a number that is not negative and whose
    decimal string [int] accepts. *)
Lemma py_int_py_str n : 0 ≤ n → short n → py_int (py_str n) = Ret n.
Proof.
  unfold short. intros Hn0 Hn. apply py_int_Ret. split_and!.
  - destruct n as [|p|p]; [done| |lia]. rewrite py_str_pos.
    pose proof (Unsigned.to_uint_nonnil p). by destruct (Pos.to_uint p).
  - pose proof (length_py_str n (Z.to_nat int_max_str_digits)) as Hlen.
    rewrite Z2Nat.id in Hlen by done. unfold int_max_str_digits in *. lia.
  - destruct n as [|p|p]; [by eexists| |lia]. rewrite py_str_pos, NilEmpty.usu.
    eexists. split; [done|]. unfold Z.of_uint. by rewrite DecimalPos.Unsigned.of_to.
Qed.

Lemma short_le n m : n ≤ m → short m → short n.
Proof. unfold short. lia. Qed.

(** ** Conversion to float

    [float(n)] overflows from 2 to the power 1024 on.  The mantissa of
    such an integer has more than 1024 binary digits; rounding it to 53
    digits shifts it right by so many places that the exponent exceeds
    the largest exponent of a finite binary64 number. *)

Section float.
Implicit Types (p : positive) (mrs : shr_record).

Lemma digits2_pos_size p : digits2_pos p = Pos.size p.
Proof. induction p; simpl; congruence. Qed.

(** An integer of [d] binary digits lies between 2^(d-1) and 2^d. *)
Lemma digits2_pos_bounds p :
  2 ^ (Z.pos (digits2_pos p) - 1) ≤ Z.pos p < 2 ^ Z.pos (digits2_pos p).
Proof.
  rewrite digits2_pos_size. split.
  - pose proof (Pos.size_le p) as H.
    assert (2 ^ Z.pos (Pos.size p) ≤ 2 * Z.pos p) as H2.
    { rewrite <- Pos2Z.inj_pow. change (2 * Z.pos p) with (Z.pos p~0). lia. }
    replace (Z.pos (Pos.size p)) with (Z.pos (Pos.size p) - 1 + 1) in H2 by lia.
    rewrite Z.pow_add_r, Z.pow_1_r in H2 by lia. lia.
  - pose proof (Pos.size_gt p). rewrite <- Pos2Z.inj_pow. lia.
Qed.

(** Shifting right by one place halves the mantissa, by [p] places divides
    it by 2^p. *)
Lemma shr_1_m mrs : 0 ≤ shr_m mrs → shr_m (shr_1 mrs) = shr_m mrs / 2.
Proof.
  destruct mrs as [[|[p|p|]|p] r s]; simpl; intros; try done.
  - rewrite Pos2Z.inj_xI. apply (Z.div_unique _ _ _ 1); lia.
  - rewrite Pos2Z.inj_xO. apply (Z.div_unique _ _ _ 0); lia.
Qed.

Lemma iter_pos_shr_1_m p mrs :
  0 ≤ shr_m mrs → shr_m (SpecFloat.iter_pos shr_1 p mrs) = shr_m mrs / 2 ^ Z.pos p.
Proof.
  revert mrs. induction p as [p IH|p IH|]; intros mrs Hm; simpl.
  - assert (0 ≤ shr_m (shr_1 mrs)) by (rewrite shr_1_m by done; apply Z.div_pos; lia).
    assert (0 ≤ shr_m (SpecFloat.iter_pos shr_1 p (shr_1 mrs)))
      by (rewrite IH by done; apply Z.div_pos; lia).
    rewrite !IH, shr_1_m by done. rewrite !Z.div_div by lia. f_equal.
    assert (2 ^ Z.pos p~1 = 2 * (2 ^ Z.pos p * 2 ^ Z.pos p)) as ->; [|lia].
    rewrite <- Z.pow_add_r, <- Z.pow_succ_r by lia. f_equal. lia.
  - assert (0 ≤ shr_m (SpecFloat.iter_pos shr_1 p mrs))
      by (rewrite IH by done; apply Z.div_pos; lia).
    rewrite !IH by done. rewrite !Z.div_div by lia. f_equal.
    rewrite <- Z.pow_add_r by lia. f_equal. lia.
  - rewrite shr_1_m by done. by rewrite Z.pow_1_r.
Qed.

Lemma round_nearest_even_bounds mx lx :
  mx ≤ round_nearest_even mx lx ≤ mx + 1.
Proof. destruct lx as [|[]]; simpl; try case_match; lia. Qed.

(** The mantissa of an integer from 2^1024 on, shifted to 53 digits. *)
Lemma shr_mantissa_bounds p q :
  Z.pos (digits2_pos p) = Z.pos q + 53 →
  2 ^ 52 ≤ shr_m (SpecFloat.iter_pos shr_1 q (shr_record_of_loc (Z.pos p) loc_Exact))
  < 2 ^ 53.
Proof.
  intros Hd. rewrite iter_pos_shr_1_m by done. simpl.
  destruct (digits2_pos_bounds p) as [Hlo Hhi]. rewrite Hd in Hlo, Hhi.
  rewrite Z.pow_add_r in Hhi by lia.
  replace (Z.pos q + 53 - 1) with (Z.pos q + 52) in Hlo by lia.
  rewrite Z.pow_add_r in Hlo by lia. split.
  - apply Z.div_le_lower_bound; lia.
  - apply Z.div_lt_upper_bound; lia.
Qed.

Lemma py_float_overflow n : 2 ^ 1024 ≤ n → py_float n = Raise OverflowError.
Proof.
  intros Hn. destruct n as [|m|m]; [lia| |lia].
  pose proof (digits2_pos_bounds m) as [Hlo Hhi].
  set (d := Z.pos (digits2_pos m)) in *.
  assert (1024 < d) as Hd by (apply (Z.pow_lt_mono_r_iff 2); lia).
  assert (fexp 53 1024 (d + 0) = d - 53) as Hfexp by (unfold fexp, emin; lia).
  unfold py_float, binary_normalize, binary_round, shl_align. fold d. rewrite Hfexp.
  destruct (d - 53 - 0) as [|q|q] eqn:Eq; try lia.
  unfold binary_round_aux, shr_fexp. simpl Zdigits2. fold d. rewrite Hfexp, Eq.
  unfold shr at 1. pose proof (shr_mantissa_bounds m q ltac:(lia)) as Hm1.
  set (mrs := SpecFloat.iter_pos shr_1 q (shr_record_of_loc (Z.pos m) loc_Exact)) in *.
  pose proof (round_nearest_even_bounds (shr_m mrs) (loc_of_shr_record mrs)) as Hmx.
  destruct (round_nearest_even _ _) as [|m2|m2]; try lia.
  pose proof (digits2_pos_bounds m2) as [Hlo2 Hhi2]. simpl Zdigits2.
  set (d2 := Z.pos (digits2_pos m2)) in *.
  assert (d2 = 53 ∨ d2 = 54) as Hd2.
  { assert (52 < d2) by (apply (Z.pow_lt_mono_r_iff 2); lia).
    assert (d2 - 1 < 54) by (apply (Z.pow_lt_mono_r_iff 2); lia). lia. }
  assert (fexp 53 1024 (d2 + (0 + Z.pos q)) - (0 + Z.pos q) = d2 - 53) as ->
    by (unfold fexp, emin; lia).
  assert ((0 + Z.pos q <=? 1024 - 53) = false) as Hq by (apply Z.leb_gt; lia).
  assert ((0 + Z.pos q + (54 - 53) <=? 1024 - 53) = false) as Hq1
    by (apply Z.leb_gt; lia).
  destruct Hd2 as [->| ->]; simpl; [by rewrite Hq|].
  assert (2 ^ 53 ≤ Z.pos m2) as Hm2 by done.
  by destruct m2 as [m2|m2|]; simpl; rewrite ?Hq1.
Qed.

(** An integer that [float] converts is below 2^1024. *)
Lemma py_float_Ret_lt n x : py_float n = Ret x → n < 2 ^ 1024.
Proof.
  intros E. destruct (decide (n < 2 ^ 1024)) as [|Hn]; [done|].
  rewrite py_float_overflow in E by lia. discriminate.
Qed.

End float.

(** ** Instances *)

#[export] Instance exn_eq_dec : EqDecision exn.
Proof. solve_decision. Defined.

#[export] Instance plain_dec s : Decision (plain s).
Proof. unfold plain. apply _. Defined.

#[export] Instance short_dec n : Decision (short n).
Proof. unfold short. apply _. Defined.

Lemma tape_draw_range lo hi (t : list nat) :
  lo ≤ hi → lo ≤ (tape_draw lo hi t).1 ≤ hi.
Proof.
  intros Hle. destruct t as [|n t]; simpl; [lia|].
  pose proof (Z.mod_pos_bound (Z.of_nat n) (hi - lo + 1)). lia.
Qed.

#[export] Instance tape_source : RandomSource (list nat) :=
  {| draw := tape_draw; draw_range := tape_draw_range |}.

(** Every number of the range can be drawn from a tape. *)
Lemma tape_draw_any lo hi x xs (t : list nat) :
  lo ≤ x ≤ hi →
  tape_draw lo hi (tape_of lo (x :: xs) ++ t) = (x, tape_of lo xs ++ t).
Proof.
  intros Hx. simpl. rewrite Z2Nat.id, Z.mod_small by lia. f_equal. lia.
Qed.

(** ** The strings on which [isdigit] and [int] disagree *)

Example superscript_two_not_plain :
  isdigit superscript_two = true ∧ py_int superscript_two = Raise ValueError
  ∧ ¬ plain superscript_two.
Proof. split_and!; [done..|]. intros H. by specialize (H eq_refl). Qed.

Example long_digits_not_plain :
  let s := String.string_of_list_ascii (replicate 4301 "1"%char) in
  isdigit s = true ∧ py_int s = Raise ValueError ∧ ¬ plain s.
Proof.
  split_and!; [by vm_compute..|]. intros H. specialize (H ltac:(by vm_compute)).
  vm_compute in H. discriminate.
Qed.

Example leading_zero_not_canonical : py_int "02" = Ret 2 ∧ py_str 2 ≠ "02".
Proof. done. Qed.
