(* ===== verification/Wp.v ===== *)
(** * Wp: specifications of effectful computations

    [wp m Q E w] holds when running [m] in the world [w] returns a value
    and a world that satisfy [Q], or raises an exception that, with the
    world it leaves, satisfies [E]; running out of fuel satisfies nothing.
    The rules below follow the structure of the monad, so that the
    specification of a function is proved from those of the functions it
    calls.  The frames say what a computation may do to the world;
    [input_exn] says how a computation that reads what the human types
    may fail. *)

From S2P Require Import Prelude PyRuntime.

Definition wp {R A} (m : M R A) (Q : A → World R → Prop)
    (E : exn → World R → Prop) (w : World R) : Prop :=
  match m w with
  | (Ret a, w') => Q a w'
  | (Raise e, w') => E e w'
  | (OutOfFuel, _) => False
  end.
Arguments wp : simpl never.

(** The postcondition of computations that may only fail by reaching the
    end of standard input. *)
Definition eof_only {R} (e : exn) (w : World R) : Prop := e = EOFError.

(** The postcondition of computations that do not raise. *)
Definition no_exn {R} (e : exn) (w : World R) : Prop := False.

(** [reads w w']: from [w] to [w'] lines were read from standard input and
    chunks were written to standard output, and no random number was
    drawn. *)
Definition reads {R} (w w' : World R) : Prop :=
  stdin w' `suffix_of` stdin w ∧ stdout w `prefix_of` stdout w' ∧ rand w' = rand w.

(** [draws w w']: from [w] to [w'] random numbers were drawn and chunks
    were written, and nothing was read. *)
Definition draws {R} (w w' : World R) : Prop :=
  stdin w' = stdin w ∧ stdout w `prefix_of` stdout w'.

(** [draws_only w w']: from [w] to [w'] random numbers were drawn and
    nothing else happened. *)
Definition draws_only {R} (w w' : World R) : Prop :=
  stdin w' = stdin w ∧ stdout w' = stdout w.

(** [took w w']: from [w] to [w'] lines were taken from the front of
    standard input, all of them plain. *)
Definition took {R} (w w' : World R) : Prop :=
  ∃ read, stdin w = read ++ stdin w' ∧ Forall plain read.

(** [asked w w']: what a function that asks the human leaves behind:
    lines were read, at least one and all of them plain, and no random
    number was drawn. *)
Definition asked {R} (w w' : World R) : Prop :=
  reads w w' ∧ took w w' ∧ (length (stdin w') < length (stdin w))%nat.

(** [writes w w']: from [w] to [w'] chunks were written and nothing
    else happened. *)
Definition writes {R} (w w' : World R) : Prop :=
  stdin w' = stdin w ∧ stdout w `prefix_of` stdout w' ∧ rand w' = rand w.

(** [steps w w']: what every function of the program does when it
    returns: plain lines are taken from the front of standard input and
    chunks are added to standard output. *)
Definition steps {R} (w w' : World R) : Prop :=
  took w w' ∧ stdout w `prefix_of` stdout w'.

(** [clean w]: every line left on standard input is [plain]: the tests
    of the program do not raise on it. *)
Definition clean {R} (w : World R) : Prop := Forall plain (stdin w).

(** [at_eof w w']: the input of [w] was taken to its end, and all its
    lines are plain. *)
Definition at_eof {R} (w w' : World R) : Prop := took w w' ∧ stdin w' = [].

(** [bad_line w w']: the lines taken from the input of [w] are plain but
    the last one, which is not. *)
Definition bad_line {R} (w w' : World R) : Prop :=
  ∃ read line, stdin w = read ++ line :: stdin w' ∧ Forall plain read ∧ ¬ plain line.

(** The postcondition of computations that read, from the world [w], what
    the human types.  They fail with [EOFError] at the end of the input,
    or with [ValueError] on the first line of the input that is not
    plain. *)
Definition input_exn {R} (w : World R) (e : exn) (w' : World R) : Prop :=
  (e = EOFError ∧ at_eof w w') ∨ (e = ValueError ∧ bad_line w w').

(** The postcondition of a test of the answer [s] in the world [w]: it
    raises only [ValueError], and only if [s] is not plain; it has read
    nothing then. *)
Definition bad_digits {R} (s : string) (w : World R) (e : exn) (w' : World R) : Prop :=
  e = ValueError ∧ ¬ plain s ∧ stdin w' = stdin w.

(** The postcondition of asking in the world [w]: it raises only
    [EOFError], and only when no line is left. *)
Definition no_line {R} (w : World R) (e : exn) (w' : World R) : Prop :=
  e = EOFError ∧ stdin w = [] ∧ stdin w' = [].

Section rules.
Context {R : Type} `{!RandomSource R}.
Implicit Types (w : World R) (E : exn → World R → Prop).

Lemma wp_ret {A} (a : A) (Q : A → World R → Prop) E w : Q a w → wp (ret a) Q E w.
Proof. done. Qed.

Lemma wp_lift_Ret {A} (a : A) (Q : A → World R → Prop) E w :
  Q a w → wp (lift (Ret a)) Q E w.
Proof. done. Qed.

Lemma wp_lift {A} (o : outcome A) (Q : A → World R → Prop) E w a :
  o = Ret a → Q a w → wp (lift o) Q E w.
Proof. by intros ->. Qed.

Lemma wp_bind {A B} (m : M R A) (k : A → M R B) (Q : B → World R → Prop) E w :
  wp m (λ a w', wp (k a) Q E w') E w → wp (bind m k) Q E w.
Proof. unfold wp, bind. by destruct (m w) as [[a|e|] w']. Qed.

Lemma wp_mono {A} (m : M R A) (Q Q' : A → World R → Prop) E E' w :
  wp m Q E w → (∀ a w', Q a w' → Q' a w') → (∀ e w', E e w' → E' e w') →
  wp m Q' E' w.
Proof. unfold wp. destruct (m w) as [[a|e|] w']; auto. Qed.

Lemma wp_post {A} (m : M R A) (Q Q' : A → World R → Prop) E w :
  wp m Q E w → (∀ a w', Q a w' → Q' a w') → wp m Q' E w.
Proof. intros H HQ. by apply (wp_mono m Q Q' E E w). Qed.

Lemma wp_total {A} (m : M R A) (Q : A → World R → Prop) E w :
  wp m Q E w → (m w).1 ≠ OutOfFuel.
Proof. unfold wp. by destruct (m w) as [[a|e|] w']. Qed.

(** A computation that cannot raise returns. *)
Lemma wp_no_exn_inv {A} (m : M R A) (Q : A → World R → Prop) w :
  wp m Q no_exn w → ∃ a w', m w = (Ret a, w') ∧ Q a w'.
Proof. unfold wp. destruct (m w) as [[a|e|] w']; [by exists a, w'|done..]. Qed.

(** A computation that may only reach the end of the input returns or
    raises [EOFError]. *)
Lemma wp_eof_only_inv {A} (m : M R A) (Q : A → World R → Prop) w :
  wp m Q eof_only w →
  (∃ a w', m w = (Ret a, w') ∧ Q a w') ∨ (∃ w', m w = (Raise EOFError, w')).
Proof.
  unfold wp, eof_only. destruct (m w) as [[a|e|] w']; [left; by exists a, w'| |done].
  intros ->. right. by exists w'.
Qed.

Lemma wp_run {A} (m : M R A) (Q : A → World R → Prop) E w a w' :
  m w = (Ret a, w') → Q a w' → wp m Q E w.
Proof. unfold wp. by intros ->. Qed.

Lemma wp_print s (Q : unit → World R → Prop) E w :
  Q tt (mkWorld (stdin w) (stdout w ++ [s +:+ nl]) (rand w)) → wp (print s) Q E w.
Proof. done. Qed.

Lemma wp_input prompt (Q : string → World R → Prop) E w :
  (∀ line rest, stdin w = line :: rest →
     Q line (mkWorld rest (stdout w ++ [prompt]) (rand w))) →
  (stdin w = [] → E EOFError (mkWorld [] (stdout w ++ [prompt]) (rand w))) →
  wp (input prompt) Q E w.
Proof. unfold wp, input. destruct (stdin w); auto. Qed.

Lemma wp_randint a b (Q : Z → World R → Prop) E w :
  a ≤ b →
  (∀ n r, a ≤ n ≤ b → Q n (mkWorld (stdin w) (stdout w) r)) →
  wp (randint a b) Q E w.
Proof.
  intros Hab HQ. unfold wp, randint. case_decide; [|done].
  by apply HQ, draw_range.
Qed.

(** ** Frames *)

#[export] Instance reads_preorder : PreOrder (reads (R := R)).
Proof.
  split.
  - by intros w.
  - intros w1 w2 w3 (? & ? & ?) (? & ? & ?). split_and!; [by etrans..|congruence].
Qed.

#[export] Instance draws_preorder : PreOrder (draws (R := R)).
Proof.
  split.
  - by intros w.
  - intros w1 w2 w3 (? & ?) (? & ?). split; [congruence|by etrans].
Qed.

#[export] Instance writes_preorder : PreOrder (writes (R := R)).
Proof.
  split.
  - by intros w.
  - intros w1 w2 w3 (? & ? & ?) (? & ? & ?). split_and!; [congruence|by etrans|congruence].
Qed.

#[export] Instance took_preorder : PreOrder (took (R := R)).
Proof.
  split.
  - intros w. by exists [].
  - intros w1 w2 w3 (k1 & E1 & ?) (k2 & E2 & ?). exists (k1 ++ k2).
    split; [by rewrite E1, E2, app_assoc|by apply Forall_app].
Qed.

#[export] Instance steps_preorder : PreOrder (steps (R := R)).
Proof.
  split.
  - by intros w.
  - intros w1 w2 w3 (? & ?) (? & ?). split; by etrans.
Qed.

Lemma writes_reads w w' : writes w w' → reads w w'.
Proof. intros (E & ? & ?). split_and!; [by rewrite E|done..]. Qed.

Lemma writes_draws w w' : writes w w' → draws w w'.
Proof. by intros (? & ? & ?). Qed.

(** Nothing is taken when standard input is left as it is. *)
Lemma took_same w w' : stdin w' = stdin w → took w w'.
Proof. intros E. exists []. by rewrite E. Qed.

Lemma draws_steps w w' : draws w w' → steps w w'.
Proof. intros (E & ?). split; [by apply took_same|done]. Qed.

Lemma writes_steps w w' : writes w w' → steps w w'.
Proof. intros ?%writes_draws. by apply draws_steps. Qed.

Lemma asked_steps w w' : asked w w' → steps w w'.
Proof. by intros ((_ & ? & _) & ? & _). Qed.

(** Clean input stays clean, and after plain lines were taken the input
    is clean if what is left is. *)
Lemma clean_steps w w' : steps w w' → (clean w ↔ clean w').
Proof.
  intros [(k & E & Hk) _]. unfold clean. rewrite E, Forall_app. by split; [intros []|].
Qed.

(** The two ways to fail tell whether the input is clean. *)
Lemma at_eof_clean w w' : at_eof w w' → clean w.
Proof. intros [(k & E & ?) Hnil]. unfold clean. by rewrite E, Hnil, app_nil_r. Qed.

Lemma bad_line_not_clean w w' : bad_line w w' → ¬ clean w.
Proof.
  intros (k & line & E & _ & Hline) Hw. unfold clean in Hw. rewrite E in Hw.
  apply Forall_app in Hw as [_ Hw]. by apply Forall_cons_1 in Hw as [? _].
Qed.

Lemma input_exn_steps w w1 e w' : steps w w1 → input_exn w1 e w' → input_exn w e w'.
Proof.
  intros [(k & E & Hk) _] [[? [(k1 & E1 & Hk1) ?]]|[? (k1 & line & E1 & Hk1 & ?)]];
    [left|right]; (split; [done|]).
  - split; [|done]. exists (k ++ k1). split; [by rewrite E, E1, app_assoc|by apply Forall_app].
  - exists (k ++ k1), line. split_and!; [by rewrite E, E1, app_assoc|by apply Forall_app|done].
Qed.

Lemma input_exn_clean w e w' : clean w → input_exn w e w' → eof_only e w'.
Proof. intros Hw [[? _]|[_ ?%bad_line_not_clean]]; done. Qed.

Lemma writes_print w s : writes w (mkWorld (stdin w) (stdout w ++ [s]) (rand w)).
Proof. split_and!; [done| |done]. by apply prefix_app_r. Qed.

Lemma reads_input w line rest s :
  stdin w = line :: rest → reads w (mkWorld rest (stdout w ++ [s]) (rand w)).
Proof.
  intros Hw. split_and!; simpl; [|by apply prefix_app_r|done].
  rewrite Hw. by apply suffix_cons_r.
Qed.

Lemma draws_rand w r : draws w (mkWorld (stdin w) (stdout w) r).
Proof. done. Qed.

#[export] Instance asked_transitive : Transitive (asked (R := R)).
Proof.
  intros w1 w2 w3 (? & ? & ?) (? & ? & ?). split_and!; [by etrans..|lia].
Qed.

(** Writing after asking. *)
Lemma asked_writes w w1 w2 : asked w w1 → writes w1 w2 → asked w w2.
Proof.
  intros (? & ? & ?) Hw. pose proof (proj1 Hw) as E. split_and!.
  - by etrans; [|apply writes_reads].
  - by etrans; [|apply took_same].
  - by rewrite E.
Qed.

(** A computation that reads what the human types returns, reaches the
    end of an input of plain lines, or raises [ValueError] on the first
    line that is not plain. *)
Lemma wp_input_exn_inv {A} (m : M R A) (Q : A → World R → Prop) w :
  wp m Q (input_exn w) w →
  (∃ a w', m w = (Ret a, w') ∧ Q a w')
  ∨ (∃ w', m w = (Raise EOFError, w') ∧ at_eof w w')
  ∨ (∃ w', m w = (Raise ValueError, w') ∧ bad_line w w').
Proof.
  unfold wp, input_exn. destruct (m w) as [[a|e|] w']; [left; by exists a, w'| |done].
  intros [[-> ?]|[-> ?]]; right; [left|right]; by exists w'.
Qed.

(** On clean input it returns or reaches the end of the input. *)
Lemma wp_clean {A} (m : M R A) (Q : A → World R → Prop) w :
  clean w → wp m Q (input_exn w) w → wp m Q eof_only w.
Proof. intros Hw H. eapply wp_mono; [done..|]. intros e w'. by apply input_exn_clean. Qed.

(** A test does not raise on a plain answer. *)
Lemma wp_plain {A} (m : M R A) (Q : A → World R → Prop) s w :
  plain s → wp m Q (bad_digits s w) w → wp m Q no_exn w.
Proof. intros Hs H. eapply wp_mono; [done..|]. by intros e w' (_ & ? & _). Qed.

(** Sequencing computations that read what the human types: what the
    second raises is told of the world the first leaves. *)
Lemma wp_bind_input {A B} (m : M R A) (k : A → M R B) (Q : B → World R → Prop) w :
  wp m (λ a w1, steps w w1 ∧ wp (k a) Q (input_exn w1) w1) (input_exn w) w →
  wp (bind m k) Q (input_exn w) w.
Proof.
  intros Hm. apply wp_bind. eapply wp_post; [done|]. simpl. intros a w1 [Hs Hk].
  eapply wp_mono; [done..|]. intros e w'. by apply input_exn_steps.
Qed.

(** Asking takes the first line of the input, or raises [EOFError] when
    there is none. *)
Lemma wp_input_line prompt w :
  wp (input prompt) (λ line w', stdin w = line :: stdin w' ∧ reads w w') (no_line w) w.
Proof.
  apply wp_input; [|done]. intros line rest Hw. split; [done|]. by eapply reads_input.
Qed.

(** Sequencing computations that stay within a transitive frame. *)
Lemma wp_bind_frame (F : relation (World R)) `{!Transitive F} {A B}
    (m : M R A) (k : A → M R B) E w :
  wp m (λ _ w', F w w') E w →
  (∀ a w1, wp (k a) (λ _ w', F w1 w') E w1) →
  wp (bind m k) (λ _ w', F w w') E w.
Proof.
  intros Hm Hk. apply wp_bind. eapply wp_post; [done|]. simpl. intros a w1 H1.
  eapply wp_post; [apply Hk|]. simpl. intros b w2 H2. by etrans.
Qed.

Lemma wp_print_writes s E w : wp (print s) (λ _ w', writes w w') E w.
Proof. apply wp_print, writes_print. Qed.

(** A [for] loop whose body keeps an invariant of the world. *)
Lemma wp_for_each {A} (range : list A) body (I : World R → Prop) E w :
  I w → (∀ i w, i ∈ range → I w → wp (body i) (λ _ w', I w') E w) →
  wp (for_each range body) (λ _ w', I w') E w.
Proof.
  revert w. induction range as [|i range IH]; intros w Hw Hbody; simpl.
  { by apply wp_ret. }
  apply wp_bind. eapply wp_post; [apply Hbody; [apply list_elem_of_here|done]|].
  simpl. intros _ w' Hw'. apply IH; [done|].
  intros j w'' Hj. apply Hbody. by apply list_elem_of_further.
Qed.

(** One round of the validation loop: the answer is tested, and if it is
    rejected another is asked for.  The test reads nothing, returns on
    plain answers only, and raises on the others; asking again takes a
    line.  The lines taken so far are plain, up to the answer under
    test. *)
Lemma wp_round invalid again answer (V : string → Prop) (k : string → M R string) w0 w :
  reads w0 w → (∃ read, stdin w0 = read ++ answer :: stdin w ∧ Forall plain read) →
  (∀ s w, wp (invalid s) (λ b w', writes w w' ∧ plain s ∧ (b = false → V s))
             (bad_digits s w) w) →
  (∀ w, wp again (λ s w', stdin w = s :: stdin w' ∧ reads w w') (no_line w) w) →
  (∀ s w', reads w0 w' → (length (stdin w') < length (stdin w))%nat →
           (∃ read, stdin w0 = read ++ s :: stdin w' ∧ Forall plain read) →
           wp (k s) (λ s w', V s ∧ asked w0 w') (input_exn w0) w') →
  wp (bad <- invalid answer ;; if bad : bool then answer' <- again ;; k answer'
                               else ret answer)
     (λ s w', V s ∧ asked w0 w') (input_exn w0) w.
Proof.
  intros Hr (read & Hread & Hplain) Hinv Hagain Hk. apply wp_bind.
  eapply wp_mono; [apply Hinv| |]; simpl.
  2:{ intros e w1 (-> & ? & Hin). right. split; [done|].
      exists read, answer. by rewrite Hin. }
  intros b w1 (Hw & Hanswer & HV). pose proof (proj1 Hw) as Hin.
  assert (Forall plain (read ++ [answer])) as Hplain1
    by (apply Forall_app; split; [done|by apply Forall_singleton]).
  assert (stdin w0 = (read ++ [answer]) ++ stdin w1) as Hread1
    by by rewrite <- app_assoc, Hin.
  assert (reads w0 w1) as Hr1 by by etrans; [|apply writes_reads].
  destruct b; [apply wp_bind; (eapply wp_mono; [apply Hagain| |]); simpl|].
  - intros s w2 [Hin2 Hr2]. apply Hk.
    + by etrans.
    + rewrite <- Hin, Hin2. simpl. lia.
    + exists (read ++ [answer]). by rewrite Hread1, Hin2.
  - intros e w2 (-> & Hnil & Hnil2). left. split; [done|]. split; [|done].
    exists (read ++ [answer]). split; [by rewrite Hnil2, Hread1, Hnil|done].
  - apply wp_ret. split; [by apply HV|]. split_and!; [done|by exists (read ++ [answer])|].
    rewrite Hread1, length_app, length_app. simpl. lia.
Qed.

(** The validation loop: the number of lines left is fuel enough; the
    answer returned passed the test, and the loop fails at the end of the
    input or on the first answer that is not plain. *)
Lemma wp_while_invalid fuel invalid again answer (V : string → Prop) w0 w :
  (length (stdin w) ≤ fuel)%nat → reads w0 w →
  (∃ read, stdin w0 = read ++ answer :: stdin w ∧ Forall plain read) →
  (∀ s w, wp (invalid s) (λ b w', writes w w' ∧ plain s ∧ (b = false → V s))
             (bad_digits s w) w) →
  (∀ w, wp again (λ s w', stdin w = s :: stdin w' ∧ reads w w') (no_line w) w) →
  wp (while_invalid fuel invalid again answer) (λ s w', V s ∧ asked w0 w')
     (input_exn w0) w.
Proof.
  intros Hfuel Hr Hread Hinv Hagain. revert answer w Hfuel Hr Hread.
  induction fuel as [|fuel IH]; intros answer w Hfuel Hr Hread; simpl;
    apply wp_round; try done; intros s w' Hr' Hlt Hread'; [lia|].
  apply IH; [lia|done..].
Qed.

(** Asking once and then again while the answer is rejected, as the three
    functions that ask the human do, maybe after writing: with the lines
    of the input as fuel, the rest of the function runs on an answer that
    passed the test, after at least one line was taken. *)
Lemma wp_ask {B} prompt fuel invalid again (V : string → Prop) (k : string → M R B)
    (Q : B → World R → Prop) w0 w :
  writes w0 w → (length (stdin w) ≤ fuel)%nat →
  (∀ s w, wp (invalid s) (λ b w', writes w w' ∧ plain s ∧ (b = false → V s))
             (bad_digits s w) w) →
  (∀ w, wp again (λ s w', stdin w = s :: stdin w' ∧ reads w w') (no_line w) w) →
  (∀ s w', V s → asked w0 w' → wp (k s) Q (input_exn w0) w') →
  wp (answer <- input prompt ;; answer <- while_invalid fuel invalid again answer ;; k answer)
     Q (input_exn w0) w.
Proof.
  intros Hw Hfuel Hinv Hagain Hk. pose proof (proj1 Hw) as Hin0. apply wp_bind.
  eapply wp_mono; [apply wp_input_line| |]; simpl.
  - intros line w1 [Hin Hr]. apply wp_bind.
    eapply wp_post; [apply (wp_while_invalid _ _ _ _ V w0)|]; try done.
    + rewrite Hin in Hfuel. simpl in Hfuel. lia.
    + by etrans; [apply writes_reads|].
    + exists []. by rewrite <- Hin0, Hin.
    + simpl. intros s w2 [? ?]. by apply Hk.
  - intros e w' (-> & Hnil & Hnil'). left. split; [done|]. split; [|done].
    apply took_same. by rewrite Hnil', <- Hin0, Hnil.
Qed.

End rules.
