(* ===== verification/Replay.v ===== *)
(** * Replay: what a computation depends on

    A function of the program sees the world only through [input],
    [print] and [random.randint]: what it does is determined by the lines
    it takes from standard input and by the random source, and by nothing
    else.  [replays f] says so of the family of computations [f]: a run
    that has [settled], that is, returned or raised something other than
    [EOFError], took some lines from the front of standard input and
    added some chunks to standard output, and is repeated, with the same
    result, by every run that finds these lines at the front of standard
    input and starts from the same state of the random source, whatever
    follows these lines, whatever was written before, and whatever the
    fuel, provided it is at least the number of lines taken.  The index of
    the family is the fuel of a validation loop; a function without such
    a loop is a constant family.

    This is the determinism that Section 8 of the specification asks for,
    and it shows that the fuel of the model does not leak into the
    results: the validation loops take as fuel the number of lines left on
    standard input, and a run does not depend on the lines it leaves
    unread.  The rules follow the structure of the monad; the tactic
    [replays_tac] applies them, and the hint database [replays] holds the
    lemmas of the functions already treated. *)

From S2P Require Import Prelude PyRuntime Wp.

Create HintDb replays discriminated.

(** An outcome that does not depend on where the input ends. *)
Definition settled {A} (o : outcome A) : Prop :=
  match o with
  | Ret _ => True
  | Raise e => e ≠ EOFError
  | OutOfFuel => False
  end.

(** The run of [f fuel] in [w], if it has settled, can be replayed. *)
Definition replays_run {R A} (f : nat → M R A) (fuel : nat) (w : World R) : Prop :=
  ∀ o w', f fuel w = (o, w') → settled o →
    ∃ taken new,
      stdin w = taken ++ stdin w' ∧ stdout w' = stdout w ++ new
      ∧ ∀ fuel' rest out, (length taken ≤ fuel')%nat →
          f fuel' (mkWorld (taken ++ rest) out (rand w))
          = (o, mkWorld rest (out ++ new) (rand w')).

Definition replays {R A} (f : nat → M R A) : Prop := ∀ fuel w, replays_run f fuel w.

(** A computation that takes a line when it returns. *)
Definition asks {R A} (m : M R A) : Prop :=
  ∀ w a w', m w = (Ret a, w') → (length (stdin w') < length (stdin w))%nat.

#[export] Instance settled_dec {A} (o : outcome A) : Decision (settled o).
Proof. destruct o as [a|e|]; simpl; [apply _|apply not_dec; solve_decision|apply _]. Defined.

Section rules.
Context {R : Type} `{!RandomSource R}.
Implicit Types (w : World R) (fuel : nat).

(** ** The primitives *)

(** A computation that takes no line and does the same whatever standard
    input holds and whatever was written. *)
Lemma replays_intro {A} (m : M R A) :
  (∀ w, ∃ o new r', ∀ i out, m (mkWorld i out (rand w)) = (o, mkWorld i (out ++ new) r')) →
  replays (λ _, m).
Proof.
  intros Hm _ [i out r] o w' Hrun _. destruct (Hm (mkWorld i out r)) as (o' & new & r' & E).
  simpl in E. rewrite E in Hrun. simplify_eq. exists [], new. by split_and!.
Qed.

Lemma replays_ret {A} (a : A) : replays (λ _, ret (R := R) a).
Proof.
  apply replays_intro. intros w. exists (Ret a), [], (rand w). intros i out.
  unfold ret. by rewrite app_nil_r.
Qed.

Lemma replays_lift {A} (o : outcome A) : replays (λ _, lift (R := R) o).
Proof.
  apply replays_intro. intros w. exists o, [], (rand w). intros i out.
  unfold lift. by rewrite app_nil_r.
Qed.

Lemma replays_print s : replays (λ _, print (R := R) s).
Proof. apply replays_intro. intros w. by exists (Ret tt), [s +:+ nl], (rand w). Qed.

Lemma replays_randint a b : replays (λ _, randint (R := R) a b).
Proof.
  apply replays_intro. intros w. unfold randint. case_decide.
  - exists (Ret (draw a b (rand w)).1), [], (draw a b (rand w)).2. intros i out.
    simpl. by rewrite app_nil_r.
  - exists (Raise ValueError), [], (rand w). intros i out. by rewrite app_nil_r.
Qed.

(** [input] takes one line; at the end of the input its run has not
    settled. *)
Lemma replays_input prompt : replays (λ _, input (R := R) prompt).
Proof.
  intros _ [[|line i] out r] o w' Hrun Ho; unfold input in *; simplify_eq/=.
  by exists [line], [prompt].
Qed.

Lemma asks_input prompt : asks (input (R := R) prompt).
Proof. intros [[|line i] out r] a w' E; unfold input in E; simplify_eq/=. lia. Qed.

Lemma asks_lift_bind {A B} (o : outcome A) (k : A → M R B) :
  (∀ a, asks (k a)) → asks (bind (lift o) k).
Proof. intros Hk w b w' E. unfold bind, lift in E. destruct o; simplify_eq. by eapply Hk. Qed.

(** ** Sequencing *)

Lemma replays_run_ext {A} (f g : nat → M R A) fuel w :
  (∀ fuel w, f fuel w = g fuel w) → replays_run g fuel w → replays_run f fuel w.
Proof.
  intros Hfg Hg o w' Hrun Ho. rewrite Hfg in Hrun.
  destruct (Hg o w' Hrun Ho) as (t & n & ? & ? & Hre). exists t, n.
  split_and!; [done..|]. intros. rewrite Hfg. by apply Hre.
Qed.

Lemma replays_run_bind {A B} (f : nat → M R A) (g : nat → A → M R B) fuel w :
  replays_run f fuel w →
  (∀ a w1, replays_run (λ fuel, g fuel a) fuel w1) →
  replays_run (λ fuel, bind (f fuel) (g fuel)) fuel w.
Proof.
  intros Hf Hg o w' Hrun Ho. unfold bind in Hrun.
  destruct (f fuel w) as [[a| |] w1] eqn:E1; simplify_eq; [| |done].
  - destruct (Hf _ _ E1 I) as (t1 & n1 & Hin1 & Hout1 & Hre1).
    destruct (Hg a _ _ _ Hrun Ho) as (t2 & n2 & Hin2 & Hout2 & Hre2).
    exists (t1 ++ t2), (n1 ++ n2). rewrite Hin1, Hin2, Hout2, Hout1, !app_assoc.
    split_and!; [done..|]. intros fuel' rest out Hfuel. rewrite length_app in Hfuel.
    unfold bind. rewrite <- app_assoc, Hre1 by lia. cbn. rewrite Hre2 by lia.
    by rewrite <- app_assoc.
  - destruct (Hf _ _ E1 Ho) as (t1 & n1 & Hin1 & Hout1 & Hre1).
    exists t1, n1. split_and!; [done..|]. intros fuel' rest out Hfuel.
    unfold bind. by rewrite Hre1.
Qed.

Lemma replays_bind {A B} (f : nat → M R A) (g : nat → A → M R B) :
  replays f → (∀ a, replays (λ fuel, g fuel a)) → replays (λ fuel, bind (f fuel) (g fuel)).
Proof. intros Hf Hg fuel w. apply replays_run_bind; [apply Hf|]. intros a w1. apply Hg. Qed.

Lemma replays_for_each {A} (range : list A) (body : A → M R unit) :
  (∀ i, replays (λ _, body i)) → replays (λ _, for_each range body).
Proof.
  intros Hbody. induction range as [|i range IH]; simpl; [apply replays_ret|].
  apply replays_bind; auto.
Qed.

(** ** The validation loop *)

(** Asking again and going round a loop: the line that asking takes pays
    for the round. *)
Lemma replays_run_round {A} (again : M R string) (loop : nat → string → M R A) fuel w :
  replays (λ _, again) → asks again →
  (∀ fuel0 answer w1, fuel = S fuel0 → replays_run (λ fuel, loop fuel answer) fuel0 w1) →
  replays_run (λ fuel, answer <- again ;;
                 match fuel with O => lift OutOfFuel | S fuel0 => loop fuel0 answer end)
    fuel w.
Proof.
  intros Hagain Hasks Hloop o w' Hrun Ho. unfold bind in Hrun.
  destruct (again w) as [[a| |] w1] eqn:E1; simplify_eq; [| |done].
  - destruct (Hagain 0%nat _ _ _ E1 I) as (t1 & n1 & Hin1 & Hout1 & Hre1).
    pose proof (Hasks _ _ _ E1) as Hlt. rewrite Hin1, length_app in Hlt.
    destruct fuel as [|fuel0]; [by unfold lift in Hrun; simplify_eq|].
    destruct (Hloop fuel0 a w1 eq_refl _ _ Hrun Ho) as (t2 & n2 & Hin2 & Hout2 & Hre2).
    exists (t1 ++ t2), (n1 ++ n2). rewrite Hin1, Hin2, Hout2, Hout1, !app_assoc.
    split_and!; [done..|]. intros fuel' rest out Hfuel. rewrite length_app in Hfuel.
    destruct fuel' as [|fuel']; [exfalso; lia|].
    unfold bind. rewrite <- app_assoc, (Hre1 (length t1)) by lia. cbn.
    rewrite Hre2 by lia. by rewrite <- app_assoc.
  - destruct (Hagain 0%nat _ _ _ E1 Ho) as (t1 & n1 & Hin1 & Hout1 & Hre1).
    exists t1, n1. split_and!; [done..|]. intros fuel' rest out Hfuel.
    unfold bind. by rewrite (Hre1 (length t1)).
Qed.

(** One round of the validation loop, whatever the fuel. *)
Lemma while_invalid_unfold (invalid : string → M R bool) (again : M R string) answer fuel :
  while_invalid fuel invalid again answer
  = (bad <- invalid answer ;;
     if bad : bool then
       answer' <- again ;;
       match fuel with
       | O => lift OutOfFuel
       | S fuel' => while_invalid fuel' invalid again answer'
       end
     else ret answer).
Proof. by destruct fuel. Qed.

(** The validation loop: a run that has settled is replayed with any
    fuel that is at least the number of lines it took. *)
Lemma replays_while_invalid (invalid : string → M R bool) (again : M R string) answer :
  (∀ s, replays (λ _, invalid s)) → replays (λ _, again) → asks again →
  replays (λ fuel, while_invalid fuel invalid again answer).
Proof.
  intros Hinv Hagain Hasks fuel. revert answer.
  induction fuel as [|fuel IH]; intros answer w.
  all: eapply replays_run_ext; [intros fuel1 w1; by rewrite while_invalid_unfold|].
  all: apply replays_run_bind; [apply Hinv|]; intros [|] w1; [|apply replays_ret].
  all: apply replays_run_round; [done..|]; intros fuel0 answer' w2 Hfuel; simplify_eq.
  apply IH.
Qed.

(** The fuel of a validation loop may be the number of lines left. *)
Lemma replays_stdin_fuel {A} (m : M R A) (f : nat → M R A) :
  (∀ w, m w = f (length (stdin w)) w) → replays f → replays (λ _, m).
Proof.
  intros Hm Hf _ w o w' Hrun Ho. rewrite Hm in Hrun.
  destruct (Hf _ _ _ _ Hrun Ho) as (t & n & ? & ? & Hre).
  exists t, n. split_and!; [done..|]. intros _ rest out _. rewrite Hm. apply Hre. simpl.
  rewrite length_app. lia.
Qed.

(** ** Replaying *)

(** A run that took no line because there was none is the run on every
    standard input. *)
Lemma replays_nil {A} (m : M R A) out r o w' i :
  replays (λ _, m) → m (mkWorld [] out r) = (o, w') → settled o →
  m (mkWorld i out r) = (o, mkWorld i (stdout w') (rand w')).
Proof.
  intros Hm Hrun Ho. destruct (Hm 0%nat _ _ _ Hrun Ho) as (t & n & Hin & Hout & Hre).
  simpl in *. symmetry in Hin. apply app_eq_nil in Hin as [-> _].
  rewrite Hout. by apply (Hre 0%nat).
Qed.

End rules.

(** [stdin_fuel] reads off a function that takes the number of lines left
    as the fuel of its loop the family of computations indexed by the
    fuel. *)
Ltac stdin_fuel :=
  eapply replays_stdin_fuel;
  [ let w := fresh "w" in
    intros w;
    lazymatch goal with
    | |- ?m w = _ =>
        lazymatch eval pattern (length (stdin w)) in m with
        | ?f _ => exact (eq_refl (f (length (stdin w)) w))
        end
    end
  | ].

(** [replays_tac] proves [replays] of a computation built from the
    primitives, the loops, conditionals, matches and functions whose
    lemmas are in the database [replays]. *)
Ltac replays_tac :=
  repeat first
    [ progress intros
    | progress cbv zeta
    | solve [eauto with replays]
    | apply replays_bind | apply replays_ret | apply replays_lift | apply replays_print
    | apply replays_randint | apply replays_input | apply replays_for_each
    | apply replays_while_invalid | apply asks_input | apply asks_lift_bind
    | match goal with
      | |- replays (λ _, if ?b then _ else _) => destruct b
      | |- replays (λ _, match ?x with _ => _ end) => destruct x
      end ].
