(* ===== verification/Quiet.v ===== *)
(** * Quiet: runs that draw no random number

    The program draws random numbers in three places: the sizes of the
    heaps and the trigger of the mistake, in [setup_game], and the move of
    [choose_random], to which [play_correctly] and [make_mistake] fall
    back.  [quiet m w] says that the run of [m] in the world [w] leaves
    the random source as it found it, however the run ends: by returning,
    by raising, at the end of the input or in the middle of it.  The rules
    follow the structure of the monad; the rule of [bind] gives the
    continuation the run of the first part, so that a function is quiet
    in the states in which it does not reach [random.randint].  The tactic
    [quiet_tac] applies the rules, and the hint database [quiet] holds the
    lemmas of the functions already treated. *)

From S2P Require Import Prelude PyRuntime Wp.

Create HintDb quiet discriminated.

(** The run of [m] in [w] leaves the random source as it is. *)
Definition quiet {R A} (m : M R A) (w : World R) : Prop := rand (m w).2 = rand w.

Section rules.
Context {R : Type} `{!RandomSource R}.
Implicit Types (w : World R).

Lemma quiet_ret {A} (a : A) w : quiet (ret a) w.
Proof. done. Qed.

Lemma quiet_lift {A} (o : outcome A) w : quiet (lift o) w.
Proof. done. Qed.

Lemma quiet_print s w : quiet (print s) w.
Proof. done. Qed.

Lemma quiet_input prompt w : quiet (input prompt) w.
Proof. unfold quiet, input. by destruct (stdin w). Qed.

(** The second part of a sequence is run in the world, and on the value,
    that the first part returns. *)
Lemma quiet_bind {A B} (m : M R A) (k : A → M R B) w :
  quiet m w → (∀ a w1, m w = (Ret a, w1) → quiet (k a) w1) → quiet (bind m k) w.
Proof.
  unfold quiet, bind. intros Hm Hk. destruct (m w) as [[a| |] w1]; [|done..].
  by rewrite (Hk a w1 eq_refl).
Qed.

Lemma quiet_for_each {A} (range : list A) (body : A → M R unit) w :
  (∀ i w1, quiet (body i) w1) → quiet (for_each range body) w.
Proof.
  intros Hbody. revert w. induction range as [|i range IH]; intros w; simpl.
  - apply quiet_ret.
  - apply quiet_bind; auto.
Qed.

Lemma quiet_while_invalid fuel (invalid : string → M R bool) (again : M R string)
    answer w :
  (∀ s w1, quiet (invalid s) w1) → (∀ w1, quiet again w1) →
  quiet (while_invalid fuel invalid again answer) w.
Proof.
  intros Hinvalid Hagain. revert answer w.
  induction fuel as [|fuel IH]; intros answer w; simpl;
    (apply quiet_bind; [done|]); intros [|] w1 _; try apply quiet_ret;
    (apply quiet_bind; [done|]); intros answer' w2 _; [apply quiet_lift|apply IH].
Qed.

(** What a quiet run means for the world it ends in. *)
Lemma quiet_run {A} (m : M R A) w o w' : quiet m w → m w = (o, w') → rand w' = rand w.
Proof. unfold quiet. intros Hm E. by rewrite E in Hm. Qed.

(** After a first part that returns, a quiet second part leaves the
    random source of the first. *)
Lemma quiet_after {A B} (m : M R A) (k : A → M R B) w :
  (∀ a w1, m w = (Ret a, w1) → quiet (k a) w1) → rand (bind m k w).2 = rand (m w).2.
Proof.
  unfold quiet, bind. intros Hk. destruct (m w) as [[a| |] w1]; [|done..].
  by apply Hk.
Qed.

End rules.

(** [quiet_tac] proves [quiet] of a computation built from the primitives
    other than [randint], the loops, conditionals, matches and functions
    whose lemmas are in the database [quiet]. *)
Ltac quiet_tac :=
  repeat first
    [ progress intros
    | progress cbv zeta
    | solve [eauto with quiet]
    | apply quiet_bind | apply quiet_ret | apply quiet_lift | apply quiet_print
    | apply quiet_input | apply quiet_for_each | apply quiet_while_invalid
    | match goal with
      | |- quiet (if ?b then _ else _) _ => destruct b
      | |- quiet (match ?x with _ => _ end) _ => destruct x
      end ].
