(* ===== verification/NimSum.v ===== *)
(** * NimSum: the nimm-sum of a list of heaps

    The nimm-sum is the XOR of all heap sizes.  This file holds the
    reference definition [nim_sum] and the facts the strategy rests on:
    how the nimm-sum changes when one heap changes, that a nonzero
    nimm-sum of heaps that are not negative can always be cancelled by
    lowering one heap, and that every change of one heap leaves a zero
    nimm-sum nonzero.  [moved] relates the positions one legal move
    apart.  Nothing here has effects. *)

From S2P Require Import Prelude PyRuntime.

(** ** Definitions *)

(** The XOR of all heaps. *)
Definition nim_sum (heaps : list Z) : Z := foldr Z.lxor 0 heaps.
Arguments nim_sum : simpl never.

(** A heap qualifies when XOR with the nimm-sum lowers it. *)
Definition qualifies (s x : Z) : Prop := x ⊻ s < x.

(** Heaps are well formed when none is negative. *)
Definition heaps_ok (heaps : list Z) : Prop := Forall (λ x, 0 ≤ x) heaps.

(** A legal move takes between one stone and the whole heap. *)
Definition legal_move (heaps : list Z) (heap : nat) (stones_taken : Z) : Prop :=
  ∃ x, heaps !! heap = Some x ∧ 1 ≤ stones_taken ≤ x.

(** The heaps after a move. *)
Definition apply_move (heaps : list Z) (heap : nat) (stones_taken : Z) : list Z :=
  match heaps !! heap with
  | Some x => <[heap := x - stones_taken]> heaps
  | None => heaps
  end.

(** [heaps'] is [heaps] after one legal move. *)
Definition moved (heaps heaps' : list Z) : Prop :=
  ∃ heap stones_taken,
    legal_move heaps heap stones_taken ∧ heaps' = apply_move heaps heap stones_taken.

#[export] Instance qualifies_dec s x : Decision (qualifies s x).
Proof. unfold qualifies. apply _. Defined.

#[export] Instance heaps_ok_dec heaps : Decision (heaps_ok heaps).
Proof. unfold heaps_ok. apply _. Defined.

(** ** The nimm-sum under list operations *)

Section nim_sum.
Implicit Types (heaps l : list Z) (x y s : Z) (i : nat).

Lemma nim_sum_nil : nim_sum [] = 0.
Proof. done. Qed.

Lemma nim_sum_cons x l : nim_sum (x :: l) = x ⊻ nim_sum l.
Proof. done. Qed.

Lemma nim_sum_singleton x : nim_sum [x] = x.
Proof. by rewrite nim_sum_cons, nim_sum_nil, Z.lxor_0_r. Qed.

Lemma nim_sum_nonneg l : heaps_ok l → 0 ≤ nim_sum l.
Proof. induction 1; [done|]. rewrite nim_sum_cons. auto with nim. Qed.

Lemma nim_sum_zeros l : Forall (λ x, x = 0) l → nim_sum l = 0.
Proof. induction 1 as [|x l -> _ IH]; [done|]. by rewrite nim_sum_cons, IH. Qed.

(** Replacing heap [i], of size [x], by [y]. *)
Lemma nim_sum_insert l i x y :
  l !! i = Some x → nim_sum (<[i:=y]> l) = nim_sum l ⊻ x ⊻ y.
Proof.
  revert i. induction l as [|z l IH]; intros [|i] Hi; simplify_eq/=.
  - rewrite !nim_sum_cons. by rewrite (Z.lxor_comm x (nim_sum l)), lxor_cancel_r, Z.lxor_comm.
  - rewrite !nim_sum_cons, (IH i) by done. by rewrite !Z.lxor_assoc.
Qed.

(** Lowering a heap to its XOR with the nimm-sum cancels the nimm-sum. *)
Lemma nim_sum_insert_target l i x :
  l !! i = Some x → nim_sum (<[i := x ⊻ nim_sum l]> l) = 0.
Proof.
  intros Hi. rewrite (nim_sum_insert l i x) by done.
  by rewrite (Z.lxor_comm x (nim_sum l)), Z.lxor_nilpotent.
Qed.

(** Any other new size leaves the nimm-sum different from zero. *)
Lemma nim_sum_insert_neq l i x y :
  l !! i = Some x → y ≠ x ⊻ nim_sum l → nim_sum (<[i:=y]> l) ≠ 0.
Proof.
  intros Hi Hy. rewrite (nim_sum_insert l i x) by done.
  intros H0. apply Z.lxor_eq in H0. apply Hy. by rewrite Z.lxor_comm.
Qed.

(** From a zero nimm-sum every change of one heap gives a nonzero one. *)
Lemma nim_sum_insert_from_zero l i x y :
  nim_sum l = 0 → l !! i = Some x → y ≠ x → nim_sum (<[i:=y]> l) ≠ 0.
Proof.
  intros H0 Hi Hy. apply (nim_sum_insert_neq l i x); [done|].
  by rewrite H0, Z.lxor_0_r.
Qed.

(** A bit of the nimm-sum is a bit of some heap. *)
Lemma nim_sum_testbit l d :
  Z.testbit (nim_sum l) d = true → ∃ i x, l !! i = Some x ∧ Z.testbit x d = true.
Proof.
  induction l as [|z l IH]; [by rewrite nim_sum_nil, Z.testbit_0_l|].
  rewrite nim_sum_cons, Z.lxor_spec. destruct (Z.testbit z d) eqn:Hz.
  - intros _. by exists 0%nat, z.
  - rewrite xorb_false_l. intros (i & x & ? & ?)%IH. by exists (S i), x.
Qed.

(** A nonzero nimm-sum of heaps that are not negative has a qualifying
    heap: the winning move exists. *)
Lemma exists_qualifying l :
  heaps_ok l → nim_sum l ≠ 0 →
  ∃ i x, l !! i = Some x ∧ qualifies (nim_sum l) x.
Proof.
  intros Hok Hs. pose proof (nim_sum_nonneg l Hok).
  destruct (nim_sum_testbit l (Z.log2 (nim_sum l))) as (i & x & Hi & Hx).
  { apply Z.bit_log2. lia. }
  exists i, x. split; [done|]. apply lxor_lt_top_bit; [lia|done].
Qed.

(** With a zero nimm-sum no heap qualifies. *)
Lemma qualifies_zero x : ¬ qualifies 0 x.
Proof. unfold qualifies. rewrite Z.lxor_0_r. lia. Qed.

(** Heaps with a nonzero nimm-sum hold a stone. *)
Lemma nim_sum_neq_0_sum_pos l : heaps_ok l → nim_sum l ≠ 0 → 0 < py_sum l.
Proof.
  intros Hok Hs. pose proof (py_sum_nonneg l Hok).
  destruct (decide (py_sum l = 0)) as [H0|]; [|lia].
  destruct Hs. by apply nim_sum_zeros, py_sum_0_all.
Qed.

(** The nimm-sum of heaps of at most one stone is zero or one. *)
Lemma nim_sum_bits l :
  heaps_ok l → Forall (λ x, x ≤ 1) l → nim_sum l = 0 ∨ nim_sum l = 1.
Proof.
  induction 1 as [|x l Hx _ IH]; [by left|]. intros [Hx1 Hl]%Forall_cons_1.
  rewrite nim_sum_cons. assert (x = 0 ∨ x = 1) as [->| ->] by lia;
    destruct (IH Hl) as [-> | ->]; auto.
Qed.

End nim_sum.

(** ** Moves *)

Section moves.
Implicit Types (heaps : list Z) (heap : nat) (stones_taken : Z).

Lemma apply_move_length heaps heap stones_taken :
  length (apply_move heaps heap stones_taken) = length heaps.
Proof. unfold apply_move. case_match; by rewrite ?length_insert. Qed.

Lemma apply_move_ok heaps heap stones_taken :
  heaps_ok heaps → legal_move heaps heap stones_taken →
  heaps_ok (apply_move heaps heap stones_taken).
Proof.
  intros Hok (x & Hx & ?). unfold apply_move. rewrite Hx.
  apply Forall_insert; [done|lia].
Qed.

Lemma apply_move_sum heaps heap stones_taken x :
  heaps !! heap = Some x →
  py_sum (apply_move heaps heap stones_taken) = py_sum heaps - stones_taken.
Proof.
  intros Hx. unfold apply_move. rewrite Hx, (py_sum_insert _ _ x) by done. lia.
Qed.

(** The winning move: from the heap [x] take [x - x ⊻ s]. *)
Lemma winning_move_legal heaps heap x :
  heaps_ok heaps → heaps !! heap = Some x → qualifies (nim_sum heaps) x →
  legal_move heaps heap (x - x ⊻ nim_sum heaps).
Proof.
  intros Hok Hx Hq. exists x. split; [done|].
  apply lxor_lt_removal; [|by apply nim_sum_nonneg|done].
  by apply (Forall_lookup_1 _ _ _ _ Hok Hx).
Qed.

Lemma winning_move_zero heaps heap x :
  heaps !! heap = Some x →
  nim_sum (apply_move heaps heap (x - x ⊻ nim_sum heaps)) = 0.
Proof.
  intros Hx. unfold apply_move. rewrite Hx.
  replace (x - (x - x ⊻ nim_sum heaps)) with (x ⊻ nim_sum heaps) by lia.
  by apply nim_sum_insert_target.
Qed.

(** A legal move from a zero nimm-sum leaves it nonzero. *)
Lemma legal_move_from_zero heaps heap stones_taken :
  nim_sum heaps = 0 → legal_move heaps heap stones_taken →
  nim_sum (apply_move heaps heap stones_taken) ≠ 0.
Proof.
  intros H0 (x & Hx & ?). unfold apply_move. rewrite Hx.
  apply (nim_sum_insert_from_zero _ _ x); [done..|lia].
Qed.

(** Heaps that hold a stone have a heap that holds one. *)
Lemma exists_stone heaps :
  0 < py_sum heaps → ∃ heap x, heaps !! heap = Some x ∧ 0 < x.
Proof.
  intros Hsum. destruct (decide (Forall (λ x, x ≤ 0) heaps)) as [H0|Hsome].
  { apply py_sum_nonpos in H0. lia. }
  apply not_Forall_Exists in Hsome; [|apply _].
  apply list.Exists_exists in Hsome as (x & [i Hi]%list_elem_of_lookup & ?).
  exists i, x. split; [done|simpl in *; lia].
Qed.

(** Heaps of which one holds more than one stone hold a stone. *)
Lemma Exists_sum_pos heaps : heaps_ok heaps → Exists (λ x, 1 < x) heaps → 0 < py_sum heaps.
Proof.
  intros Hok (x & [i Hi]%list_elem_of_lookup & ?)%list.Exists_exists.
  pose proof (py_sum_lookup_le heaps i x Hok Hi). lia.
Qed.

(** While stones are left there is a legal move that cancels a nonzero
    nimm-sum. *)
Lemma exists_right_move heaps :
  heaps_ok heaps → 0 < py_sum heaps →
  ∃ heap stones_taken,
    legal_move heaps heap stones_taken
    ∧ (nim_sum heaps ≠ 0 → nim_sum (apply_move heaps heap stones_taken) = 0).
Proof.
  intros Hok Hsum. destruct (decide (nim_sum heaps = 0)) as [Hs|Hs].
  - destruct (exists_stone heaps Hsum) as (i & x & Hi & ?).
    exists i, 1. split; [|done]. exists x. split; [done|lia].
  - destruct (exists_qualifying heaps Hok Hs) as (i & x & Hi & Hq).
    exists i, (x - x ⊻ nim_sum heaps).
    split; [by apply winning_move_legal|by intros; apply winning_move_zero].
Qed.

(** ... and a legal move that leaves the nimm-sum nonzero, if some heap
    holds more than one stone. *)
Lemma exists_wrong_move heaps :
  0 < py_sum heaps →
  ∃ heap stones_taken,
    legal_move heaps heap stones_taken
    ∧ (Exists (λ x, 1 < x) heaps → nim_sum (apply_move heaps heap stones_taken) ≠ 0).
Proof.
  intros Hsum. destruct (decide (Exists (λ x, 1 < x) heaps)) as [Hbig|Hsmall].
  - apply list.Exists_exists in Hbig as (x & [i Hi]%list_elem_of_lookup & ?).
    exists i, (if decide (x - 1 = x ⊻ nim_sum heaps) then 2 else 1).
    split; [exists x; split; [done|case_decide; lia]|]. intros _.
    unfold apply_move. rewrite Hi. apply (nim_sum_insert_neq _ _ x); [done|].
    case_decide; lia.
  - destruct (exists_stone heaps Hsum) as (i & x & Hi & ?).
    exists i, 1. split; [|done]. exists x. split; [done|lia].
Qed.

End moves.

(** ** Positions one move apart *)

Section moved.
Implicit Types (heaps : list Z).

Lemma moved_ok heaps heaps' : heaps_ok heaps → moved heaps heaps' → heaps_ok heaps'.
Proof. intros Hok (heap & k & Hlegal & ->). by apply apply_move_ok. Qed.

Lemma moved_length heaps heaps' : moved heaps heaps' → length heaps' = length heaps.
Proof. intros (heap & k & _ & ->). apply apply_move_length. Qed.

(** Every move takes at least one stone. *)
Lemma moved_sum heaps heaps' : moved heaps heaps' → py_sum heaps' < py_sum heaps.
Proof.
  intros (heap & k & (x & Hx & Hk) & ->). rewrite (apply_move_sum _ _ _ x) by done. lia.
Qed.

Lemma moved_from_zero heaps heaps' :
  nim_sum heaps = 0 → moved heaps heaps' → nim_sum heaps' ≠ 0.
Proof. intros H0 (heap & k & Hlegal & ->). by apply legal_move_from_zero. Qed.

(** From a nonzero nimm-sum some move cancels it. *)
Lemma moved_to_zero heaps :
  heaps_ok heaps → nim_sum heaps ≠ 0 → ∃ heaps', moved heaps heaps' ∧ nim_sum heaps' = 0.
Proof.
  intros Hok Hs.
  destruct (exists_right_move heaps Hok) as (heap & k & Hlegal & Hzero);
    [by apply nim_sum_neq_0_sum_pos|].
  exists (apply_move heaps heap k). split; [by exists heap, k|auto].
Qed.

End moved.

(** ** The order of the heaps *)

(** The number of stones, the nimm-sum and the invariant of the heaps do
    not depend on the order of the heaps: they are morphisms for
    permutation, so that a permutation rewrites under them. *)
#[export] Instance py_sum_perm : Proper ((≡ₚ) ==> (=)) py_sum.
Proof.
  induction 1 as [|x l l' _ IH|x y l|l l' l'' _ IH1 _ IH2];
    rewrite ?py_sum_cons; [done|by rewrite IH|lia|congruence].
Qed.

#[export] Instance nim_sum_perm : Proper ((≡ₚ) ==> (=)) nim_sum.
Proof.
  induction 1 as [|x l l' _ IH|x y l|l l' l'' _ IH1 _ IH2];
    rewrite ?nim_sum_cons; [done|by rewrite IH| |congruence].
  by rewrite <- !Z.lxor_assoc, (Z.lxor_comm x y).
Qed.

#[export] Instance heaps_ok_perm : Proper ((≡ₚ) ==> iff) heaps_ok.
Proof. unfold heaps_ok. solve_proper. Qed.

#[export] Hint Resolve nim_sum_nonneg apply_move_ok winning_move_legal : nim.
#[export] Hint Rewrite nim_sum_nil nim_sum_cons apply_move_length : nim.
