(* ===== verification/Config.v ===== *)
(** * Config: the constants of the program

    The module-level constants of src/unbeatable.py, as a class so that
    the decision functions and their theorems hold for every choice of
    them; [source_config] holds the values the source assigns.  The two
    fractions are binary64 floating-point numbers, as in Python:
    [ERROR_MIN = .3] is the double nearest to 3/10. *)

From S2P Require Import Prelude PyRuntime.

Class Config : Type := {
  N_HEAPS : nat;
  RANDOM_HEAPS : bool;
  HEAP_MIN : Z;
  HEAP_MAX : Z;
  DEFAULT_HEAP : Z;
  CPU_PLAYER : Z;
  ERROR_MIN : spec_float;
  ERROR_MAX : spec_float
}.

Definition source_config : Config := {|
  N_HEAPS := 3;
  RANDOM_HEAPS := true;
  HEAP_MIN := 15;
  HEAP_MAX := 25;
  DEFAULT_HEAP := 20;
  CPU_PLAYER := 1;
  ERROR_MIN := S754_finite false 5404319552844595 (-54);
  ERROR_MAX := S754_finite false 6305039478318694 (-53)
|}.

(** What the comments of the source ask of the constants: at least one
    heap, heap sizes that are not negative and a range that is not empty,
    and a computer player that is player 1 or player 2. *)
Record config_ok (cfg : Config) : Prop := {
  N_HEAPS_pos : (1 ≤ N_HEAPS)%nat;
  HEAP_MIN_nonneg : 0 ≤ HEAP_MIN;
  HEAP_MIN_MAX : HEAP_MIN ≤ HEAP_MAX;
  DEFAULT_HEAP_nonneg : 0 ≤ DEFAULT_HEAP;
  CPU_PLAYER_12 : CPU_PLAYER = 1 ∨ CPU_PLAYER = 2
}.

Lemma source_config_ok : config_ok source_config.
Proof. split; simpl; lia. Qed.
