(* ===== verification/Engine.v ===== *)
(** * Engine: the decision functions of the computer

    [play_correctly], [make_mistake], [choose_random] and [cpu_losing] of
    src/unbeatable.py, statement by statement.  The three copies of the
    loop that computes the nimm-sum are one definition, [nimm_sum].  The
    [enumerate] loops are recursions on the heaps not yet visited that
    carry the position; their early [return] is the result [Some], and
    falling out of the loop is [None]. *)

From S2P Require Import Prelude PyRuntime Wp Replay Quiet NimSum Config.

Section engine.
Context {cfg : Config} {R : Type} `{!RandomSource R}.

(** [for heap in range(N_HEAPS): nimm_sum = nimm_sum ^ heaps[heap]] *)
Fixpoint nimm_sum_loop (heaps : list Z) (range : list nat) (nimm_sum : Z) : outcome Z :=
  match range with
  | [] => Ret nimm_sum
  | heap :: range' =>
      obind (getitem heaps heap) (λ h, nimm_sum_loop heaps range' (nimm_sum ⊻ h))
  end.

(** [nimm_sum = 0] followed by the loop. *)
Definition nimm_sum (heaps : list Z) : outcome Z :=
  nimm_sum_loop heaps (seq 0 N_HEAPS) 0.

(** [choose_random]: a random number of stones from the largest heap. *)
Definition choose_random (heaps : list Z) : M R (nat * Z) :=
  largest <- lift (py_max heaps) ;;
  heap <- lift (list_index largest heaps) ;;
  heap_size <- lift (getitem heaps heap) ;;
  stones_taken <- randint 1 heap_size ;;
  ret (heap, stones_taken).

(** The second loop of [play_correctly], from position [heap] on. *)
Fixpoint play_correctly_scan (nimm_sum : Z) (heap : nat) (rest : list Z) : option (nat * Z) :=
  match rest with
  | [] => None
  | heap_size :: rest' =>
      let target_size := heap_size ⊻ nimm_sum in
      if decide (target_size < heap_size) then
        let stones_taken := heap_size - target_size in
        Some (heap, stones_taken)
      else play_correctly_scan nimm_sum (S heap) rest'
  end.

Definition play_correctly (heaps : list Z) : M R (nat * Z) :=
  nimm_sum <- lift (nimm_sum heaps) ;;
  match play_correctly_scan nimm_sum 0 heaps with
  | Some move => ret move
  | None => choose_random heaps
  end.

(** The second loop of [make_mistake], from position [heap] on. *)
Fixpoint make_mistake_scan (nimm_sum : Z) (heap : nat) (rest : list Z) : option (nat * Z) :=
  match rest with
  | [] => None
  | heap_size :: rest' =>
      let target_size := heap_size ⊻ nimm_sum in
      if decide (target_size < heap_size) then
        let correct_number_to_remove := heap_size - target_size in
        if decide (correct_number_to_remove > 1) then
          Some (heap, correct_number_to_remove - 1)
        else if decide (correct_number_to_remove < heap_size) then
          Some (heap, correct_number_to_remove + 1)
        else make_mistake_scan nimm_sum (S heap) rest'
      else make_mistake_scan nimm_sum (S heap) rest'
  end.

Definition make_mistake (heaps : list Z) : M R (nat * Z) :=
  nimm_sum <- lift (nimm_sum heaps) ;;
  match make_mistake_scan nimm_sum 0 heaps with
  | Some move => ret move
  | None => choose_random heaps
  end.

(** [cpu_losing]: is the nimm-sum zero? *)
Definition cpu_losing (heaps : list Z) : outcome bool :=
  obind (nimm_sum heaps) (λ nimm_sum, Ret (bool_decide (nimm_sum = 0))).

End engine.

(** The heap [choose_random] takes from: the first of the largest. *)
Definition first_largest (heaps : list Z) (heap : nat) (heap_size : Z) : Prop :=
  heaps !! heap = Some heap_size
  ∧ Forall (λ x, x ≤ heap_size) heaps
  ∧ ∀ j y, (j < heap)%nat → heaps !! j = Some y → y ≠ heap_size.

(** ** The nimm-sum loop *)

Section nimm_sum.
Context {cfg : Config}.
Implicit Types (heaps : list Z) (i n : nat) (a : Z).

Lemma nimm_sum_loop_in_range heaps i n a :
  (i + n ≤ length heaps)%nat →
  nimm_sum_loop heaps (seq i n) a = Ret (a ⊻ nim_sum (take n (drop i heaps))).
Proof.
  revert i a. induction n as [|n IH]; intros i a Hlen; simpl.
  { by rewrite take_0, nim_sum_nil, Z.lxor_0_r. }
  destruct (lookup_lt_is_Some_2 heaps i) as [x Hx]; [lia|].
  rewrite (getitem_lookup _ _ _ Hx). simpl. rewrite IH by lia.
  rewrite (drop_S _ _ _ Hx). simpl. by rewrite nim_sum_cons, Z.lxor_assoc.
Qed.

Lemma nimm_sum_loop_out_of_range heaps i n a :
  (0 < n)%nat → (length heaps < i + n)%nat →
  nimm_sum_loop heaps (seq i n) a = Raise IndexError.
Proof.
  revert i a. induction n as [|n IH]; intros i a Hn Hlen; simpl; [lia|].
  destruct (heaps !! i) as [x|] eqn:Hx.
  - rewrite (getitem_lookup _ _ _ Hx). simpl. apply lookup_lt_Some in Hx.
    apply IH; lia.
  - unfold getitem. by rewrite Hx.
Qed.

(** On a list of [N_HEAPS] heaps the loop computes the nimm-sum. *)
Lemma nimm_sum_run heaps :
  length heaps = N_HEAPS → nimm_sum heaps = Ret (nim_sum heaps).
Proof.
  intros Hlen. unfold nimm_sum. rewrite nimm_sum_loop_in_range by (simpl; lia).
  by rewrite drop_0, <- Hlen, firstn_all, Z.lxor_0_l.
Qed.

Lemma nimm_sum_too_short heaps :
  (length heaps < N_HEAPS)%nat → nimm_sum heaps = Raise IndexError.
Proof. intros. unfold nimm_sum. apply nimm_sum_loop_out_of_range; simpl; lia. Qed.

(** C11: the loop that computes the nimm-sum, on every list: it returns
    the XOR of the first [N_HEAPS] heaps, and raises [IndexError] when
    there are fewer. *)
Theorem nimm_sum_correct heaps :
  nimm_sum heaps =
  if decide (N_HEAPS ≤ length heaps)%nat then Ret (nim_sum (take N_HEAPS heaps))
  else Raise IndexError.
Proof.
  case_decide; [|apply nimm_sum_too_short; lia].
  unfold nimm_sum. rewrite nimm_sum_loop_in_range by (simpl; lia).
  by rewrite drop_0, Z.lxor_0_l.
Qed.

(** On [N_HEAPS] heaps [cpu_losing] tells whether the nimm-sum is zero. *)
Lemma cpu_losing_run heaps :
  length heaps = N_HEAPS → cpu_losing heaps = Ret (bool_decide (nim_sum heaps = 0)).
Proof. intros Hlen. unfold cpu_losing. by rewrite nimm_sum_run. Qed.

(** [cpu_losing], on every list: it tells whether the XOR of the first
    [N_HEAPS] heaps is zero, and raises [IndexError] when there are
    fewer. *)
Lemma cpu_losing_correct heaps :
  cpu_losing heaps =
  if decide (N_HEAPS ≤ length heaps)%nat
  then Ret (bool_decide (nim_sum (take N_HEAPS heaps) = 0))
  else Raise IndexError.
Proof.
  unfold cpu_losing, nimm_sum. case_decide.
  - rewrite nimm_sum_loop_in_range by (simpl; lia). by rewrite drop_0, Z.lxor_0_l.
  - rewrite nimm_sum_loop_out_of_range; [done|..]; simpl; lia.
Qed.

End nimm_sum.

(** ** The scan for the winning move *)

Section scan.
Implicit Types (heaps rest : list Z) (s x : Z) (heap i : nat).

(** The scan of [play_correctly] finds the first qualifying heap and
    takes what lowers it to its XOR with the nimm-sum. *)
Lemma play_correctly_scan_find s heap rest :
  play_correctly_scan s heap rest =
  (λ p, ((heap + p.1)%nat, p.2 - p.2 ⊻ s)) <$> list_find (qualifies s) rest.
Proof.
  revert heap. induction rest as [|x rest IH]; intros heap; simpl; [done|].
  unfold qualifies at 1. case_decide; simpl.
  - by rewrite Nat.add_0_r.
  - rewrite IH. destruct (list_find _ rest) as [[i y]|]; simpl; [|done].
    do 2 f_equal. lia.
Qed.

Lemma play_correctly_scan_Some s heaps heap stones_taken :
  play_correctly_scan s 0 heaps = Some (heap, stones_taken) ↔
  ∃ x, heaps !! heap = Some x ∧ qualifies s x ∧ stones_taken = x - x ⊻ s
       ∧ ∀ j y, heaps !! j = Some y → (j < heap)%nat → ¬ qualifies s y.
Proof.
  rewrite play_correctly_scan_find. split.
  - destruct (list_find _ heaps) as [[i y]|] eqn:E; intros; simplify_eq/=.
    apply list_find_Some in E as (? & ? & ?). by exists y.
  - intros (x & Hx & Hq & -> & Hfirst).
    by rewrite (proj2 (list_find_Some (qualifies s) heaps heap x)).
Qed.

Lemma play_correctly_scan_None s heaps :
  play_correctly_scan s 0 heaps = None ↔ Forall (λ x, ¬ qualifies s x) heaps.
Proof.
  rewrite play_correctly_scan_find, fmap_None. apply list_find_None.
Qed.

(** With heaps that are not negative and a nonzero nimm-sum the scan
    succeeds: the fallback is not reached. *)
Lemma play_correctly_scan_is_Some heaps :
  heaps_ok heaps → nim_sum heaps ≠ 0 →
  is_Some (play_correctly_scan (nim_sum heaps) 0 heaps).
Proof.
  intros Hok Hs. apply not_eq_None_Some. intros HN%play_correctly_scan_None.
  destruct (exists_qualifying heaps Hok Hs) as (i & x & Hi & Hq).
  by apply (Forall_lookup_1 _ _ _ _ HN Hi).
Qed.

End scan.

(** ** [choose_random] *)

Section choose_random.
Context {R : Type} `{!RandomSource R}.
Implicit Types (heaps : list Z) (w : World R).

Lemma first_largest_exists heaps :
  heaps ≠ [] → ∃ heap heap_size,
    first_largest heaps heap heap_size
    ∧ py_max heaps = Ret heap_size ∧ list_index heap_size heaps = Ret heap.
Proof.
  intros (m & Hm & Hin & Hub)%py_max_spec.
  destruct (list_index_spec m heaps Hin) as (i & Hi & Hlook & Hfirst).
  by exists i, m.
Qed.

Lemma first_largest_pos heaps heap heap_size :
  first_largest heaps heap heap_size → 0 < py_sum heaps → 1 ≤ heap_size.
Proof.
  intros (_ & Hub & _) Hsum. destruct (decide (1 ≤ heap_size)); [done|].
  assert (py_sum heaps ≤ 0); [|lia].
  apply py_sum_nonpos. eapply Forall_impl; [|exact Hub]. simpl. lia.
Qed.

(** On heaps with a stone left, [choose_random] draws once, between one
    and the size of the first largest heap, and touches nothing else. *)
Lemma choose_random_draws heaps w :
  0 < py_sum heaps →
  ∃ heap heap_size,
    first_largest heaps heap heap_size ∧ 1 ≤ heap_size
    ∧ choose_random heaps w =
        (Ret (heap, (draw 1 heap_size (rand w)).1),
         mkWorld (stdin w) (stdout w) (draw 1 heap_size (rand w)).2).
Proof.
  intros Hsum. destruct (first_largest_exists heaps) as (heap & m & Hfl & Hmax & Hidx).
  { by intros ->. }
  pose proof (first_largest_pos _ _ _ Hfl Hsum). exists heap, m. split_and!; [done..|].
  unfold choose_random. rewrite Hmax, bind_lift_Ret, Hidx, bind_lift_Ret.
  rewrite (getitem_lookup _ _ _ (proj1 Hfl)), bind_lift_Ret.
  unfold bind, randint, ret. by case_decide.
Qed.

(** C33: on heaps with a stone left the move of [choose_random] is legal:
    it takes between one stone and the whole of the first largest heap,
    and nothing is read or written. *)
Theorem choose_random_legal heaps w :
  0 < py_sum heaps →
  ∃ heap stones_taken w',
    choose_random heaps w = (Ret (heap, stones_taken), w')
    ∧ legal_move heaps heap stones_taken
    ∧ (∃ heap_size, first_largest heaps heap heap_size)
    ∧ stdin w' = stdin w ∧ stdout w' = stdout w.
Proof.
  intros (heap & m & Hfl & Hm & ->)%(choose_random_draws heaps w).
  eexists _, _, _. split_and!; [done| |by exists m|done..].
  exists m. split; [apply Hfl|]. by apply draw_range.
Qed.

(** C34: on heaps without a stone [choose_random] raises [ValueError]:
    [max] of no heaps, or [randint(1, 0)]. *)
Theorem choose_random_no_stones heaps w :
  Forall (λ x, x = 0) heaps → choose_random heaps w = (Raise ValueError, w).
Proof.
  destruct 1 as [|x heaps -> Hall]; [done|].
  destruct (first_largest_exists (0 :: heaps)) as (heap & m & Hfl & Hmax & Hidx); [done|].
  unfold choose_random. rewrite Hmax, bind_lift_Ret, Hidx, bind_lift_Ret.
  rewrite (getitem_lookup _ _ _ (proj1 Hfl)), bind_lift_Ret.
  assert (m = 0) as ->.
  { by apply (Forall_lookup_1 _ _ _ _ (Forall_cons_2 _ 0 _ eq_refl Hall) (proj1 Hfl)). }
  done.
Qed.

End choose_random.

(** ** The scan for the wrong move *)

Section mistake_scan.
Implicit Types (heaps rest : list Z) (s x : Z) (heap i : nat).

(** What the scan of [make_mistake] returns: at a qualifying heap, one
    stone less than the winning number when that is more than one, one
    stone more when it is one and the heap holds more. *)
Lemma make_mistake_scan_Some s i rest heap k :
  make_mistake_scan s i rest = Some (heap, k) →
  ∃ x, (i ≤ heap)%nat ∧ rest !! (heap - i)%nat = Some x ∧ qualifies s x
       ∧ (1 < x - x ⊻ s ∧ k = x - x ⊻ s - 1
          ∨ x - x ⊻ s ≤ 1 ∧ x - x ⊻ s < x ∧ k = x - x ⊻ s + 1).
Proof.
  revert i. induction rest as [|x rest IH]; intros i; simpl; [done|].
  assert (Hrec : make_mistake_scan s (S i) rest = Some (heap, k) →
    ∃ y, (i ≤ heap)%nat ∧ (x :: rest) !! (heap - i)%nat = Some y ∧ qualifies s y
       ∧ (1 < y - y ⊻ s ∧ k = y - y ⊻ s - 1
          ∨ y - y ⊻ s ≤ 1 ∧ y - y ⊻ s < y ∧ k = y - y ⊻ s + 1)).
  { intros (y & Hle & Hy & Hrest)%IH. exists y. split; [lia|].
    by replace (heap - i)%nat with (S (heap - S i)) by lia. }
  repeat case_decide; try done; intros; simplify_eq;
    exists x; rewrite Nat.sub_diag; split_and!; auto; lia.
Qed.

(** The scan returns nothing exactly when every qualifying heap holds one
    stone, for heaps and a nimm-sum that are not negative. *)
Lemma make_mistake_scan_None s i rest :
  0 ≤ s → heaps_ok rest →
  make_mistake_scan s i rest = None ↔ Forall (λ x, qualifies s x → x = 1) rest.
Proof.
  intros Hs Hok. revert i. induction Hok as [|x rest Hx Hok IH]; intros i; simpl; [done|].
  rewrite Forall_cons_iff. pose proof (lxor_nonneg_nonneg x s Hx Hs).
  unfold qualifies at 1. repeat case_decide; rewrite ?IH; intuition (discriminate || lia).
Qed.

(** The scan stops at the first qualifying heap that holds more than one
    stone: the qualifying heaps of one stone before it are passed over. *)
Lemma make_mistake_scan_first s i rest heap x :
  0 ≤ s → heaps_ok rest → rest !! heap = Some x → qualifies s x → 1 < x →
  (∀ j y, rest !! j = Some y → (j < heap)%nat → qualifies s y → y ≤ 1) →
  make_mistake_scan s i rest
  = Some ((i + heap)%nat, if decide (1 < x - x ⊻ s) then x - x ⊻ s - 1 else 2).
Proof.
  intros Hs Hok. revert i heap.
  induction Hok as [|a rest Ha Hok IH]; intros i [|heap] Hx Hq Hbig Hfirst;
    simplify_eq/=; pose proof (lxor_nonneg_nonneg _ s Ha Hs); unfold qualifies in *.
  - rewrite Nat.add_0_r. repeat case_decide; try lia; try done; do 2 f_equal; lia.
  - pose proof (Hfirst 0%nat a eq_refl ltac:(lia)).
    rewrite (IH (S i) heap Hx Hq Hbig) by (intros j y ? ?; apply (Hfirst (S j)); [done|lia]).
    repeat case_decide; try lia; try done; do 2 f_equal; lia.
Qed.

(** The move the scan returns is legal and leaves a nonzero nimm-sum. *)
Lemma make_mistake_scan_sound heaps heap k :
  heaps_ok heaps → make_mistake_scan (nim_sum heaps) 0 heaps = Some (heap, k) →
  legal_move heaps heap k ∧ nim_sum (apply_move heaps heap k) ≠ 0.
Proof.
  intros Hok (x & _ & Hx & Hq & Hk)%make_mistake_scan_Some.
  rewrite Nat.sub_0_r in Hx. pose proof (nim_sum_nonneg heaps Hok) as Hs.
  pose proof (Forall_lookup_1 _ _ _ _ Hok Hx) as Hx0. simpl in Hx0.
  pose proof (lxor_nonneg_nonneg x _ Hx0 Hs). unfold qualifies in Hq.
  split; [exists x; split; [done|lia]|].
  unfold apply_move. rewrite Hx. apply (nim_sum_insert_neq _ _ x); [done|lia].
Qed.

End mistake_scan.

(** ** [play_correctly] and [make_mistake] *)

Section decisions.
Context {cfg : Config} {R : Type} `{!RandomSource R}.
Implicit Types (heaps : list Z) (w : World R) (heap : nat).

Lemma play_correctly_eq heaps w :
  length heaps = N_HEAPS →
  play_correctly heaps w =
  match play_correctly_scan (nim_sum heaps) 0 heaps with
  | Some move => (Ret move, w)
  | None => choose_random heaps w
  end.
Proof.
  intros Hlen. unfold play_correctly. rewrite nimm_sum_run by done.
  rewrite bind_lift_Ret. by case_match.
Qed.

Lemma make_mistake_eq heaps w :
  length heaps = N_HEAPS →
  make_mistake heaps w =
  match make_mistake_scan (nim_sum heaps) 0 heaps with
  | Some move => (Ret move, w)
  | None => choose_random heaps w
  end.
Proof.
  intros Hlen. unfold make_mistake. rewrite nimm_sum_run by done.
  rewrite bind_lift_Ret. by case_match.
Qed.

(** The decision functions depend on the heaps and the random source
    only. *)
Lemma replays_play_correctly heaps : replays (λ _, play_correctly (R := R) heaps).
Proof. unfold play_correctly, choose_random. replays_tac. Qed.

Lemma replays_make_mistake heaps : replays (λ _, make_mistake (R := R) heaps).
Proof. unfold make_mistake, choose_random. replays_tac. Qed.

(** What [play_correctly] does on heaps that hold a stone. *)
Lemma play_correctly_run heaps w :
  heaps_ok heaps → length heaps = N_HEAPS → 0 < py_sum heaps →
  ∃ heap stones_taken w',
    play_correctly heaps w = (Ret (heap, stones_taken), w')
    ∧ legal_move heaps heap stones_taken ∧ draws_only w w'
    ∧ (nim_sum heaps ≠ 0 → w' = w ∧ nim_sum (apply_move heaps heap stones_taken) = 0).
Proof.
  intros Hok Hlen Hsum. rewrite play_correctly_eq by done.
  destruct (play_correctly_scan _ 0 heaps) as [[heap k]|] eqn:E.
  - apply play_correctly_scan_Some in E as (x & Hx & Hq & -> & _).
    exists heap, (x - x ⊻ nim_sum heaps), w.
    split_and!; [done|by apply winning_move_legal|done|].
    intros _. split; [done|by apply winning_move_zero].
  - destruct (choose_random_draws heaps w Hsum) as (heap & m & Hfl & Hm & ->).
    eexists _, _, _. split_and!; [done| |done|].
    + exists m. split; [apply Hfl|]. by apply draw_range.
    + intros Hs. destruct (play_correctly_scan_is_Some heaps Hok Hs) as [? ?]. congruence.
Qed.

(** From a nonzero nimm-sum [play_correctly] draws no random number: it
    does not reach [choose_random]. *)
Lemma quiet_play_correctly heaps w :
  heaps_ok heaps → length heaps = N_HEAPS → nim_sum heaps ≠ 0 →
  quiet (play_correctly heaps) w.
Proof.
  intros Hok Hlen Hs.
  destruct (play_correctly_run heaps w Hok Hlen) as (heap & k & w' & E & _ & _ & Hw);
    [by apply nim_sum_neq_0_sum_pos|].
  unfold quiet. rewrite E. by destruct (Hw Hs) as [-> _].
Qed.

(** The first largest heap holds more than one stone when some heap
    does. *)
Lemma first_largest_big heaps heap heap_size :
  first_largest heaps heap heap_size → Exists (λ x, 1 < x) heaps → 1 < heap_size.
Proof.
  intros (_ & Hub & _) (x & Hx & ?)%list.Exists_exists.
  pose proof (proj1 (list.Forall_forall _ _) Hub x Hx). simpl in *. lia.
Qed.

(** What [make_mistake] does on heaps that hold a stone: a legal move,
    which leaves the nimm-sum nonzero when some heap holds more than one
    stone. *)
Lemma make_mistake_run heaps w :
  heaps_ok heaps → length heaps = N_HEAPS → 0 < py_sum heaps →
  ∃ heap stones_taken w',
    make_mistake heaps w = (Ret (heap, stones_taken), w')
    ∧ legal_move heaps heap stones_taken ∧ draws_only w w'
    ∧ (Exists (λ x, 1 < x) heaps → nim_sum (apply_move heaps heap stones_taken) ≠ 0).
Proof.
  intros Hok Hlen Hsum. rewrite make_mistake_eq by done.
  destruct (make_mistake_scan _ 0 heaps) as [[heap k]|] eqn:E.
  - destruct (make_mistake_scan_sound heaps heap k Hok E). by exists heap, k, w.
  - destruct (choose_random_draws heaps w Hsum) as (heap & m & Hfl & Hm & ->).
    pose proof (draw_range 1 m (rand w) Hm) as Hk.
    eexists _, _, _. split_and!; [done|exists m; split; [apply Hfl|done]|done|].
    intros Hbig%(first_largest_big _ _ _ Hfl).
    apply make_mistake_scan_None in E; [|by apply nim_sum_nonneg|done].
    pose proof (Forall_lookup_1 _ _ _ _ E (proj1 Hfl)) as Hq. unfold qualifies in Hq.
    unfold apply_move. rewrite (proj1 Hfl).
    apply (nim_sum_insert_neq _ _ m); [apply Hfl|]. simpl in *. lia.
Qed.

(** C3: from heaps with a nonzero nimm-sum [play_correctly] returns,
    without any effect, a legal move after which the nimm-sum is zero. *)
Theorem play_correctly_winning heaps w :
  heaps_ok heaps → length heaps = N_HEAPS → nim_sum heaps ≠ 0 →
  ∃ heap stones_taken,
    play_correctly heaps w = (Ret (heap, stones_taken), w)
    ∧ legal_move heaps heap stones_taken
    ∧ nim_sum (apply_move heaps heap stones_taken) = 0.
Proof.
  intros Hok Hlen Hs.
  destruct (play_correctly_run heaps w) as (heap & k & w' & E & ? & _ & Hwin);
    [done..|by apply nim_sum_neq_0_sum_pos|].
  destruct (Hwin Hs) as [-> ?]. by exists heap, k.
Qed.

(** C30: the heap [play_correctly] takes from is the lowest-numbered
    qualifying heap: no heap before it qualifies, and it takes exactly
    what lowers that heap to its XOR with the nimm-sum. *)
Theorem play_correctly_lowest heaps w heap stones_taken w' :
  heaps_ok heaps → length heaps = N_HEAPS → nim_sum heaps ≠ 0 →
  play_correctly heaps w = (Ret (heap, stones_taken), w') →
  ∃ x, heaps !! heap = Some x ∧ qualifies (nim_sum heaps) x
       ∧ stones_taken = x - x ⊻ nim_sum heaps
       ∧ ∀ j y, heaps !! j = Some y → (j < heap)%nat → ¬ qualifies (nim_sum heaps) y.
Proof.
  intros Hok Hlen Hs. rewrite play_correctly_eq by done.
  destruct (play_correctly_scan_is_Some heaps Hok Hs) as [[h k] E]. rewrite E.
  intros [= -> -> _]. by apply play_correctly_scan_Some.
Qed.

(** C31: from heaps with a zero nimm-sum no heap qualifies and
    [play_correctly] is [choose_random]. *)
Theorem play_correctly_losing heaps w :
  length heaps = N_HEAPS → nim_sum heaps = 0 →
  play_correctly heaps w = choose_random heaps w.
Proof.
  intros Hlen Hs. rewrite play_correctly_eq, Hs by done.
  rewrite (proj2 (play_correctly_scan_None 0 heaps)); [done|].
  apply Forall_forall. intros x _. apply qualifies_zero.
Qed.

(** On fewer than [N_HEAPS] heaps [play_correctly] and
    [make_mistake] raise [IndexError] and have no effect. *)
Lemma too_few_heaps heaps w :
  (length heaps < N_HEAPS)%nat →
  play_correctly heaps w = (Raise IndexError, w)
  ∧ make_mistake heaps w = (Raise IndexError, w).
Proof.
  intros. unfold play_correctly, make_mistake. by rewrite nimm_sum_too_short.
Qed.

(** C7: the mistake is a mistake: when some heap holds more than one
    stone, [make_mistake] returns a legal move after which the nimm-sum is
    not zero, so that the human is left a winning position. *)
Theorem make_mistake_wrong heaps w :
  heaps_ok heaps → length heaps = N_HEAPS → Exists (λ x, 1 < x) heaps →
  ∃ heap stones_taken w',
    make_mistake heaps w = (Ret (heap, stones_taken), w')
    ∧ legal_move heaps heap stones_taken
    ∧ nim_sum (apply_move heaps heap stones_taken) ≠ 0.
Proof.
  intros Hok Hlen Hbig.
  destruct (make_mistake_run heaps w) as (heap & k & w' & E & ? & _ & Hwrong);
    [done..|by apply Exists_sum_pos|by exists heap, k, w'; auto].
Qed.

(** C32: when no heap holds more than one stone and the nimm-sum is not
    zero, the move of [make_mistake] is no mistake: it takes the last
    stone of a heap and leaves the nimm-sum zero. *)
Theorem make_mistake_may_win heaps w :
  heaps_ok heaps → length heaps = N_HEAPS → nim_sum heaps ≠ 0 →
  Forall (λ x, x ≤ 1) heaps →
  ∃ heap w',
    make_mistake heaps w = (Ret (heap, 1), w')
    ∧ legal_move heaps heap 1
    ∧ nim_sum (apply_move heaps heap 1) = 0.
Proof.
  intros Hok Hlen Hs Hle. rewrite make_mistake_eq by done.
  pose proof (nim_sum_nonneg heaps Hok) as Hs0.
  rewrite (proj2 (make_mistake_scan_None _ 0 heaps Hs0 Hok)).
  2:{ apply Forall_forall. intros x Hx Hq. unfold qualifies in Hq.
      pose proof (proj1 (Forall_forall _ _) Hle x Hx).
      pose proof (proj1 (Forall_forall _ _) Hok x Hx).
      pose proof (lxor_nonneg_nonneg x _ ltac:(done) Hs0). simpl in *. lia. }
  destruct (choose_random_draws heaps w) as (heap & m & Hfl & Hm & ->).
  { by apply nim_sum_neq_0_sum_pos. }
  pose proof (Forall_lookup_1 _ _ _ _ Hle (proj1 Hfl)) as Hm1. simpl in Hm1.
  assert (m = 1) as -> by lia. pose proof (draw_range 1 1 (rand w) ltac:(lia)).
  replace (draw 1 1 (rand w)).1 with 1 by lia.
  eexists heap, _. split; [done|]. split; [exists 1; split; [apply Hfl|lia]|].
  unfold apply_move. rewrite (proj1 Hfl), (nim_sum_insert _ _ 1) by apply Hfl.
  destruct (nim_sum_bits heaps Hok Hle) as [E|E]; [done|]. by rewrite E.
Qed.

(** C29: the mistake Dr. Nymm makes.  When a qualifying heap holds more
    than one stone, [make_mistake] takes, without any effect, from the
    lowest-numbered such heap: one stone less than the winning number
    when that is more than one, and two stones when it is one.  The
    qualifying heaps of a single stone before it are passed over. *)
Theorem make_mistake_first heaps w heap x :
  heaps_ok heaps → length heaps = N_HEAPS →
  heaps !! heap = Some x → qualifies (nim_sum heaps) x → 1 < x →
  (∀ j y, heaps !! j = Some y → (j < heap)%nat → qualifies (nim_sum heaps) y → y ≤ 1) →
  make_mistake heaps w
  = (Ret (heap, if decide (1 < x - x ⊻ nim_sum heaps) then x - x ⊻ nim_sum heaps - 1
                else 2), w).
Proof.
  intros Hok Hlen Hx Hq Hbig Hfirst. rewrite make_mistake_eq by done.
  by rewrite (make_mistake_scan_first _ 0 heaps heap x) by auto using nim_sum_nonneg.
Qed.

End decisions.

#[export] Hint Resolve replays_play_correctly replays_make_mistake : replays.

(** ** The theorems at concrete heaps, with the constants of the source *)

Lemma choose_random_legal_witness :
  ∃ heap stones_taken w',
    choose_random [3; 5; 2] (mkWorld [] [] [7%nat]) = (Ret (heap, stones_taken), w')
    ∧ legal_move [3; 5; 2] heap stones_taken
    ∧ (∃ heap_size, first_largest [3; 5; 2] heap heap_size)
    ∧ stdin w' = [] ∧ stdout w' = [].
Proof. apply (choose_random_legal [3; 5; 2] (mkWorld [] [] [7%nat])). reflexivity. Defined.

Lemma choose_random_no_stones_witness :
  choose_random [0; 0; 0] (mkWorld [] [] [7%nat])
  = (Raise ValueError, mkWorld [] [] [7%nat]).
Proof. apply choose_random_no_stones. compute_done. Defined.

Lemma play_correctly_winning_witness :
  ∃ heap stones_taken,
    play_correctly (cfg := source_config) [5; 3; 0] (mkWorld [] [] [7%nat])
    = (Ret (heap, stones_taken), mkWorld [] [] [7%nat])
    ∧ legal_move [5; 3; 0] heap stones_taken
    ∧ nim_sum (apply_move [5; 3; 0] heap stones_taken) = 0.
Proof.
  apply (play_correctly_winning (cfg := source_config)); [compute_done|reflexivity|].
  vm_compute. discriminate.
Defined.

Lemma play_correctly_lowest_witness :
  ∃ x, [1; 4; 2] !! 1%nat = Some x ∧ qualifies (nim_sum [1; 4; 2]) x
       ∧ 1 = x - x ⊻ nim_sum [1; 4; 2]
       ∧ ∀ j y, [1; 4; 2] !! j = Some y → (j < 1)%nat → ¬ qualifies (nim_sum [1; 4; 2]) y.
Proof.
  apply (play_correctly_lowest (cfg := source_config) [1; 4; 2]
           (mkWorld [] [] [7%nat]) 1%nat 1 (mkWorld [] [] [7%nat]));
    [compute_done|reflexivity|vm_compute; discriminate|reflexivity].
Defined.

Lemma play_correctly_losing_witness :
  play_correctly (cfg := source_config) [1; 2; 3] (mkWorld [] [] [7%nat])
  = choose_random [1; 2; 3] (mkWorld [] [] [7%nat]).
Proof. apply (play_correctly_losing (cfg := source_config)); reflexivity. Defined.

Lemma too_few_heaps_witness :
  play_correctly (cfg := source_config) [1; 2] (mkWorld [] [] [7%nat])
  = (Raise IndexError, mkWorld [] [] [7%nat])
  ∧ make_mistake (cfg := source_config) [1; 2] (mkWorld [] [] [7%nat])
    = (Raise IndexError, mkWorld [] [] [7%nat]).
Proof. apply (too_few_heaps (cfg := source_config)). simpl. lia. Defined.

Lemma make_mistake_wrong_witness :
  ∃ heap stones_taken w',
    make_mistake (cfg := source_config) [5; 3; 0] (mkWorld [] [] [7%nat])
    = (Ret (heap, stones_taken), w')
    ∧ legal_move [5; 3; 0] heap stones_taken
    ∧ nim_sum (apply_move [5; 3; 0] heap stones_taken) ≠ 0.
Proof.
  apply (make_mistake_wrong (cfg := source_config)); [compute_done|reflexivity|compute_done].
Defined.

Lemma make_mistake_first_witness :
  make_mistake (cfg := source_config) [1; 3; 3] (mkWorld [] [] [7%nat])
  = (Ret (1%nat, 2), mkWorld [] [] [7%nat]).
Proof.
  apply (make_mistake_first (cfg := source_config) [1; 3; 3] _ 1 3);
    [compute_done|reflexivity|reflexivity|compute_done|lia|].
  intros [|j] y Hy Hj ?; [by injection Hy as <-|lia].
Defined.

Lemma make_mistake_may_win_witness :
  ∃ heap w',
    make_mistake (cfg := source_config) [1; 1; 1] (mkWorld [] [] [7%nat])
    = (Ret (heap, 1), w')
    ∧ legal_move [1; 1; 1] heap 1
    ∧ nim_sum (apply_move [1; 1; 1] heap 1) = 0.
Proof.
  apply (make_mistake_may_win (cfg := source_config));
    [compute_done|reflexivity|vm_compute; discriminate|compute_done].
Defined.
