(* ===== verification/Optimal.v ===== *)
(** * Optimal: the decisions of the computer against the game tree

    The glossary of the specification says that a position is lost for the
    player to move exactly when its nimm-sum is zero.  This file states
    what "lost" means without the nimm-sum, and proves that sentence.  A
    position [wins] when some legal move leads to a position that
    [loses], and [loses] when every legal move leads to a position that
    [wins]; with no stone left there is no move, so the player to move
    has lost: the other player took the last stone.  [mover_wins] is the
    search of the game tree that decides [wins], with one unit of fuel
    per stone; [positions_after] lists the positions one move away.

    The decisions of src/unbeatable.py are then measured against the
    tree: [cpu_losing] returns what the search returns, [play_correctly]
    moves to a lost position whenever there is one, and the move of
    [make_mistake] leaves a won position to the human.  The order of the
    heaps does not matter to who wins: a permutation of the heaps is a
    simulation of the moves, and [wins] and [loses] are morphisms for
    it. *)

From S2P Require Import Prelude PyRuntime Wp NimSum Config Engine.

(** ** Definitions *)

(** The positions one legal move away: one heap lowered to a smaller size
    that is not negative. *)
Fixpoint positions_after (heaps : list Z) : list (list Z) :=
  match heaps with
  | [] => []
  | x :: rest =>
      ((λ y, y :: rest) <$> seqZ 0 x) ++ ((λ rest', x :: rest') <$> positions_after rest)
  end.

(** The search of the game tree: the player to move wins when some move
    leads to a position from which the player to move does not win. *)
Fixpoint mover_wins (fuel : nat) (heaps : list Z) : bool :=
  match fuel with
  | O => false
  | S fuel' => existsb (λ heaps', negb (mover_wins fuel' heaps')) (positions_after heaps)
  end.

(** The player to move can force a win: some move leads to a position
    from which every move leads to a position from which the player to
    move can force a win. *)
Inductive wins : list Z → Prop :=
  | wins_move heaps heaps' :
      moved heaps heaps' → (∀ heaps'', moved heaps' heaps'' → wins heaps'') → wins heaps.

(** The player to move cannot avoid a loss: every move leads to a position
    that the other player wins.  With no stone left there is no move. *)
Definition loses (heaps : list Z) : Prop := ∀ heaps', moved heaps heaps' → wins heaps'.

(** ** The positions one move away *)

Section positions.
Implicit Types (heaps rest : list Z) (x y : Z).

Lemma moved_cons x rest heaps' :
  moved (x :: rest) heaps' ↔
  (∃ y, 0 ≤ y < x ∧ heaps' = y :: rest) ∨ (∃ rest', moved rest rest' ∧ heaps' = x :: rest').
Proof.
  unfold moved, legal_move, apply_move. split.
  - intros ([|heap] & k & (z & Hz & Hk) & ->); simpl in *.
    + simplify_eq. left. exists (z - k). split; [lia|done].
    + right. rewrite Hz. exists (<[heap := z - k]> rest). split; [|done].
      exists heap, k. rewrite Hz. split; [by exists z|done].
  - intros [(y & Hy & ->)|(rest' & (heap & k & (z & Hz & Hk) & ->) & ->)].
    + exists 0%nat, (x - y). simpl. split; [exists x; split; [done|lia]|].
      f_equal. lia.
    + exists (S heap), k. simpl. rewrite Hz. split; [by exists z|done].
Qed.

(** [positions_after] lists the positions one legal move away, and no
    other. *)
Lemma elem_of_positions_after heaps heaps' :
  heaps' ∈ positions_after heaps ↔ moved heaps heaps'.
Proof.
  revert heaps'. induction heaps as [|x rest IH]; intros heaps'; simpl.
  - split; [by intros ?%elem_of_nil|]. by intros (heap & k & (z & ? & _) & _).
  - rewrite moved_cons, elem_of_app, !list_elem_of_fmap.
    setoid_rewrite elem_of_seqZ. setoid_rewrite IH. naive_solver lia.
Qed.

(** The search finds a move exactly when there is one to a position on
    which it fails. *)
Lemma mover_wins_S fuel heaps :
  mover_wins (S fuel) heaps = true ↔
  ∃ heaps', moved heaps heaps' ∧ mover_wins fuel heaps' = false.
Proof.
  simpl. rewrite existsb_exists. setoid_rewrite <- list_elem_of_In.
  setoid_rewrite elem_of_positions_after. by setoid_rewrite negb_true_iff.
Qed.

End positions.

(** ** The nimm-sum decides the game *)

Section bouton.
Implicit Types (heaps : list Z) (fuel n : nat).

(** With a unit of fuel per stone, the search succeeds exactly on the
    positions whose nimm-sum is not zero. *)
Lemma mover_wins_nim_sum fuel heaps :
  heaps_ok heaps → py_sum heaps ≤ Z.of_nat fuel →
  mover_wins fuel heaps = bool_decide (nim_sum heaps ≠ 0).
Proof.
  revert heaps. induction fuel as [|fuel IH]; intros heaps Hok Hfuel;
    pose proof (py_sum_nonneg heaps Hok).
  { rewrite bool_decide_eq_false_2; [done|]. intros Hs. apply Hs.
    apply nim_sum_zeros, py_sum_0_all; [done|lia]. }
  assert (∀ heaps', moved heaps heaps' →
            mover_wins fuel heaps' = bool_decide (nim_sum heaps' ≠ 0)) as IH'.
  { intros heaps' Hm. pose proof (moved_sum _ _ Hm).
    apply IH; [by eapply moved_ok|lia]. }
  case_bool_decide as Hs.
  - apply mover_wins_S. destruct (moved_to_zero heaps Hok Hs) as (heaps' & Hm & H0).
    exists heaps'. split; [done|]. rewrite (IH' _ Hm). by apply bool_decide_eq_false_2; auto.
  - apply not_true_is_false. intros (heaps' & Hm & Hlose)%mover_wins_S.
    rewrite (IH' _ Hm) in Hlose. apply bool_decide_eq_false in Hlose.
    apply Hlose. apply (moved_from_zero heaps); [|done].
    by destruct (decide (nim_sum heaps = 0)).
Qed.

(** A nonzero nimm-sum wins and a zero nimm-sum loses, by induction on
    the number of stones. *)
Lemma nim_sum_wins_loses n heaps :
  heaps_ok heaps → py_sum heaps ≤ Z.of_nat n →
  (nim_sum heaps ≠ 0 → wins heaps) ∧ (nim_sum heaps = 0 → loses heaps).
Proof.
  revert heaps. induction n as [|n IH]; intros heaps Hok Hn; split.
  - intros Hs%nim_sum_neq_0_sum_pos; [lia|done].
  - intros _ heaps' Hm. pose proof (moved_sum _ _ Hm).
    pose proof (py_sum_nonneg heaps' (moved_ok _ _ Hok Hm)). lia.
  - intros Hs. destruct (moved_to_zero heaps Hok Hs) as (heaps' & Hm & H0).
    pose proof (moved_sum _ _ Hm). apply (wins_move _ heaps' Hm).
    apply IH; [by eapply moved_ok|lia|done].
  - intros H0 heaps' Hm. pose proof (moved_sum _ _ Hm).
    apply IH; [by eapply moved_ok|lia|by apply (moved_from_zero heaps)].
Qed.

(** No position is both won and lost. *)
Lemma wins_not_loses n heaps :
  heaps_ok heaps → py_sum heaps ≤ Z.of_nat n → wins heaps → ¬ loses heaps.
Proof.
  revert heaps. induction n as [|n IH]; intros heaps Hok Hn Hw Hl;
    destruct Hw as [heaps heaps' Hm Hl']; pose proof (moved_sum _ _ Hm);
    pose proof (py_sum_nonneg heaps' (moved_ok _ _ Hok Hm)); [lia|].
  apply (IH heaps'); [by eapply moved_ok|lia|by apply Hl|done].
Qed.

(** A position of heaps that are not negative is won exactly when its
    nimm-sum is not zero, and lost exactly when it is zero. *)
Lemma wins_nim_sum heaps : heaps_ok heaps → wins heaps ↔ nim_sum heaps ≠ 0.
Proof.
  intros Hok. pose proof (py_sum_nonneg heaps Hok).
  destruct (nim_sum_wins_loses (Z.to_nat (py_sum heaps)) heaps) as [Hw Hl]; [done|lia|].
  split; [|done]. intros Hwins H0%Hl.
  by apply (wins_not_loses (Z.to_nat (py_sum heaps)) heaps); [|lia|..].
Qed.

Lemma loses_nim_sum heaps : heaps_ok heaps → loses heaps ↔ nim_sum heaps = 0.
Proof.
  intros Hok. pose proof (py_sum_nonneg heaps Hok).
  destruct (nim_sum_wins_loses (Z.to_nat (py_sum heaps)) heaps) as [Hw Hl]; [done|lia|].
  split; [|done]. intros Hloses. destruct (decide (nim_sum heaps = 0)) as [|Hs]; [done|].
  by destruct (wins_not_loses (Z.to_nat (py_sum heaps)) heaps Hok ltac:(lia) (Hw Hs)).
Qed.

(** The search decides [wins]. *)
Lemma mover_wins_wins fuel heaps :
  heaps_ok heaps → py_sum heaps ≤ Z.of_nat fuel →
  mover_wins fuel heaps = true ↔ wins heaps.
Proof.
  intros Hok Hfuel. rewrite mover_wins_nim_sum, wins_nim_sum by done.
  apply bool_decide_eq_true.
Qed.

(** Every position of heaps that are not negative is won or lost, and
    not both. *)
Lemma wins_or_loses heaps :
  heaps_ok heaps → (wins heaps ∧ ¬ loses heaps) ∨ (loses heaps ∧ ¬ wins heaps).
Proof.
  intros Hok. rewrite wins_nim_sum, loses_nim_sum by done.
  destruct (decide (nim_sum heaps = 0)); auto.
Qed.

End bouton.

(** ** The order of the heaps *)

Section order.
Implicit Types (heaps : list Z).

(** A move from a position is a move from each of its rearrangements, to
    a rearrangement of the position reached. *)
Lemma moved_perm heaps1 heaps2 heaps1' :
  heaps1 ≡ₚ heaps2 → moved heaps1 heaps1' →
  ∃ heaps2', moved heaps2 heaps2' ∧ heaps1' ≡ₚ heaps2'.
Proof.
  intros Hp. revert heaps1'.
  induction Hp as [|x l l' Hp IH|x y l|l l' l'' _ IH1 _ IH2]; intros heaps'.
  - eauto.
  - intros [(z & Hz & ->)|(rest' & Hm & ->)]%moved_cons.
    + exists (z :: l'). split; [apply moved_cons; left; eauto|by constructor].
    + destruct (IH _ Hm) as (rest2 & Hm2 & Hp2).
      exists (x :: rest2). split; [apply moved_cons; right; eauto|by constructor].
  - intros [(z & Hz & ->)|(rest' & [(z & Hz & ->)|(r & Hm & ->)]%moved_cons & ->)]%moved_cons.
    + exists (x :: z :: l). split; [|apply perm_swap].
      apply moved_cons. right. eexists. split; [apply moved_cons; left; eauto|done].
    + exists (z :: y :: l). split; [apply moved_cons; left; eauto|apply perm_swap].
    + exists (x :: y :: r). split; [|apply perm_swap].
      apply moved_cons. right. eexists. split; [apply moved_cons; right; eauto|done].
  - intros (h2 & Hm2 & Hp2)%IH1. destruct (IH2 _ Hm2) as (h3 & Hm3 & Hp3).
    exists h3. split; [done|by etrans].
Qed.

Lemma wins_perm heaps1 heaps2 : heaps1 ≡ₚ heaps2 → wins heaps1 → wins heaps2.
Proof.
  intros Hp Hw. revert heaps2 Hp.
  induction Hw as [heaps heaps' Hm _ IH]; intros heaps2 Hp.
  destruct (moved_perm _ _ _ Hp Hm) as (heaps2' & Hm2 & Hp2).
  apply (wins_move _ heaps2' Hm2). intros h2'' Hm2'.
  symmetry in Hp2. destruct (moved_perm _ _ _ Hp2 Hm2') as (h'' & Hm'' & Hp'').
  symmetry in Hp''. by apply (IH h'' Hm'').
Qed.

(** Who wins does not depend on the order of the heaps, whatever the
    heaps hold: the game trees of two rearrangements simulate one
    another. *)
#[export] Instance wins_proper : Proper ((≡ₚ) ==> iff) wins.
Proof. intros h1 h2 Hp. split; apply wins_perm; [done|by symmetry]. Qed.

#[export] Instance loses_proper : Proper ((≡ₚ) ==> iff) loses.
Proof.
  assert (∀ h1 h2, h1 ≡ₚ h2 → loses h1 → loses h2) as Hl.
  { intros h1 h2 Hp Hl h2' Hm. symmetry in Hp.
    destruct (moved_perm _ _ _ Hp Hm) as (h1' & Hm1 & Hp1). rewrite Hp1. by apply Hl. }
  intros h1 h2 Hp. split; apply Hl; [done|by symmetry].
Qed.

End order.

(** ** The decisions of the computer *)

Section decisions.
Context {cfg : Config} {R : Type} `{!RandomSource R}.
Implicit Types (heaps : list Z) (w : World R).

(** C10: [cpu_losing] agrees with the search of the game tree: on [N_HEAPS]
    heaps, none negative, it returns [True] exactly when the search, with
    a unit of fuel per stone, finds no way for the player to move to
    win. *)
Theorem cpu_losing_optimal fuel heaps :
  heaps_ok heaps → length heaps = N_HEAPS → py_sum heaps ≤ Z.of_nat fuel →
  cpu_losing heaps = Ret (negb (mover_wins fuel heaps)).
Proof.
  intros Hok Hlen Hfuel. rewrite cpu_losing_run, mover_wins_nim_sum by done.
  f_equal. by repeat case_bool_decide.
Qed.

(** C4: [play_correctly] plays the game as well as it can be played: from
    a position that the player to move can win it returns, without any
    effect, a legal move to a position that the player to move cannot
    but lose. *)
Theorem play_correctly_optimal heaps w :
  heaps_ok heaps → length heaps = N_HEAPS → wins heaps →
  ∃ heap stones_taken,
    play_correctly heaps w = (Ret (heap, stones_taken), w)
    ∧ legal_move heaps heap stones_taken
    ∧ loses (apply_move heaps heap stones_taken).
Proof.
  intros Hok Hlen Hs%wins_nim_sum; [|done].
  destruct (play_correctly_run heaps w) as (heap & k & w' & E & Hlegal & _ & Hwin);
    [done..|by apply nim_sum_neq_0_sum_pos|].
  destruct (Hwin Hs) as [-> H0]. exists heap, k. split_and!; [done..|].
  apply loses_nim_sum; [by apply apply_move_ok|done].
Qed.

(** C17: the mistake gives the game away: when some heap holds more than
    one stone, [make_mistake] returns a legal move to a position that the
    player to move, the human, can win. *)
Theorem make_mistake_gives_away heaps w :
  heaps_ok heaps → length heaps = N_HEAPS → Exists (λ x, 1 < x) heaps →
  ∃ heap stones_taken w',
    make_mistake heaps w = (Ret (heap, stones_taken), w')
    ∧ legal_move heaps heap stones_taken
    ∧ wins (apply_move heaps heap stones_taken).
Proof.
  intros Hok Hlen Hbig.
  destruct (make_mistake_run heaps w) as (heap & k & w' & E & Hlegal & _ & Hwrong);
    [done..|by eapply Exists_sum_pos|].
  exists heap, k, w'. split_and!; [done..|].
  apply wins_nim_sum; [by apply apply_move_ok|auto].
Qed.

(** The verdict of [cpu_losing] does not depend on the order of the
    heaps; the move of [play_correctly] does, since it takes from the
    lowest-numbered qualifying heap. *)
Lemma cpu_losing_perm heaps heaps' :
  length heaps = N_HEAPS → heaps ≡ₚ heaps' → cpu_losing heaps = cpu_losing heaps'.
Proof.
  intros Hlen Hp. assert (nim_sum heaps = nim_sum heaps') as E by by rewrite Hp.
  rewrite !cpu_losing_run, ?E; [done|by rewrite <- Hp|done].
Qed.

End decisions.

(** ** The search, by evaluation *)

(** The heaps 1, 2, 3 are lost for the player to move, the heaps 1, 2, 4
    are won, and [cpu_losing] says so. *)
Example mover_wins_example :
  mover_wins 6 [1; 2; 3] = false ∧ mover_wins 7 [1; 2; 4] = true
  ∧ cpu_losing (cfg := source_config) [1; 2; 3] = Ret true
  ∧ cpu_losing (cfg := source_config) [1; 2; 4] = Ret false.
Proof. vm_compute. done. Qed.

(** ** The theorems at concrete heaps, with the constants of the source *)

Lemma cpu_losing_optimal_witness :
  cpu_losing (cfg := source_config) [1; 2; 3] = Ret (negb (mover_wins 6 [1; 2; 3])).
Proof.
  apply (cpu_losing_optimal (cfg := source_config) 6 [1; 2; 3]);
    [compute_done|reflexivity|compute_done].
Defined.

Lemma play_correctly_optimal_witness :
  ∃ heap stones_taken,
    play_correctly (cfg := source_config) [1; 2; 4] (mkWorld [] [] [7%nat])
    = (Ret (heap, stones_taken), mkWorld [] [] [7%nat])
    ∧ legal_move [1; 2; 4] heap stones_taken
    ∧ loses (apply_move [1; 2; 4] heap stones_taken).
Proof.
  apply (play_correctly_optimal (cfg := source_config) [1; 2; 4] (mkWorld [] [] [7%nat]));
    [compute_done|reflexivity|].
  apply (mover_wins_wins 7); [compute_done|compute_done|reflexivity].
Defined.

Lemma make_mistake_gives_away_witness :
  ∃ heap stones_taken w',
    make_mistake (cfg := source_config) [1; 2; 4] (mkWorld [] [] [7%nat])
    = (Ret (heap, stones_taken), w')
    ∧ legal_move [1; 2; 4] heap stones_taken
    ∧ wins (apply_move [1; 2; 4] heap stones_taken).
Proof.
  apply (make_mistake_gives_away (cfg := source_config) [1; 2; 4] (mkWorld [] [] [7%nat]));
    [compute_done|reflexivity|compute_done].
Defined.
