(* ===== verification/HumanInput.v ===== *)
(** * HumanInput: reading and checking what the human types

    [heap_invalid], [stones_invalid], [opponent_invalid], the three
    validation loops [input_heap], [input_stones], [choose_opponent], and
    [human_turn] of src/unbeatable.py.  Each loop asks once and then asks
    again while the answer is rejected; the fuel given to the loop is the
    number of lines that standard input holds when the function is
    entered, which [wp_while_invalid] shows to be enough and which, by
    [replays], does not show in what the functions return.  The tests
    call [int] on every answer [isdigit] accepts: on an answer that is
    not [plain] they raise [ValueError], and so do the loops. *)

From S2P Require Import Prelude PyRuntime Wp Replay Quiet NimSum Config.

Section human_input.
Context {cfg : Config} {R : Type} `{!RandomSource R}.

(** [heap_invalid]: the answer is rejected unless it is the number of a
    heap that holds a stone; an empty heap is reported. *)
Definition heap_invalid (heap : string) (heaps : list Z) : M R bool :=
  if isdigit heap then
    n <- lift (py_int heap) ;;
    if bool_decide (n >= 1) && bool_decide (n <= Z.of_nat N_HEAPS) then
      heap_size <- lift (getitem heaps (Z.to_nat (n - 1))) ;;
      if bool_decide (heap_size > 0) then ret false
      else (print ("Error: heap " +:+ heap +:+ " is already empty ") ;; ret true)
    else ret true
  else ret true.

(** [stones_invalid]: the answer is rejected unless it is a number between
    one and the size of the heap. *)
Definition stones_invalid (stones_taken : string) (heap_size : Z) : outcome bool :=
  if isdigit stones_taken then
    obind (py_int stones_taken) (λ n,
      if bool_decide (n >= 1) && bool_decide (n <= heap_size) then Ret false
      else Ret true)
  else Ret true.

(** The prompts of [input_heap]: the first, and the one that follows a
    rejected answer. *)
Definition heap_prompt : string :=
  "Please select a heap (1-" +:+ py_str (Z.of_nat N_HEAPS) +:+ "): ".
Definition heap_prompt_again : string :=
  "Please enter an integer between 1 and " +:+ py_str (Z.of_nat N_HEAPS) +:+ ": ".

(** [input_heap]: the position of the heap the human chooses. *)
Definition input_heap (heaps : list Z) : M R nat := λ w,
  (heap <- input heap_prompt ;;
   heap <- while_invalid (length (stdin w)) (λ heap, heap_invalid heap heaps)
     (input heap_prompt_again) heap ;;
   n <- lift (py_int heap) ;;
   ret (Z.to_nat (n - 1))) w.

(** The prompts of [input_stones]. *)
Definition stones_prompt : string := "How many stones do you wish to remove? ".
Definition stones_prompt_again (heap_size : Z) : string :=
  "Please enter an integer between 1 and " +:+ py_str heap_size +:+ ": ".

(** [input_stones]: the number of stones the human takes from [heap]. *)
Definition input_stones (heaps : list Z) (heap : nat) : M R Z := λ w,
  (stones_taken <- input stones_prompt ;;
   stones_taken <- while_invalid (length (stdin w))
     (λ stones_taken,
        heap_size <- lift (getitem heaps heap) ;;
        lift (stones_invalid stones_taken heap_size))
     (heap_size <- lift (getitem heaps heap) ;;
      input (stones_prompt_again heap_size))
     stones_taken ;;
   print "" ;;
   lift (py_int stones_taken)) w.

(** [human_turn]: ask for a move and apply it. *)
Definition human_turn (heaps : list Z) : M R (list Z) :=
  heap <- input_heap heaps ;;
  stones_taken <- input_stones heaps heap ;;
  heap_size <- lift (getitem heaps heap) ;;
  lift (setitem heaps heap (heap_size - stones_taken)).

(** [opponent_invalid]: the answer is rejected unless it is 1 or 2. *)
Definition opponent_invalid (opponent : string) : outcome bool :=
  if isdigit opponent then
    obind (py_int opponent) (λ n,
      if bool_decide (n = 1) || bool_decide (n = 2) then Ret false else Ret true)
  else Ret true.

(** The prompts of [choose_opponent]. *)
Definition opponent_prompt : string :=
  "Press 1 for The Unbeatable Dr. Nimm " +:+ nl
  +:+ "Press 2 for The Magnanimous Dr. Nymm " +:+ nl.
Definition opponent_prompt_again : string := "Please enter 1 or 2: ".

(** [choose_opponent]: "Nymm" when the accepted answer is the string "2",
    "Nimm" otherwise. *)
Definition choose_opponent : M R string := λ w,
  (print "Choose your opponent:" ;;
   opponent <- input opponent_prompt ;;
   opponent <- while_invalid (length (stdin w))
     (λ opponent, lift (opponent_invalid opponent))
     (input opponent_prompt_again) opponent ;;
   print "" ;;
   if decide (opponent = "2") then ret "Nymm" else ret "Nimm") w.

End human_input.

(** An answer that names a heap with a stone in it. *)
Definition valid_heap (heaps : list Z) (answer : string) : Prop :=
  ∃ n x, py_int answer = Ret n ∧ 1 ≤ n ∧ heaps !! Z.to_nat (n - 1) = Some x ∧ 0 < x.

(** An answer that takes between one stone and the whole heap. *)
Definition valid_stones (heap_size : Z) (answer : string) : Prop :=
  ∃ n, py_int answer = Ret n ∧ 1 ≤ n ≤ heap_size.

(** An answer that picks an opponent. *)
Definition valid_opponent (answer : string) : Prop :=
  ∃ n, py_int answer = Ret n ∧ (n = 1 ∨ n = 2).

(** ** The three tests *)

Section tests.
Context {cfg : Config} {R : Type} `{!RandomSource R}.
Implicit Types (heaps : list Z) (w : World R) (heap : nat).

(** [heap_invalid] reads nothing, and on [N_HEAPS] heaps it accepts
    exactly the answers that name a heap with a stone; it raises only
    [ValueError], on an answer that is not plain. *)
Lemma wp_heap_invalid heaps answer w :
  length heaps = N_HEAPS →
  wp (heap_invalid answer heaps)
     (λ b w', writes w w' ∧ plain answer ∧ (b = false ↔ valid_heap heaps answer))
     (bad_digits answer w) w.
Proof.
  intros Hlen. unfold heap_invalid, valid_heap.
  destruct (isdigit_cases answer) as [Hd|[(n & -> & Hn & Hn0)|(-> & -> & ?)]];
    [|rewrite Hn|done].
  { rewrite Hd. apply wp_ret. split_and!; [done|by apply not_isdigit_plain|].
    split; [done|]. intros (n & x & Hn & _). by rewrite (py_int_isdigit _ _ Hn) in Hd. }
  pose proof (py_int_plain _ _ Hn). apply wp_bind, wp_lift_Ret.
  destruct (bool_decide (n >= 1) && bool_decide (n <= Z.of_nat N_HEAPS)) eqn:Hrange.
  2:{ apply wp_ret. split_and!; [done..|]. split; [done|].
      intros (n' & x & [= <-] & ? & Hx%lookup_lt_Some & _).
      apply andb_false_iff in Hrange as [?%bool_decide_eq_false|?%bool_decide_eq_false]; lia. }
  apply andb_true_iff in Hrange as [?%bool_decide_eq_true ?%bool_decide_eq_true].
  destruct (lookup_lt_is_Some_2 heaps (Z.to_nat (n - 1))) as [x Hx]; [lia|].
  rewrite (getitem_lookup _ _ _ Hx). apply wp_bind, wp_lift_Ret.
  case_bool_decide.
  - apply wp_ret. split_and!; [done..|]. split; [|done]. intros _.
    exists n, x. split_and!; [done|lia|done|lia].
  - apply wp_bind, wp_print, wp_ret. split_and!; [apply writes_print|done|].
    split; [done|]. intros (n' & x' & ? & ? & ? & ?). simplify_eq. lia.
Qed.

(** [stones_invalid] accepts exactly the numbers between one and the size
    of the heap; it raises [ValueError] when the answer is not plain, and
    nothing else. *)
Lemma stones_invalid_spec answer heap_size :
  (∃ b, stones_invalid answer heap_size = Ret b ∧ plain answer
        ∧ (b = false ↔ valid_stones heap_size answer))
  ∨ (stones_invalid answer heap_size = Raise ValueError ∧ ¬ plain answer).
Proof.
  unfold stones_invalid, valid_stones.
  destruct (isdigit_cases answer) as [Hd|[(n & -> & Hn & Hn0)|(-> & -> & ?)]];
    [left; rewrite Hd|left; rewrite Hn; simpl|by right].
  { exists true. split_and!; [done|by apply not_isdigit_plain|]. split; [done|].
    intros (n & Hn & _). by rewrite (py_int_isdigit _ _ Hn) in Hd. }
  pose proof (py_int_plain _ _ Hn).
  destruct (bool_decide (n >= 1) && bool_decide (n <= heap_size)) eqn:Hrange.
  - apply andb_true_iff in Hrange as [?%bool_decide_eq_true ?%bool_decide_eq_true].
    exists false. split_and!; [done..|]. split; [|done]. intros _. exists n.
    split; [done|lia].
  - exists true. split_and!; [done..|]. split; [done|]. intros (n' & [= <-] & ?).
    apply andb_false_iff in Hrange as [?%bool_decide_eq_false|?%bool_decide_eq_false]; lia.
Qed.

(** [opponent_invalid] accepts exactly 1 and 2; it raises [ValueError]
    when the answer is not plain, and nothing else. *)
Lemma opponent_invalid_spec answer :
  (∃ b, opponent_invalid answer = Ret b ∧ plain answer
        ∧ (b = false ↔ valid_opponent answer))
  ∨ (opponent_invalid answer = Raise ValueError ∧ ¬ plain answer).
Proof.
  unfold opponent_invalid, valid_opponent.
  destruct (isdigit_cases answer) as [Hd|[(n & -> & Hn & Hn0)|(-> & -> & ?)]];
    [left; rewrite Hd|left; rewrite Hn; simpl|by right].
  { exists true. split_and!; [done|by apply not_isdigit_plain|]. split; [done|].
    intros (n & Hn & _). by rewrite (py_int_isdigit _ _ Hn) in Hd. }
  pose proof (py_int_plain _ _ Hn).
  destruct (bool_decide (n = 1) || bool_decide (n = 2)) eqn:Hrange.
  - apply orb_true_iff in Hrange. exists false. split_and!; [done..|]. split; [|done].
    intros _. exists n. split; [done|]. by rewrite !bool_decide_eq_true in Hrange.
  - apply orb_false_iff in Hrange as [?%bool_decide_eq_false ?%bool_decide_eq_false].
    exists true. split_and!; [done..|]. split; [done|]. intros (n' & [= <-] & ?). lia.
Qed.

(** A pure test as a computation. *)
Lemma wp_lift_test (o : outcome bool) (V : Prop) answer w :
  (∃ b, o = Ret b ∧ plain answer ∧ (b = false ↔ V))
  ∨ (o = Raise ValueError ∧ ¬ plain answer) →
  wp (lift o) (λ b w', writes w w' ∧ plain answer ∧ (b = false → V))
     (bad_digits answer w) w.
Proof.
  intros [(b & -> & ? & Hb)|[-> ?]]; [apply wp_lift_Ret|done].
  split_and!; [done..|apply Hb].
Qed.

End tests.

(** ** The validation loops *)

Section loops.
Context {cfg : Config} {R : Type} `{!RandomSource R}.
Implicit Types (heaps : list Z) (w : World R) (heap : nat).

(** [input_heap] returns the position of a heap that holds a stone; it
    takes at least one line, and fails only at the end of the input or on
    the first line that is not plain. *)
Lemma wp_input_heap heaps w :
  length heaps = N_HEAPS →
  wp (input_heap heaps)
     (λ heap w', (∃ x, heaps !! heap = Some x ∧ 0 < x) ∧ asked w w') (input_exn w) w.
Proof.
  intros Hlen. unfold input_heap. apply (wp_ask _ _ _ _ (valid_heap heaps)); [done..| | |].
  - intros s w1. eapply wp_post; [by apply wp_heap_invalid|]. simpl.
    intros b w2 (? & ? & Hb). split_and!; [done..|apply Hb].
  - intros w1. apply wp_input_line.
  - intros s w1 (n & x & Hn & ? & Hx & ?) Ha. rewrite Hn.
    apply wp_bind, wp_lift_Ret, wp_ret. split; [by exists x|done].
Qed.

(** [input_stones] returns a number of stones between one and the size
    of the heap; it takes at least one line, and fails only at the end of
    the input or on the first line that is not plain. *)
Lemma wp_input_stones heaps heap x w :
  heaps !! heap = Some x →
  wp (input_stones heaps heap)
     (λ stones_taken w', 1 ≤ stones_taken ≤ x ∧ asked w w') (input_exn w) w.
Proof.
  intros Hx. unfold input_stones. apply (wp_ask _ _ _ _ (valid_stones x)); [done..| | |].
  - intros s w1. rewrite (getitem_lookup _ _ _ Hx). apply wp_bind, wp_lift_Ret.
    apply wp_lift_test, stones_invalid_spec.
  - intros w1. rewrite (getitem_lookup _ _ _ Hx). apply wp_bind, wp_lift_Ret, wp_input_line.
  - intros s w1 (n & Hn & ?) Ha. rewrite Hn. apply wp_bind, wp_print, wp_lift_Ret.
    split; [done|]. eapply asked_writes; [done|apply writes_print].
Qed.

(** The move of the human is legal: [human_turn] returns the heaps after
    a legal move, takes at least one line, draws no random number, and
    fails only at the end of the input or on the first line that is not
    plain. *)
Lemma wp_human_turn heaps w :
  length heaps = N_HEAPS →
  wp (human_turn heaps)
     (λ heaps' w', (∃ heap stones_taken,
                      legal_move heaps heap stones_taken
                      ∧ heaps' = apply_move heaps heap stones_taken)
                   ∧ asked w w') (input_exn w) w.
Proof.
  intros Hlen. unfold human_turn. apply wp_bind_input.
  eapply wp_post; [by apply wp_input_heap|]. simpl.
  intros heap w1 [(x & Hx & Hpos) Ha1]. split; [by apply asked_steps|].
  apply wp_bind. eapply wp_post; [by apply wp_input_stones|]. simpl.
  intros k w2 [Hk Ha2]. rewrite (getitem_lookup _ _ _ Hx).
  apply wp_bind, wp_lift_Ret. rewrite setitem_Ret by by eapply lookup_lt_Some.
  apply wp_lift_Ret. split; [|by etrans].
  exists heap, k. split; [by exists x|]. unfold apply_move. by rewrite Hx.
Qed.

(** [choose_opponent] returns "Nimm" or "Nymm" and fails only at the end
    of the input or on the first line that is not plain. *)
Lemma wp_choose_opponent w :
  wp choose_opponent
     (λ opponent w', (opponent = "Nimm" ∨ opponent = "Nymm") ∧ asked w w')
     (input_exn w) w.
Proof.
  unfold choose_opponent. apply wp_bind, wp_print.
  apply (wp_ask _ _ _ _ valid_opponent); [apply writes_print|done| | |].
  - intros s w1. apply wp_lift_test, opponent_invalid_spec.
  - intros w1. apply wp_input_line.
  - intros s w1 _ Ha. apply wp_bind, wp_print.
    assert (asked w (mkWorld (stdin w1) (stdout w1 ++ ["" +:+ nl]) (rand w1)))
      by (eapply asked_writes; [done|apply writes_print]).
    case_decide; apply wp_ret; auto.
Qed.

End loops.

(** ** What the functions depend on *)

Section replay.
Context {cfg : Config} {R : Type} `{!RandomSource R}.
Implicit Types (heaps : list Z) (heap : nat).

(** The functions that ask depend on the lines they take, and on no
    other: the number of lines left, which the model gives the loops as
    fuel, does not show in what they return. *)
Lemma replays_choose_opponent : replays (λ _, choose_opponent (R := R)).
Proof. unfold choose_opponent. stdin_fuel. replays_tac. Qed.

Lemma replays_input_heap heaps : replays (λ _, input_heap (R := R) heaps).
Proof. unfold input_heap, heap_invalid. stdin_fuel. replays_tac. Qed.

Lemma replays_input_stones heaps heap : replays (λ _, input_stones (R := R) heaps heap).
Proof. unfold input_stones. stdin_fuel. replays_tac. Qed.

Lemma replays_human_turn heaps : replays (λ _, human_turn (R := R) heaps).
Proof.
  unfold human_turn. pose proof replays_input_heap. pose proof replays_input_stones.
  replays_tac.
Qed.

End replay.

#[export] Hint Resolve replays_choose_opponent replays_human_turn : replays.

Section quiet.
Context {cfg : Config} {R : Type} `{!RandomSource R}.
Implicit Types (heaps : list Z) (heap : nat) (w : World R).

(** The functions that ask draw no random number, however they end. *)
Lemma quiet_choose_opponent w : quiet choose_opponent w.
Proof. unfold choose_opponent, quiet. cbv beta. quiet_tac. Qed.

Lemma quiet_input_heap heaps w : quiet (input_heap heaps) w.
Proof. unfold input_heap, heap_invalid, quiet. cbv beta. quiet_tac. Qed.

Lemma quiet_input_stones heaps heap w : quiet (input_stones heaps heap) w.
Proof. unfold input_stones, quiet. cbv beta. quiet_tac. Qed.

Lemma quiet_human_turn heaps w : quiet (human_turn heaps) w.
Proof.
  unfold human_turn. pose proof quiet_input_heap. pose proof quiet_input_stones.
  quiet_tac.
Qed.

End quiet.

#[export] Hint Resolve quiet_choose_opponent quiet_human_turn : quiet.

(** ** What the functions do on given input *)

(** [skip_rejected V rejected accepted rest] runs the validation loop of
    the goal over the lines [rejected], which the test rejects without
    reading, up to the line [accepted], which satisfies [V]; it leaves the
    facts the run depends on and the goal after the loop. *)
Ltac skip_rejected V rejected accepted rest :=
  lazymatch goal with
  | |- context [bind (while_invalid ?fuel ?invalid ?again ?answer) _ (mkWorld _ ?out ?r)] =>
      let Hloop := fresh "Hloop" in
      let J := lazymatch goal with _ : Forall ?J rejected |- _ => J end in
      destruct (while_invalid_skips V J invalid again fuel rejected answer accepted
                  rest out r) as [? Hloop];
      [try by eexists| | |done|done| |rewrite length_app; simpl; lia
       |rewrite (bind_run _ _ _ _ _ Hloop)]
  end.

Section answers.
Context {cfg : Config} {R : Type} `{!RandomSource R}.
Implicit Types (heaps : list Z) (w : World R) (heap : nat).

(** A valid answer passes [heap_invalid] without any effect. *)
Lemma heap_invalid_valid heaps answer n x w :
  length heaps = N_HEAPS → py_int answer = Ret n → 1 ≤ n →
  heaps !! Z.to_nat (n - 1) = Some x → 0 < x →
  heap_invalid answer heaps w = (Ret false, w).
Proof.
  intros Hlen Hn Hn1 Hx Hpos. pose proof (lookup_lt_Some _ _ _ Hx).
  unfold heap_invalid. rewrite (py_int_isdigit _ _ Hn), Hn, bind_lift_Ret.
  rewrite !bool_decide_eq_true_2 by lia. simpl.
  rewrite (getitem_lookup _ _ _ Hx), bind_lift_Ret. by rewrite bool_decide_eq_true_2 by lia.
Qed.

(** A valid answer passes [stones_invalid]. *)
Lemma stones_invalid_valid answer n heap_size :
  py_int answer = Ret n → 1 ≤ n ≤ heap_size → stones_invalid answer heap_size = Ret false.
Proof.
  intros Hn Hr. unfold stones_invalid. rewrite (py_int_isdigit _ _ Hn), Hn. simpl.
  by rewrite !bool_decide_eq_true_2 by lia.
Qed.

(** A valid answer passes [opponent_invalid]. *)
Lemma opponent_invalid_valid answer :
  valid_opponent answer → opponent_invalid answer = Ret false.
Proof.
  intros (n & Hn & Hn12). unfold opponent_invalid.
  rewrite (py_int_isdigit _ _ Hn), Hn. simpl. by destruct Hn12 as [-> | ->].
Qed.

(** An answer that is not plain makes the tests raise [ValueError]. *)
Lemma heap_invalid_not_plain heaps answer w :
  ¬ plain answer → heap_invalid answer heaps w = (Raise ValueError, w).
Proof. intros [Hd Hn]%not_plain_py_int. unfold heap_invalid. by rewrite Hd, Hn. Qed.

Lemma opponent_invalid_not_plain answer :
  ¬ plain answer → opponent_invalid answer = Raise ValueError.
Proof. intros [Hd Hn]%not_plain_py_int. unfold opponent_invalid. by rewrite Hd, Hn. Qed.

(** A plain answer that is not valid is rejected, and nothing is read. *)
Lemma heap_invalid_rejects heaps answer w :
  length heaps = N_HEAPS → plain answer ∧ ¬ valid_heap heaps answer →
  ∃ out', heap_invalid answer heaps w = (Ret true, mkWorld (stdin w) out' (rand w)).
Proof.
  intros Hlen [Hplain Hanswer].
  destruct (wp_no_exn_inv _ _ _ (wp_plain _ _ _ _ Hplain (wp_heap_invalid heaps answer w Hlen)))
    as (b & [i out' r'] & E & (Hin & _ & Hrand) & _ & Hb).
  simpl in *. subst i r'. exists out'. destruct b; [done|]. destruct Hanswer. by apply Hb.
Qed.

(** A valid first answer is taken at once. *)
Lemma input_heap_run heaps w line rest n x :
  length heaps = N_HEAPS → stdin w = line :: rest →
  py_int line = Ret n → 1 ≤ n → heaps !! Z.to_nat (n - 1) = Some x → 0 < x →
  input_heap heaps w =
    (Ret (Z.to_nat (n - 1)),
     mkWorld rest
       (stdout w ++ [heap_prompt])
       (rand w)).
Proof.
  intros Hlen Hw Hn Hn1 Hx Hpos. unfold input_heap.
  rewrite (bind_run _ _ _ _ _ (input_cons _ w _ _ Hw)).
  rewrite (bind_run _ _ _ _ _ (while_invalid_accepts _ _ _ _ _ _
    (heap_invalid_valid heaps line n x _ Hlen Hn Hn1 Hx Hpos))).
  by rewrite Hn.
Qed.

Lemma input_stones_run heaps heap w line rest k x :
  heaps !! heap = Some x → stdin w = line :: rest →
  py_int line = Ret k → 1 ≤ k ≤ x →
  input_stones heaps heap w =
    (Ret k,
     mkWorld rest (stdout w ++ [stones_prompt; nl])
       (rand w)).
Proof.
  intros Hx Hw Hk Hkx. unfold input_stones.
  rewrite (bind_run _ _ _ _ _ (input_cons _ w _ _ Hw)).
  erewrite (bind_run (while_invalid _ _ _ _)).
  2:{ apply while_invalid_accepts. rewrite (getitem_lookup _ _ _ Hx), bind_lift_Ret.
      by rewrite (stones_invalid_valid _ k). }
  rewrite Hk. unfold print, bind, lift. simpl. by rewrite <- app_assoc.
Qed.

(** The two lines that make the move [(heap, stones_taken)], when the
    numbers are small enough to be typed. *)
Lemma human_turn_run heaps heap stones_taken x rest w :
  length heaps = N_HEAPS → heaps !! heap = Some x → 1 ≤ stones_taken ≤ x →
  short (Z.of_nat N_HEAPS) → short stones_taken →
  stdin w = py_str (Z.of_nat heap + 1) :: py_str stones_taken :: rest →
  human_turn heaps w =
    (Ret (apply_move heaps heap stones_taken),
     mkWorld rest
       (stdout w ++ [heap_prompt; stones_prompt; nl])
       (rand w)).
Proof.
  intros Hlen Hx Hk HN Hshort Hw. unfold human_turn.
  assert (Z.to_nat (Z.of_nat heap + 1 - 1) = heap) as Hheap by lia.
  pose proof (lookup_lt_Some _ _ _ Hx) as Hheap_lt.
  erewrite (bind_run (input_heap _)).
  2:{ eapply (input_heap_run _ _ _ _ (Z.of_nat heap + 1) x); [done..| |lia| |lia].
      - apply py_int_py_str; [lia|]. apply (short_le _ (Z.of_nat N_HEAPS)); [lia|done].
      - by rewrite Hheap. }
  rewrite Hheap. erewrite (bind_run (input_stones _ _)).
  2:{ eapply (input_stones_run _ _ _ _ _ stones_taken x); [done..| |done].
      by apply py_int_py_str; [lia|]. }
  rewrite (getitem_lookup _ _ _ Hx), bind_lift_Ret.
  rewrite setitem_Ret by by eapply lookup_lt_Some.
  unfold lift, apply_move. simpl. by rewrite Hx, <- !app_assoc.
Qed.

(** On [N_HEAPS] heaps [heap_invalid] returns unless the answer is
    not plain: it reads nothing from standard input and returns [False]
    exactly for the answers that name a heap with a stone, or the answer
    is accepted by [isdigit] and rejected by [int], and it raises
    [ValueError]. *)
Lemma heap_invalid_correct heaps answer w :
  length heaps = N_HEAPS →
  (∃ b w', heap_invalid answer heaps w = (Ret b, w')
           ∧ (b = false ↔ valid_heap heaps answer) ∧ writes w w')
  ∨ (heap_invalid answer heaps w = (Raise ValueError, w) ∧ ¬ plain answer).
Proof.
  intros Hlen. destruct (decide (plain answer)) as [Hplain|Hplain].
  - destruct (wp_no_exn_inv _ _ _
      (wp_plain _ _ _ _ Hplain (wp_heap_invalid heaps answer w Hlen)))
      as (b & w' & E & ? & ? & ?). left. by exists b, w'.
  - right. split; [|done]. by apply heap_invalid_not_plain.
Qed.

(** C25: [human_turn] makes a legal move, reaches the end of the input, or
    fails on a line that is not plain.  It returns the heaps after a legal
    move, having taken at least one line, all of them plain, and drawn no
    random number; or it raises [EOFError], having taken every line of
    the input, all of them plain; or it raises [ValueError], and the last
    line it took is the first line of the input that is accepted by
    [isdigit] and rejected by [int]. *)
Theorem human_turn_legal heaps w :
  length heaps = N_HEAPS →
  (∃ heap stones_taken w',
      human_turn heaps w = (Ret (apply_move heaps heap stones_taken), w')
      ∧ legal_move heaps heap stones_taken ∧ asked w w')
  ∨ (∃ w', human_turn heaps w = (Raise EOFError, w') ∧ at_eof w w')
  ∨ (∃ w', human_turn heaps w = (Raise ValueError, w') ∧ bad_line w w').
Proof.
  intros Hlen. destruct (wp_input_exn_inv _ _ _ (wp_human_turn heaps w Hlen))
    as [(heaps' & w' & E & (heap & k & ? & ->) & ?)|?]; [left|by right].
  by exists heap, k, w'.
Qed.

(** [input_heap] returns the first valid answer: the plain lines that do
    not name a heap with a stone are skipped, one prompt each, the first
    line that does is returned as a position, and the lines after it are
    left on standard input. *)
Lemma input_heap_first_valid heaps rejected accepted rest out (r : R) n x :
  length heaps = N_HEAPS → Forall (λ s, plain s ∧ ¬ valid_heap heaps s) rejected →
  py_int accepted = Ret n → 1 ≤ n → heaps !! Z.to_nat (n - 1) = Some x → 0 < x →
  ∃ out',
    input_heap heaps (mkWorld (rejected ++ accepted :: rest) out r)
    = (Ret (Z.to_nat (n - 1)), mkWorld rest out' r).
Proof.
  intros Hlen Hrejected Hn Hn1 Hx Hpos.
  destruct Hrejected as [|answer rejected Hanswer Hrejected].
  { eexists. by eapply input_heap_run. }
  unfold input_heap.
  rewrite (bind_run _ _ _ _ _
             (input_cons _ (mkWorld ((answer :: rejected) ++ accepted :: rest) out r)
                answer (rejected ++ accepted :: rest) eq_refl)).
  cbn [stdin stdout rand]. skip_rejected (valid_heap heaps) rejected accepted rest.
  - intros s w (n' & x' & ? & ? & ? & ?). by eapply heap_invalid_valid.
  - intros s w. by apply heap_invalid_rejects.
  - by exists n, x.
  - rewrite Hn. by eexists.
Qed.

(** A plain answer that is not a number of stones the heap holds is
    rejected. *)
Lemma stones_invalid_rejects answer heap_size :
  plain answer ∧ ¬ valid_stones heap_size answer → stones_invalid answer heap_size = Ret true.
Proof.
  intros [Hplain Hanswer].
  destruct (stones_invalid_spec answer heap_size) as [(b & -> & _ & Hb)|[_ ?]]; [|done].
  destruct b; [done|]. destruct Hanswer. by apply Hb.
Qed.

(** ... and so does [input_stones]: the plain lines that are not a number
    of stones the heap holds are skipped. *)
Lemma input_stones_first_valid heaps heap rejected accepted rest out (r : R) k x :
  heaps !! heap = Some x → Forall (λ s, plain s ∧ ¬ valid_stones x s) rejected →
  py_int accepted = Ret k → 1 ≤ k ≤ x →
  ∃ out',
    input_stones heaps heap (mkWorld (rejected ++ accepted :: rest) out r)
    = (Ret k, mkWorld rest out' r).
Proof.
  intros Hx Hrejected Hk Hkx.
  destruct Hrejected as [|answer rejected Hanswer Hrejected].
  { eexists. by eapply input_stones_run. }
  unfold input_stones.
  rewrite (bind_run _ _ _ _ _
             (input_cons _ (mkWorld ((answer :: rejected) ++ accepted :: rest) out r)
                answer (rejected ++ accepted :: rest) eq_refl)).
  cbn [stdin stdout rand]. rewrite (getitem_lookup _ _ _ Hx).
  skip_rejected (valid_stones x) rejected accepted rest.
  - intros s w (k' & ? & ?). by rewrite bind_lift_Ret, (stones_invalid_valid s k').
  - intros s [i o r'] Hs. exists o. by rewrite bind_lift_Ret, (stones_invalid_rejects s).
  - by exists k.
  - rewrite Hk. unfold print, bind, lift. simpl. by eexists.
Qed.

(** C26: the numbers the human types are read back.  The heaps are shown
    numbered from one: when the human types [str(heap + 1)] for a heap
    that holds a stone, [input_heap] asks once, reads that line and
    returns the position [heap], and when the human types [str(k)] for a
    number of stones that heap holds, [input_stones] asks once, reads that
    line and returns [k].  The numbers are small enough for [int] to read
    their decimal strings. *)
Theorem typed_numbers_roundtrip heaps heap x k rest out (r : R) :
  length heaps = N_HEAPS → heaps !! heap = Some x → 1 ≤ k ≤ x →
  short (Z.of_nat N_HEAPS) → short k →
  input_heap heaps (mkWorld (py_str (Z.of_nat heap + 1) :: rest) out r)
  = (Ret heap, mkWorld rest (out ++ [heap_prompt]) r)
  ∧ input_stones heaps heap (mkWorld (py_str k :: rest) out r)
    = (Ret k, mkWorld rest (out ++ [stones_prompt; nl]) r).
Proof.
  intros Hlen Hx Hk HN Hshort. pose proof (lookup_lt_Some _ _ _ Hx). split.
  - assert (Z.to_nat (Z.of_nat heap + 1 - 1) = heap) as Hheap by lia.
    erewrite (input_heap_run heaps _ _ rest (Z.of_nat heap + 1) x);
      [by rewrite Hheap|done|done| |lia|by rewrite Hheap|lia].
    apply py_int_py_str; [lia|]. apply (short_le _ (Z.of_nat N_HEAPS)); [lia|done].
  - erewrite (input_stones_run heaps heap _ _ rest k x); [done..| |done].
    by apply py_int_py_str; [lia|].
Qed.

(** Two valid answers are taken at once: when the first line names a heap
    with a stone and the second a number of stones that heap holds,
    [human_turn] asks twice, reads these two lines and takes the stones. *)
Lemma human_turn_accepts heaps w line1 line2 rest n x k :
  length heaps = N_HEAPS → stdin w = line1 :: line2 :: rest →
  py_int line1 = Ret n → 1 ≤ n → heaps !! Z.to_nat (n - 1) = Some x →
  py_int line2 = Ret k → 1 ≤ k ≤ x →
  human_turn heaps w =
    (Ret (<[Z.to_nat (n - 1) := x - k]> heaps),
     mkWorld rest
       (stdout w ++ [heap_prompt; stones_prompt; nl])
       (rand w)).
Proof.
  intros Hlen Hw Hn Hn1 Hx Hk Hkx. unfold human_turn.
  rewrite (bind_run _ _ _ _ _ (input_heap_run heaps w _ _ n x Hlen Hw Hn Hn1 Hx ltac:(lia))).
  erewrite (bind_run (input_stones _ _)); [|by eapply input_stones_run].
  rewrite (getitem_lookup _ _ _ Hx), bind_lift_Ret.
  rewrite setitem_Ret by by eapply lookup_lt_Some.
  unfold lift. simpl. by rewrite <- !app_assoc.
Qed.

(** C27: [human_turn] makes the first valid move that is typed.  The plain
    lines that do not name a heap with a stone are skipped, and the first
    line that does chooses the heap; then the plain lines that are not a
    number of stones that heap holds are skipped, and the first line that
    is one is the number taken.  The lines after it are left on standard
    input, and no random number is drawn. *)
Theorem human_turn_first_valid heaps rejected1 accepted1 rejected2 accepted2 rest out
    (r : R) n x k :
  length heaps = N_HEAPS →
  Forall (λ s, plain s ∧ ¬ valid_heap heaps s) rejected1 →
  py_int accepted1 = Ret n → 1 ≤ n → heaps !! Z.to_nat (n - 1) = Some x → 0 < x →
  Forall (λ s, plain s ∧ ¬ valid_stones x s) rejected2 →
  py_int accepted2 = Ret k → 1 ≤ k ≤ x →
  ∃ out',
    human_turn heaps
      (mkWorld (rejected1 ++ accepted1 :: rejected2 ++ accepted2 :: rest) out r)
    = (Ret (<[Z.to_nat (n - 1) := x - k]> heaps), mkWorld rest out' r).
Proof.
  intros Hlen Hrej1 Hn Hn1 Hx Hpos Hrej2 Hk Hkx. unfold human_turn.
  destruct (input_heap_first_valid heaps rejected1 accepted1
              (rejected2 ++ accepted2 :: rest) out r n x) as [out1 Hheap]; [done..|].
  destruct (input_stones_first_valid heaps (Z.to_nat (n - 1)) rejected2 accepted2 rest
              out1 r k x) as [out2 Hstones]; [done..|].
  rewrite (bind_run _ _ _ _ _ Hheap), (bind_run _ _ _ _ _ Hstones).
  rewrite (getitem_lookup _ _ _ Hx), bind_lift_Ret.
  rewrite setitem_Ret by by eapply lookup_lt_Some. by exists out2.
Qed.

(** At the end of the input [human_turn] raises [EOFError], after
    writing its first prompt. *)
Lemma human_turn_eof heaps w :
  stdin w = [] →
  human_turn heaps w =
    (Raise EOFError,
     mkWorld [] (stdout w ++ [heap_prompt])
       (rand w)).
Proof.
  intros Hw. unfold human_turn. apply bind_run_Raise. unfold input_heap.
  by apply bind_run_Raise, input_nil.
Qed.

(** [choose_opponent] takes a valid first answer at once, and the
    opponent is Dr. Nymm exactly when that answer is the string "2". *)
Lemma choose_opponent_run w line rest n :
  stdin w = line :: rest → py_int line = Ret n → n = 1 ∨ n = 2 →
  choose_opponent w =
    (Ret (if decide (line = "2") then "Nymm" else "Nimm"),
     mkWorld rest
       (stdout w ++ ["Choose your opponent:" +:+ nl; opponent_prompt; nl])
       (rand w)).
Proof.
  intros Hw Hn Hn12. unfold choose_opponent. unfold print at 1, bind at 1.
  erewrite (bind_run (input _)); [|by apply input_cons]. simpl.
  erewrite (bind_run (while_invalid _ _ _ _)).
  2:{ apply while_invalid_accepts. unfold lift.
      rewrite (opponent_invalid_valid line); [done|by exists n]. }
  unfold print, bind, ret. simpl. rewrite <- !app_assoc. by case_decide.
Qed.

(** A first answer that is not plain makes [choose_opponent] raise
    [ValueError]. *)
Lemma choose_opponent_not_plain w line rest :
  stdin w = line :: rest → ¬ plain line →
  ∃ out', choose_opponent w = (Raise ValueError, mkWorld rest out' (rand w)).
Proof.
  intros Hw Hline. eexists. unfold choose_opponent, print at 1, bind at 1.
  erewrite (bind_run (input _)); [|by apply input_cons].
  apply bind_run_Raise, while_invalid_test_Raise. unfold lift.
  by rewrite opponent_invalid_not_plain.
Qed.

(** ... and so it does [human_turn]. *)
Lemma human_turn_not_plain heaps w line rest :
  stdin w = line :: rest → ¬ plain line →
  ∃ out', human_turn heaps w = (Raise ValueError, mkWorld rest out' (rand w)).
Proof.
  intros Hw Hline. eexists. unfold human_turn. apply bind_run_Raise. unfold input_heap.
  erewrite (bind_run (input _)); [|by apply input_cons].
  by apply bind_run_Raise, while_invalid_test_Raise, heap_invalid_not_plain.
Qed.

(** ... and [choose_opponent] as a specification says so. *)
Lemma wp_choose_opponent_first w :
  wp choose_opponent
     (λ opponent w',
        (opponent = "Nimm" ∨ opponent = "Nymm") ∧ asked w w'
        ∧ ∀ line rest n, stdin w = line :: rest → py_int line = Ret n → n = 1 ∨ n = 2 →
            opponent = if decide (line = "2") then "Nymm" else "Nimm")
     (input_exn w) w.
Proof.
  pose proof (wp_choose_opponent w) as H. unfold wp in *.
  destruct (choose_opponent w) as [[o| |] w'] eqn:E; [|done..].
  destruct H. split_and!; [done..|]. intros line rest n Hin Hn Hn12.
  rewrite (choose_opponent_run w line rest n Hin Hn Hn12) in E. by injection E.
Qed.

(** C28: [choose_opponent] takes the first valid answer: the plain lines
    that are not the number 1 or 2 are skipped, and the opponent is
    Dr. Nymm exactly when the first line that is such a number is the
    string "2"; the lines after it are left on standard input. *)
Theorem choose_opponent_first_valid rejected accepted rest out (r : R) n :
  Forall (λ s, plain s ∧ ¬ valid_opponent s) rejected →
  py_int accepted = Ret n → n = 1 ∨ n = 2 →
  ∃ out',
    choose_opponent (mkWorld (rejected ++ accepted :: rest) out r)
    = (Ret (if decide (accepted = "2") then "Nymm" else "Nimm"), mkWorld rest out' r).
Proof.
  intros Hrejected Hn Hn12.
  destruct Hrejected as [|answer rejected Hanswer Hrejected].
  { eexists. by eapply choose_opponent_run. }
  unfold choose_opponent, print at 1, bind at 1. cbn [stdin stdout rand].
  erewrite (bind_run (input _)); [|by apply input_cons]. cbn [stdin stdout rand].
  skip_rejected valid_opponent rejected accepted rest.
  - intros s w Hs. unfold lift. by rewrite (opponent_invalid_valid s).
  - intros s w [Hplain Hs]. exists (stdout w). unfold lift.
    destruct (opponent_invalid_spec s) as [(b & -> & _ & Hiff)|[_ ?]]; [|done].
    destruct w, b; [done|]. destruct Hs. by apply Hiff.
  - by exists n.
  - unfold print, bind, ret. simpl. eexists. by case_decide.
Qed.

(** The answer "02" is accepted as a choice of opponent, since it is
    the number 2, and selects Dr. Nimm, since it is not the string "2". *)
Lemma choose_opponent_leading_zero w rest :
  stdin w = "02" :: rest →
  ∃ w', choose_opponent w = (Ret "Nimm", w') ∧ stdin w' = rest.
Proof.
  destruct w as [i o r]. simpl. intros ->. eexists. split; [by vm_compute|done].
Qed.

End answers.

Example human_turn_example :
  human_turn (cfg := source_config) [1; 0; 3]
    (mkWorld ["x"; "0"; "4"; "2"; "3"; ""; "4"; "2"; "rest"] [] ([] : list nat))
  = (Ret [1; 0; 1],
     mkWorld ["rest"]
       ["Please select a heap (1-3): ";
        "Please enter an integer between 1 and 3: ";
        "Please enter an integer between 1 and 3: ";
        "Please enter an integer between 1 and 3: ";
        "Error: heap 2 is already empty " +:+ nl;
        "Please enter an integer between 1 and 3: ";
        "How many stones do you wish to remove? ";
        "Please enter an integer between 1 and 3: ";
        "Please enter an integer between 1 and 3: ";
        nl] []).
Proof. vm_compute. reflexivity. Qed.

(** ** The theorems at concrete inputs, with the constants of the source *)

Lemma heap_invalid_correct_witness :
  (∃ b w', heap_invalid (cfg := source_config) "2" [1; 0; 3] (mkWorld [] [] [7%nat])
           = (Ret b, w')
           ∧ (b = false ↔ valid_heap [1; 0; 3] "2") ∧ writes (mkWorld [] [] [7%nat]) w')
  ∨ (heap_invalid (cfg := source_config) "2" [1; 0; 3] (mkWorld [] [] [7%nat])
     = (Raise ValueError, mkWorld [] [] [7%nat]) ∧ ¬ plain "2").
Proof. apply (heap_invalid_correct (cfg := source_config)). reflexivity. Defined.

Lemma human_turn_first_valid_witness :
  ∃ out',
    human_turn (cfg := source_config) [1; 0; 3]
      (mkWorld (["x"; "0"; "4"; "2"] ++ "3" :: [""; "4"] ++ "2" :: ["rest"]) [] [7%nat])
    = (Ret (<[Z.to_nat (3 - 1) := 3 - 2]> [1; 0; 3]), mkWorld ["rest"] out' [7%nat]).
Proof.
  apply (human_turn_first_valid (cfg := source_config) [1; 0; 3] ["x"; "0"; "4"; "2"]
           "3" [""; "4"] "2" ["rest"] [] [7%nat] 3 3 2);
    [reflexivity| |reflexivity|lia|reflexivity|lia| |reflexivity|lia].
  - repeat constructor; try compute_done; intros (n & x & Hn & ? & Hx & ?);
      vm_compute in Hn; simplify_eq; vm_compute in Hx; simplify_eq; lia.
  - repeat constructor; try compute_done; intros (n & Hn & ?);
      vm_compute in Hn; simplify_eq; lia.
Defined.

Lemma typed_numbers_roundtrip_witness :
  input_heap (cfg := source_config) [1; 0; 3] (mkWorld (py_str (Z.of_nat 2 + 1) :: ["2"]) [] [7%nat])
  = (Ret 2%nat, mkWorld ["2"] ([] ++ ["Please select a heap (1-" +:+ py_str (Z.of_nat 3) +:+ "): "]) [7%nat])
  ∧ input_stones [1; 0; 3] 2 (mkWorld (py_str 2 :: ["2"]) [] [7%nat])
    = (Ret 2, mkWorld ["2"] ([] ++ [stones_prompt; nl]) [7%nat]).
Proof.
  apply (typed_numbers_roundtrip (cfg := source_config) [1; 0; 3] 2 3 2 ["2"] [] [7%nat]);
    first [reflexivity | simpl; lia | compute_done].
Defined.

Lemma human_turn_legal_witness :
  (∃ heap stones_taken w',
      human_turn (cfg := source_config) [1; 0; 3] (mkWorld ["3"; "2"] [] [7%nat])
      = (Ret (apply_move [1; 0; 3] heap stones_taken), w')
      ∧ legal_move [1; 0; 3] heap stones_taken
      ∧ asked (mkWorld ["3"; "2"] [] [7%nat]) w')
  ∨ (∃ w', human_turn (cfg := source_config) [1; 0; 3] (mkWorld ["3"; "2"] [] [7%nat])
           = (Raise EOFError, w') ∧ at_eof (mkWorld ["3"; "2"] [] [7%nat]) w')
  ∨ (∃ w', human_turn (cfg := source_config) [1; 0; 3] (mkWorld ["3"; "2"] [] [7%nat])
           = (Raise ValueError, w') ∧ bad_line (mkWorld ["3"; "2"] [] [7%nat]) w').
Proof. apply (human_turn_legal (cfg := source_config)). reflexivity. Defined.

Lemma human_turn_eof_witness :
  human_turn (cfg := source_config) [1; 0; 3] (mkWorld [] [] [7%nat])
  = (Raise EOFError, mkWorld [] ["Please select a heap (1-3): "] [7%nat]).
Proof. apply (human_turn_eof (cfg := source_config)). reflexivity. Defined.

Lemma choose_opponent_first_valid_witness :
  ∃ out',
    choose_opponent (mkWorld (["x"; "3"; ""] ++ "2" :: ["rest"]) [] [7%nat])
    = (Ret (if decide ("2" = "2") then "Nymm" else "Nimm"), mkWorld ["rest"] out' [7%nat]).
Proof.
  apply (choose_opponent_first_valid ["x"; "3"; ""] "2" ["rest"] [] [7%nat] 2);
    [|reflexivity|by right].
  repeat constructor; try compute_done; intros (n & Hn & ?); vm_compute in Hn;
    simplify_eq; lia.
Defined.

Lemma choose_opponent_leading_zero_witness :
  ∃ w', choose_opponent (mkWorld ["02"; "rest"] [] [7%nat]) = (Ret "Nimm", w')
        ∧ stdin w' = ["rest"].
Proof.
  apply (choose_opponent_leading_zero (mkWorld ["02"; "rest"] [] [7%nat])). reflexivity.
Defined.
