(* ===== verification/Turn.v ===== *)
(** * Turn: one turn of the game

    [switch_player], [display_heaps], [cpu_turn] and [player_turn] of
    src/unbeatable.py.  [error_trigger] holds an integer until Dr. Nymm
    makes his mistake and [float("-inf")] from then on; [trigger] is the
    type of these values and [below] the comparison [n < error_trigger]. *)

From S2P Require Import Prelude PyRuntime Wp Replay Quiet NimSum Config Engine HumanInput.

(** The values of [error_trigger]. *)
Inductive trigger : Type :=
  | Finite (n : Z)
  | NegInf.

(** [n < error_trigger] *)
Definition below (n : Z) (error_trigger : trigger) : bool :=
  match error_trigger with
  | Finite m => bool_decide (n < m)
  | NegInf => false
  end.

(** Returns 2 if player is 1 and 1 if player is 2. *)
Definition switch_player (player : Z) : Z := 3 - player.

(** Does Dr. Nymm make his mistake on this turn? *)
Definition cpu_errs (heaps : list Z) (error_trigger : trigger) (opponent : string) : bool :=
  bool_decide (opponent = "Nymm") && below (py_sum heaps) error_trigger.

(** The line [cpu_turn] writes to announce its move. *)
Definition cpu_line (opponent : string) (heap : nat) (stones_taken : Z) : string :=
  ("Dr. " +:+ opponent +:+ " removes " +:+ py_str stones_taken
   +:+ " stones from heap " +:+ py_str (Z.of_nat heap + 1)) +:+ nl.

(** The line [display_heaps] writes for heap [i] of size [heap_size]. *)
Definition heap_line (i : nat) (heap_size : Z) : string :=
  ("Heap " +:+ py_str (Z.of_nat i + 1) +:+ ": " +:+ py_str heap_size) +:+ nl.

Section turn.
Context {cfg : Config} {R : Type} `{!RandomSource R}.

(** [display_heaps]: one line per heap. *)
Definition display_heaps (heaps : list Z) : M R unit :=
  for_each (seq 0 N_HEAPS) (λ i,
    heap_size <- lift (getitem heaps i) ;;
    print ("Heap " +:+ py_str (Z.of_nat i + 1) +:+ ": " +:+ py_str heap_size)).

(** [cpu_turn]: the wrong move once, when Dr. Nymm plays and the stones
    left are fewer than the trigger; the right move otherwise. *)
Definition cpu_turn (heaps : list Z) (error_trigger : trigger) (opponent : string)
    : M R (list Z * trigger) :=
  decision <-
    (if bool_decide (opponent = "Nymm") && below (py_sum heaps) error_trigger then
       move <- make_mistake heaps ;;
       ret (move, NegInf)
     else
       move <- play_correctly heaps ;;
       ret (move, error_trigger)) ;;
  let heap := decision.1.1 in
  let stones_taken := decision.1.2 in
  let error_trigger := decision.2 in
  print ("Dr. " +:+ opponent +:+ " removes " +:+ py_str stones_taken
         +:+ " stones from heap " +:+ py_str (Z.of_nat heap + 1)) ;;
  print "" ;;
  heap_size <- lift (getitem heaps heap) ;;
  heaps <- lift (setitem heaps heap (heap_size - stones_taken)) ;;
  ret (heaps, error_trigger).

(** [player_turn]: show the heaps, let the player whose turn it is move,
    and pass the turn. *)
Definition player_turn (heaps : list Z) (player : Z) (error_trigger : trigger)
    (opponent : string) : M R (list Z * Z * trigger) :=
  display_heaps heaps ;;
  turn <-
    (if bool_decide (player = CPU_PLAYER) then
       cpu_turn heaps error_trigger opponent
     else
       heaps <- human_turn heaps ;;
       ret (heaps, error_trigger)) ;;
  let player := switch_player player in
  ret (turn.1, player, turn.2).

End turn.

(** ** The trigger and the players *)

Lemma cpu_errs_NegInf heaps opponent : cpu_errs heaps NegInf opponent = false.
Proof. unfold cpu_errs. by rewrite andb_false_r. Qed.

Lemma cpu_errs_Nimm heaps error_trigger opponent :
  opponent ≠ "Nymm" → cpu_errs heaps error_trigger opponent = false.
Proof. intros. unfold cpu_errs. by rewrite bool_decide_eq_false_2. Qed.

(** With no more stones than are left the trigger is not reached. *)
Lemma cpu_errs_above heaps n opponent :
  n ≤ py_sum heaps → cpu_errs heaps (Finite n) opponent = false.
Proof.
  intros. unfold cpu_errs, below. rewrite (bool_decide_eq_false_2 (_ < _)) by lia.
  apply andb_false_r.
Qed.

Lemma switch_player_involutive player : switch_player (switch_player player) = player.
Proof. unfold switch_player. lia. Qed.

Lemma switch_player_12 player :
  player = 1 ∨ player = 2 → switch_player player = 1 ∨ switch_player player = 2.
Proof. unfold switch_player. lia. Qed.

Lemma switch_player_neq player : player = 1 ∨ player = 2 → switch_player player ≠ player.
Proof. unfold switch_player. lia. Qed.

(** ** The turn of the computer *)

Section cpu.
Context {cfg : Config} {R : Type} `{!RandomSource R}.
Implicit Types (heaps : list Z) (w : World R) (error_trigger : trigger).

(** [play_correctly] as a specification: a legal move, only drawing, and
    the winning move when there is one. *)
Lemma wp_play_correctly heaps w :
  heaps_ok heaps → length heaps = N_HEAPS → 0 < py_sum heaps →
  wp (play_correctly heaps)
     (λ move w', legal_move heaps move.1 move.2 ∧ draws_only w w'
                 ∧ (nim_sum heaps ≠ 0 → nim_sum (apply_move heaps move.1 move.2) = 0))
     no_exn w.
Proof.
  intros Hok Hlen Hsum.
  destruct (play_correctly_run heaps w) as (heap & k & w' & E & ? & ? & Hwin); [done..|].
  eapply wp_run; [done|]. split_and!; [done..|]. intros Hs. by apply Hwin.
Qed.

(** [make_mistake] as a specification: a legal move, only drawing, and a
    move that leaves the nimm-sum nonzero when some heap holds more than
    one stone. *)
Lemma wp_make_mistake heaps w :
  heaps_ok heaps → length heaps = N_HEAPS → 0 < py_sum heaps →
  wp (make_mistake heaps)
     (λ move w', legal_move heaps move.1 move.2 ∧ draws_only w w'
                 ∧ (Exists (λ x, 1 < x) heaps →
                    nim_sum (apply_move heaps move.1 move.2) ≠ 0))
     no_exn w.
Proof.
  intros Hok Hlen Hsum.
  destruct (make_mistake_run heaps w) as (heap & k & w' & E & ? & ? & Hwrong); [done..|].
  by eapply wp_run.
Qed.

(** Applying the move the computer chose. *)
Lemma wp_apply_move {B} heaps heap stones_taken (k : list Z → M R B)
    (Q : B → World R → Prop) E w :
  legal_move heaps heap stones_taken →
  wp (k (apply_move heaps heap stones_taken)) Q E w →
  wp (heap_size <- lift (getitem heaps heap) ;;
      heaps' <- lift (setitem heaps heap (heap_size - stones_taken)) ;;
      k heaps') Q E w.
Proof.
  intros (x & Hx & _) HQ. rewrite (getitem_lookup _ _ _ Hx).
  apply wp_bind, wp_lift_Ret. rewrite setitem_Ret by by eapply lookup_lt_Some.
  apply wp_bind, wp_lift_Ret. unfold apply_move in HQ. by rewrite Hx in HQ.
Qed.

(** On heaps that hold a stone [cpu_turn] does not raise; it makes one
    legal move, which it announces, reads nothing, and sets the trigger to
    minus infinity exactly when it makes the mistake. *)
Lemma wp_cpu_turn heaps error_trigger opponent w :
  heaps_ok heaps → length heaps = N_HEAPS → 0 < py_sum heaps →
  wp (cpu_turn heaps error_trigger opponent)
     (λ r w', moved heaps r.1 ∧ draws w w'
              ∧ r.2 = (if cpu_errs heaps error_trigger opponent then NegInf
                       else error_trigger)
              ∧ (if cpu_errs heaps error_trigger opponent
                 then Exists (λ x, 1 < x) heaps → nim_sum r.1 ≠ 0
                 else nim_sum heaps ≠ 0 → nim_sum r.1 = 0)
              ∧ ∃ heap stones_taken,
                  legal_move heaps heap stones_taken
                  ∧ r.1 = apply_move heaps heap stones_taken
                  ∧ stdout w' = stdout w ++ [cpu_line opponent heap stones_taken; nl])
     no_exn w.
Proof.
  intros Hok Hlen Hsum. unfold cpu_turn. fold (cpu_errs heaps error_trigger opponent).
  apply wp_bind. destruct (cpu_errs heaps error_trigger opponent); apply wp_bind;
    (eapply wp_post; [by first [apply wp_make_mistake|apply wp_play_correctly]|]);
    simpl; intros [heap k] w1 (Hlegal & [Hin Hout] & Hsum'); apply wp_ret; simpl;
    apply wp_bind, wp_print, wp_bind, wp_print;
    (apply wp_apply_move; [done|]); apply wp_ret; simpl;
    (split_and!; [by exists heap, k| |done..|]);
    try (by split; simpl; [|rewrite Hout, <- app_assoc; apply prefix_app_r]);
    exists heap, k; by rewrite Hout, <- app_assoc.
Qed.

(** [cpu_turn] depends on the heaps, the trigger, the opponent and the
    random source only. *)
Lemma replays_cpu_turn heaps error_trigger opponent :
  replays (λ _, cpu_turn (R := R) heaps error_trigger opponent).
Proof. unfold cpu_turn. replays_tac. Qed.

(** C12: the turn of the computer, on heaps that hold a stone: [cpu_turn]
    makes one legal move, announces that very move, with the heap numbered
    from one, and reads nothing.  When Dr. Nymm errs the trigger becomes
    minus infinity and, if some heap holds more than one stone, the
    nimm-sum is left nonzero; otherwise the trigger is kept and a nonzero
    nimm-sum is cancelled. *)
Theorem cpu_turn_correct heaps error_trigger opponent w :
  heaps_ok heaps → length heaps = N_HEAPS → 0 < py_sum heaps →
  ∃ heap stones_taken w',
    cpu_turn heaps error_trigger opponent w
    = (Ret (apply_move heaps heap stones_taken,
            if cpu_errs heaps error_trigger opponent then NegInf else error_trigger), w')
    ∧ legal_move heaps heap stones_taken
    ∧ stdin w' = stdin w
    ∧ stdout w' = stdout w ++ [cpu_line opponent heap stones_taken; nl]
    ∧ (if cpu_errs heaps error_trigger opponent
       then Exists (λ x, 1 < x) heaps →
            nim_sum (apply_move heaps heap stones_taken) ≠ 0
       else nim_sum heaps ≠ 0 → nim_sum (apply_move heaps heap stones_taken) = 0).
Proof.
  intros Hok Hlen Hsum.
  destruct (wp_no_exn_inv _ _ _ (wp_cpu_turn heaps error_trigger opponent w Hok Hlen Hsum))
    as ([heaps' t'] & w' & E & ? & [? _] & Ht & ? & heap & k & ? & Hheaps & ?).
  simpl in *. subst heaps' t'. by exists heap, k, w'.
Qed.

End cpu.

(** ** A whole turn *)

Section player.
Context {cfg : Config} {R : Type} `{!RandomSource R}.
Implicit Types (heaps : list Z) (w : World R) (error_trigger : trigger) (player : Z).

(** [display_heaps] only writes, and does not raise when there are
    [N_HEAPS] heaps. *)
Lemma wp_display_heaps heaps w :
  (N_HEAPS ≤ length heaps)%nat →
  wp (display_heaps heaps) (λ _ w', writes w w') no_exn w.
Proof.
  intros Hlen. unfold display_heaps. apply (wp_for_each _ _ (writes w)); [done|].
  intros i w1 Hi%elem_of_seq Hw1.
  destruct (lookup_lt_is_Some_2 heaps i) as [x Hx]; [lia|].
  rewrite (getitem_lookup _ _ _ Hx). apply wp_bind, wp_lift_Ret, wp_print.
  etrans; [done|apply writes_print].
Qed.

Lemma display_heaps_from n i heaps w :
  (i + n ≤ length heaps)%nat →
  for_each (seq i n) (λ i,
    heap_size <- lift (getitem heaps i) ;;
    print ("Heap " +:+ py_str (Z.of_nat i + 1) +:+ ": " +:+ py_str heap_size)) w
  = (Ret tt, mkWorld (stdin w)
               (stdout w ++ imap (λ j, heap_line (i + j)) (take n (drop i heaps)))
               (rand w)).
Proof.
  revert i w. induction n as [|n IH]; intros i w Hlen.
  { simpl. rewrite app_nil_r. by destruct w. }
  destruct (lookup_lt_is_Some_2 heaps i) as [x Hx]; [lia|]. cbn [seq for_each].
  rewrite bind_assoc, (getitem_lookup _ _ _ Hx), bind_lift_Ret.
  unfold print at 1, bind at 1. rewrite IH by (simpl; lia).
  cbn [stdin stdout rand]. rewrite (drop_S _ _ _ Hx). cbn [take imap].
  rewrite <- app_assoc, Nat.add_0_r. do 3 f_equal. simpl. f_equal.
  apply imap_ext. intros j y _. simpl. f_equal. lia.
Qed.

(** [display_heaps] writes one line for each of the first [N_HEAPS]
    heaps, numbered from one, and does nothing else. *)
Lemma display_heaps_output heaps w :
  (N_HEAPS ≤ length heaps)%nat →
  display_heaps heaps w =
    (Ret tt, mkWorld (stdin w) (stdout w ++ imap heap_line (take N_HEAPS heaps)) (rand w)).
Proof.
  intros Hlen. unfold display_heaps. rewrite display_heaps_from by (simpl; lia).
  by rewrite drop_0.
Qed.

(** On heaps that hold a stone [player_turn] fails only when the human
    reaches the end of the input or types a line that is not plain;
    otherwise one legal move was made, the
    turn passed to the other player, the trigger changed only if the
    computer made its mistake, a computer that did not err from a nonzero
    nimm-sum left the nimm-sum zero, and one that erred left it nonzero
    if some heap held more than one stone. *)
Lemma wp_player_turn heaps player error_trigger opponent w :
  heaps_ok heaps → length heaps = N_HEAPS → 0 < py_sum heaps →
  wp (player_turn heaps player error_trigger opponent)
     (λ r w', moved heaps r.1.1 ∧ r.1.2 = switch_player player ∧ steps w w'
              ∧ r.2 = (if bool_decide (player = CPU_PLAYER)
                          && cpu_errs heaps error_trigger opponent
                       then NegInf else error_trigger)
              ∧ (player = CPU_PLAYER →
                 if cpu_errs heaps error_trigger opponent
                 then Exists (λ x, 1 < x) heaps → nim_sum r.1.1 ≠ 0
                 else nim_sum heaps ≠ 0 → nim_sum r.1.1 = 0))
     (input_exn w) w.
Proof.
  intros Hok Hlen Hsum. unfold player_turn. apply wp_bind_input.
  eapply wp_mono; [apply wp_display_heaps; lia| |done]. simpl.
  intros _ w1 Hw1%writes_steps. split; [done|].
  apply wp_bind. case_bool_decide as Hp.
  - eapply wp_mono; [by apply wp_cpu_turn| |done]. simpl.
    intros [heaps' t'] w2 (Hmoved & Hd%draws_steps & Ht & Hwin & _).
    apply wp_ret. simpl in *. split_and!; [done..|by etrans|done|auto].
  - apply wp_bind. eapply wp_post; [by apply wp_human_turn|]. simpl.
    intros heaps' w2 [Hmoved Ha%asked_steps].
    apply wp_ret, wp_ret. simpl. split_and!; [done..|by etrans|done|done].
Qed.

(** ** Turns played out *)

(** The turn of the computer does not raise. *)
Lemma wp_player_turn_cpu heaps error_trigger opponent w :
  heaps_ok heaps → length heaps = N_HEAPS → 0 < py_sum heaps →
  wp (player_turn heaps CPU_PLAYER error_trigger opponent)
     (λ r w', moved heaps r.1.1 ∧ r.1.2 = switch_player CPU_PLAYER
              ∧ r.2 = (if cpu_errs heaps error_trigger opponent then NegInf
                       else error_trigger)
              ∧ (if cpu_errs heaps error_trigger opponent
                 then Exists (λ x, 1 < x) heaps → nim_sum r.1.1 ≠ 0
                 else nim_sum heaps ≠ 0 → nim_sum r.1.1 = 0))
     no_exn w.
Proof.
  intros Hok Hlen Hsum. unfold player_turn. rewrite bool_decide_eq_true_2 by done.
  apply wp_bind. eapply wp_post; [apply wp_display_heaps; lia|]. simpl.
  intros _ w1 _. apply wp_bind. eapply wp_post; [by apply wp_cpu_turn|]. simpl.
  intros [heaps' t'] w2 (Hmoved & _ & Ht & Hcpu & _). by apply wp_ret.
Qed.

(** A turn depends on the state, the lines the human types and the
    random source only. *)
Lemma replays_player_turn heaps player error_trigger opponent :
  replays (λ _, player_turn (R := R) heaps player error_trigger opponent).
Proof.
  unfold player_turn, display_heaps. pose proof replays_cpu_turn. replays_tac.
Qed.

(** A turn draws no random number unless the computer reaches
    [choose_random]: the turn of the human is quiet, and so is the turn
    of a computer that does not err and finds a nonzero nimm-sum. *)
Lemma quiet_player_turn heaps player error_trigger opponent w :
  heaps_ok heaps → length heaps = N_HEAPS →
  (player = CPU_PLAYER → cpu_errs heaps error_trigger opponent = false ∧ nim_sum heaps ≠ 0) →
  quiet (player_turn heaps player error_trigger opponent) w.
Proof.
  intros Hok Hlen Hcpu. unfold player_turn, display_heaps, cpu_turn.
  fold (cpu_errs heaps error_trigger opponent).
  case_bool_decide as Hp; [destruct (Hcpu Hp) as [-> Hs]|]; clear Hcpu.
  all: pose proof quiet_play_correctly; quiet_tac.
Qed.

(** The turn of the computer does not depend on standard input: from
    heaps that hold a stone it returns the same state, output and random
    source whatever is left to read. *)
Lemma player_turn_cpu_run heaps error_trigger opponent out r :
  heaps_ok heaps → length heaps = N_HEAPS → 0 < py_sum heaps →
  ∃ heaps' out' r',
    (∀ i, player_turn heaps CPU_PLAYER error_trigger opponent (mkWorld i out r)
          = (Ret (heaps', switch_player CPU_PLAYER,
                  if cpu_errs heaps error_trigger opponent then NegInf else error_trigger),
             mkWorld i out' r'))
    ∧ moved heaps heaps'
    ∧ (if cpu_errs heaps error_trigger opponent
       then Exists (λ x, 1 < x) heaps → nim_sum heaps' ≠ 0
       else nim_sum heaps ≠ 0 → nim_sum heaps' = 0).
Proof.
  intros Hok Hlen Hsum.
  destruct (wp_no_exn_inv _ _ _
    (wp_player_turn_cpu heaps error_trigger opponent (mkWorld [] out r) Hok Hlen Hsum))
    as ([[heaps' player'] t'] & w' & E & Hmoved & Hp & Ht & Hcpu).
  simpl in *. subst player' t'. exists heaps', (stdout w'), (rand w').
  split_and!; [|done..]. intros i.
  by apply (replays_nil _ _ _ _ _ _ (replays_player_turn _ _ _ _) E).
Qed.

(** The turn of a computer that does not err and finds a move in its
    scan: it makes that move, writes, and draws no random number. *)
Lemma player_turn_cpu_play heaps error_trigger opponent heap stones_taken out r :
  length heaps = N_HEAPS → cpu_errs heaps error_trigger opponent = false →
  play_correctly_scan (nim_sum heaps) 0 heaps = Some (heap, stones_taken) →
  ∃ out', ∀ i,
    player_turn heaps CPU_PLAYER error_trigger opponent (mkWorld i out r)
    = (Ret (apply_move heaps heap stones_taken, switch_player CPU_PLAYER, error_trigger),
       mkWorld i out' r).
Proof.
  intros Hlen Herr Hscan. eexists. intros i.
  pose proof Hscan as (x & Hx & _)%play_correctly_scan_Some.
  unfold player_turn, display_heaps.
  rewrite (bind_run _ _ _ _ _ (display_heaps_from N_HEAPS 0 heaps _ ltac:(simpl; lia))).
  rewrite bool_decide_eq_true_2 by done. unfold cpu_turn.
  fold (cpu_errs heaps error_trigger opponent). rewrite Herr.
  rewrite !bind_assoc.
  rewrite (bind_run (play_correctly heaps) _ _ (heap, stones_taken) _
             ltac:(by rewrite play_correctly_eq, Hscan)).
  unfold bind, ret, print, lift. cbn [fst snd stdin stdout rand].
  rewrite (getitem_lookup _ _ _ Hx), setitem_Ret by by eapply lookup_lt_Some.
  unfold apply_move. rewrite Hx. reflexivity.
Qed.

(** The turn of the human who types the move [(heap, stones_taken)]. *)
Lemma player_turn_human_run heaps player error_trigger opponent heap stones_taken x out r :
  player ≠ CPU_PLAYER → length heaps = N_HEAPS →
  heaps !! heap = Some x → 1 ≤ stones_taken ≤ x →
  short (Z.of_nat N_HEAPS) → short stones_taken →
  ∃ out', ∀ rest,
    player_turn heaps player error_trigger opponent
      (mkWorld (py_str (Z.of_nat heap + 1) :: py_str stones_taken :: rest) out r)
    = (Ret (apply_move heaps heap stones_taken, switch_player player, error_trigger),
       mkWorld rest out' r).
Proof.
  intros Hplayer Hlen Hx Hk HN Hshort. eexists. intros rest.
  unfold player_turn, display_heaps.
  rewrite (bind_run _ _ _ _ _ (display_heaps_from N_HEAPS 0 heaps _ ltac:(simpl; lia))).
  rewrite bool_decide_eq_false_2 by done. cbn [stdin stdout rand].
  rewrite bind_assoc. erewrite (bind_run (human_turn _)); [|by eapply human_turn_run].
  cbn [stdin stdout rand]. reflexivity.
Qed.

End player.

#[export] Hint Resolve replays_player_turn : replays.

Example player_turn_cpu :
  player_turn (cfg := source_config) [1; 2; 0] 1 (Finite 10) "Nimm"
    (mkWorld ["rest"] [] ([] : list nat))
  = (Ret ([1; 1; 0], 2, Finite 10),
     mkWorld ["rest"]
       ["Heap 1: 1" +:+ nl; "Heap 2: 2" +:+ nl; "Heap 3: 0" +:+ nl;
        "Dr. Nimm removes 1 stones from heap 2" +:+ nl; nl] []).
Proof. vm_compute. reflexivity. Qed.

Example player_turn_nymm_mistake :
  player_turn (cfg := source_config) [5; 3; 0] 1 (Finite 10) "Nymm"
    (mkWorld ["rest"] [] ([] : list nat))
  = (Ret ([4; 3; 0], 2, NegInf),
     mkWorld ["rest"]
       ["Heap 1: 5" +:+ nl; "Heap 2: 3" +:+ nl; "Heap 3: 0" +:+ nl;
        "Dr. Nymm removes 1 stones from heap 1" +:+ nl; nl] []).
Proof. vm_compute. reflexivity. Qed.

(** ** The theorems at concrete heaps, with the constants of the source *)

Lemma cpu_turn_correct_witness :
  ∃ heap stones_taken w',
    cpu_turn (cfg := source_config) [5; 3; 0] (Finite 10) "Nymm" (mkWorld [] [] [7%nat])
    = (Ret (apply_move [5; 3; 0] heap stones_taken,
            if cpu_errs [5; 3; 0] (Finite 10) "Nymm" then NegInf else Finite 10), w')
    ∧ legal_move [5; 3; 0] heap stones_taken
    ∧ stdin w' = []
    ∧ stdout w' = [] ++ [cpu_line "Nymm" heap stones_taken; nl]
    ∧ (if cpu_errs [5; 3; 0] (Finite 10) "Nymm"
       then Exists (λ x, 1 < x) [5; 3; 0] →
            nim_sum (apply_move [5; 3; 0] heap stones_taken) ≠ 0
       else nim_sum [5; 3; 0] ≠ 0 → nim_sum (apply_move [5; 3; 0] heap stones_taken) = 0).
Proof.
  apply (cpu_turn_correct (cfg := source_config) [5; 3; 0] (Finite 10) "Nymm"
           (mkWorld [] [] [7%nat])); [compute_done|reflexivity|reflexivity].
Defined.

Lemma display_heaps_output_witness :
  display_heaps (cfg := source_config) [5; 3; 0] (mkWorld [] [] [7%nat])
  = (Ret tt, mkWorld [] ["Heap 1: 5" +:+ nl; "Heap 2: 3" +:+ nl; "Heap 3: 0" +:+ nl] [7%nat]).
Proof.
  apply (display_heaps_output (cfg := source_config) [5; 3; 0] (mkWorld [] [] [7%nat])).
  simpl. lia.
Defined.
