(* ===== verification/NimGame.v ===== *)
(** * NimGame: the game the program plays, as a transition system

    What Section 4 of the specification asks of a turn and of a session,
    without input, output or random numbers: a state is the heaps, the
    player to move and the trigger of the mistake; a step is one legal
    move of the player to move, of one of three kinds.  [player_turn]
    refines the step relation, as shown here, with the kind that
    [turn_kind] reads off its tests, and the loop of [main] refines the
    runs, as shown in [Unbeatable].  The theorems on steps and
    runs are by rule induction; [human_wins] is the set of states from
    which the human can force a win, which against a computer that does
    not err are the states in which the human is ahead by the nimm-sum. *)

From S2P Require Import Prelude PyRuntime Wp NimSum Config Engine Optimal Turn.

Record state : Type := State {
  st_heaps : list Z;
  st_player : Z;
  st_trigger : trigger
}.

(** The state in the triple [player_turn] returns. *)
Definition state_of (r : list Z * Z * trigger) : state := State r.1.1 r.1.2 r.2.

(** The three kinds of turn. *)
Inductive kind : Type := CpuCorrect | CpuMistake | Human.

#[export] Instance kind_eq_dec : EqDecision kind.
Proof. solve_decision. Defined.

Section game.
Context {cfg : Config} (opponent : string).

(** One turn.  Turns are taken only while stones are left.  The computer
    errs when [cpu_errs] says so, and then disarms the trigger and leaves
    a nonzero nimm-sum if some heap holds more than one stone; otherwise
    it cancels a nonzero nimm-sum.  The human makes any legal move. *)
Inductive turn_step : state → kind → state → Prop :=
  | step_cpu_correct heaps heaps' error_trigger :
      0 < py_sum heaps →
      cpu_errs heaps error_trigger opponent = false →
      moved heaps heaps' →
      (nim_sum heaps ≠ 0 → nim_sum heaps' = 0) →
      turn_step (State heaps CPU_PLAYER error_trigger) CpuCorrect
                (State heaps' (switch_player CPU_PLAYER) error_trigger)
  | step_cpu_mistake heaps heaps' error_trigger :
      0 < py_sum heaps →
      cpu_errs heaps error_trigger opponent = true →
      moved heaps heaps' →
      (Exists (λ x, 1 < x) heaps → nim_sum heaps' ≠ 0) →
      turn_step (State heaps CPU_PLAYER error_trigger) CpuMistake
                (State heaps' (switch_player CPU_PLAYER) NegInf)
  | step_human heaps heaps' player error_trigger :
      0 < py_sum heaps →
      player ≠ CPU_PLAYER →
      moved heaps heaps' →
      turn_step (State heaps player error_trigger) Human
                (State heaps' (switch_player player) error_trigger).

(** A run: a sequence of turns, with their kinds. *)
Inductive run : state → list kind → state → Prop :=
  | run_nil s : run s [] s
  | run_cons s k s' ks s'' : turn_step s k s' → run s' ks s'' → run s (k :: ks) s''.

(** The kind of the turn taken in a state: the branch of [player_turn]
    that the player to move selects and, for the computer, the branch of
    [cpu_turn] that the trigger selects. *)
Definition turn_kind (heaps : list Z) (player : Z) (error_trigger : trigger) : kind :=
  if bool_decide (player = CPU_PLAYER) then
    if cpu_errs heaps error_trigger opponent then CpuMistake else CpuCorrect
  else Human.

(** Well-formed states. *)
Definition state_ok (s : state) : Prop :=
  heaps_ok (st_heaps s) ∧ length (st_heaps s) = N_HEAPS
  ∧ (st_player s = 1 ∨ st_player s = 2).

(** The game is over when no stone is left. *)
Definition finished (s : state) : Prop := py_sum (st_heaps s) = 0.

(** From here on the computer does not err. *)
Definition perfect (s : state) : Prop := opponent ≠ "Nymm" ∨ st_trigger s = NegInf.

(** The computer is ahead: it is to move from a nonzero nimm-sum, or the
    human is to move from a zero nimm-sum. *)
Definition cpu_ahead (s : state) : Prop :=
  if decide (st_player s = CPU_PLAYER) then nim_sum (st_heaps s) ≠ 0
  else nim_sum (st_heaps s) = 0.

(** The winner of a finished game: who moved last. *)
Definition cpu_won (s : state) : Prop := finished s ∧ st_player s ≠ CPU_PLAYER.

(** The human is ahead: the human is to move from a nonzero nimm-sum, or
    the computer is to move from a zero nimm-sum. *)
Definition human_ahead (s : state) : Prop :=
  if decide (st_player s = CPU_PLAYER) then nim_sum (st_heaps s) = 0
  else nim_sum (st_heaps s) ≠ 0.

(** The human can force a win: the game is over and the human moved last;
    or the human is to move and has a move to a state from which the
    human can force a win; or the computer is to move and each of its
    moves leads to such a state. *)
Inductive human_wins : state → Prop :=
  | human_wins_done s :
      finished s → st_player s = CPU_PLAYER → human_wins s
  | human_wins_human s s' :
      turn_step s Human s' → human_wins s' → human_wins s
  | human_wins_cpu s :
      st_player s = CPU_PLAYER → ¬ finished s →
      (∀ k s', turn_step s k s' → human_wins s') → human_wins s.

End game.

(** [solve_state_ok] proves that a concrete state is well formed, by
    evaluation. *)
Ltac solve_state_ok :=
  split_and!; [compute_done|reflexivity|first [by left|by right]].

(** ** Steps *)

Section steps.
Context {cfg : Config} (Hcfg : config_ok cfg) (opponent : string).
Implicit Types (s : state) (k : kind) (ks : list kind).
Local Abbreviation turn_step := (turn_step opponent).
Local Abbreviation run := (run opponent).

Lemma turn_step_moved s k s' : turn_step s k s' → moved (st_heaps s) (st_heaps s').
Proof. by destruct 1. Qed.

Lemma turn_step_player s k s' : turn_step s k s' → st_player s' = switch_player (st_player s).
Proof. by destruct 1. Qed.

Lemma turn_step_in_play s k s' : turn_step s k s' → 0 < py_sum (st_heaps s).
Proof. by destruct 1. Qed.

(** Every turn keeps the state well formed. *)
Lemma turn_step_ok s k s' : state_ok s → turn_step s k s' → state_ok s'.
Proof.
  intros (Hok & Hlen & Hp) Hstep. pose proof (turn_step_moved _ _ _ Hstep) as Hm.
  split_and!; [by eapply moved_ok|by rewrite (moved_length _ _ Hm)|].
  rewrite (turn_step_player _ _ _ Hstep). by apply switch_player_12.
Qed.

(** Every turn takes a stone. *)
Lemma turn_step_sum s k s' : turn_step s k s' → py_sum (st_heaps s') < py_sum (st_heaps s).
Proof. intros Hm%turn_step_moved. by apply moved_sum. Qed.

(** No turn is taken from a finished game. *)
Lemma finished_stuck s k s' : finished s → ¬ turn_step s k s'.
Proof. unfold finished. intros H0 ?%turn_step_in_play. lia. Qed.

(** The trigger, once disarmed, stays disarmed. *)
Lemma turn_step_NegInf s k s' :
  st_trigger s = NegInf → turn_step s k s' → st_trigger s' = NegInf ∧ k ≠ CpuMistake.
Proof.
  intros Ht. destruct 1; simpl in *; subst; try done.
  by rewrite cpu_errs_NegInf in *.
Qed.

Lemma turn_step_perfect s k s' :
  perfect opponent s → turn_step s k s' → perfect opponent s' ∧ k ≠ CpuMistake.
Proof.
  intros [Ho|Ht] Hstep.
  - split; [by left|]. destruct Hstep; try done. by rewrite cpu_errs_Nimm in *.
  - destruct (turn_step_NegInf _ _ _ Ht Hstep). split; [by right|done].
Qed.

(** A mistake disarms the trigger. *)
Lemma turn_step_mistake s s' : turn_step s CpuMistake s' → st_trigger s' = NegInf.
Proof. by inversion 1. Qed.

(** The state decides the kind of the turn. *)
Lemma turn_step_kind s k s' :
  turn_step s k s' → k = turn_kind opponent (st_heaps s) (st_player s) (st_trigger s).
Proof.
  unfold turn_kind. destruct 1 as [? ? ? ? Herr|? ? ? ? Herr|]; simpl;
    rewrite ?Herr, ?bool_decide_eq_true_2, ?bool_decide_eq_false_2 by done; done.
Qed.

(** A computer that no longer errs takes no turn of the kind of the
    mistake. *)
Lemma turn_kind_perfect s :
  perfect opponent s → turn_kind opponent (st_heaps s) (st_player s) (st_trigger s) ≠ CpuMistake.
Proof.
  unfold turn_kind. intros [Ho|Ht]; case_bool_decide; try done.
  - by rewrite cpu_errs_Nimm.
  - by rewrite Ht, cpu_errs_NegInf.
Qed.

(** A computer that is ahead and does not err stays ahead. *)
Lemma turn_step_ahead s k s' :
  state_ok s → cpu_ahead s → k ≠ CpuMistake → turn_step s k s' → cpu_ahead s'.
Proof.
  intros (_ & _ & Hp) Hahead Hk Hstep. unfold cpu_ahead in *.
  destruct Hcfg as [_ _ _ _ Hcpu]. destruct Hstep; simpl in *; try done.
  - rewrite decide_True in Hahead by done.
    rewrite decide_False by (apply switch_player_neq; lia). auto.
  - rewrite decide_False in Hahead by done.
    rewrite decide_True by (unfold switch_player; lia).
    by eapply moved_from_zero.
Qed.

(** While stones are left a turn can be taken: the system does not
    block before the game is finished. *)
Lemma turn_step_progress s :
  state_ok s → ¬ finished s → ∃ k s', turn_step s k s'.
Proof.
  destruct s as [heaps player t]. intros (Hok & Hlen & Hp) Hfin.
  unfold finished in Hfin. simpl in *.
  assert (0 < py_sum heaps) as Hsum by (pose proof (py_sum_nonneg heaps Hok); lia).
  destruct (exists_right_move heaps Hok Hsum) as (heap & k & Hlegal & Hwin).
  destruct (exists_wrong_move heaps Hsum) as (heap' & k' & Hlegal' & Hwrong).
  destruct (decide (player = CPU_PLAYER)) as [->|Hplayer].
  - destruct (cpu_errs heaps t opponent) eqn:Herr; eexists _, _.
    + apply step_cpu_mistake; [done..|by exists heap', k'|done].
    + apply step_cpu_correct; [done..|by exists heap, k|done].
  - eexists _, _. apply step_human; [done..|by exists heap, k].
Qed.

End steps.

(** ** [player_turn] refines the step relation *)

Section refinement.
Context {cfg : Config} {R : Type} `{!RandomSource R}.
Implicit Types (heaps : list Z) (w : World R) (player : Z) (error_trigger : trigger).

(** What [player_turn] guarantees of its result is a step of the
    transition system. *)
Lemma turn_step_intro heaps heaps' player error_trigger opponent :
  0 < py_sum heaps → moved heaps heaps' →
  (player = CPU_PLAYER →
   if cpu_errs heaps error_trigger opponent
   then Exists (λ x, 1 < x) heaps → nim_sum heaps' ≠ 0
   else nim_sum heaps ≠ 0 → nim_sum heaps' = 0) →
  ∃ k, turn_step opponent (State heaps player error_trigger) k
         (State heaps' (switch_player player)
            (if bool_decide (player = CPU_PLAYER) && cpu_errs heaps error_trigger opponent
             then NegInf else error_trigger)).
Proof.
  intros Hsum Hmoved Hcpu. case_bool_decide as Hplayer; simpl.
  - subst player. specialize (Hcpu eq_refl).
    destruct (cpu_errs heaps error_trigger opponent) eqn:Herr.
    + exists CpuMistake. by apply step_cpu_mistake.
    + exists CpuCorrect. by apply step_cpu_correct.
  - exists Human. by apply step_human.
Qed.

(** One turn of the program is one step of the system. *)
Lemma wp_player_turn_step heaps player error_trigger opponent w :
  state_ok (State heaps player error_trigger) → 0 < py_sum heaps →
  wp (player_turn heaps player error_trigger opponent)
     (λ r w', (∃ k, turn_step opponent (State heaps player error_trigger) k (state_of r))
              ∧ steps w w')
     (input_exn w) w.
Proof.
  intros (Hok & Hlen & Hp) Hsum.
  eapply wp_post; [by apply wp_player_turn|]. simpl.
  intros [[heaps' player'] t'] w' (Hmoved & Hpl & Hsteps & Ht & Hwin). simpl in *.
  subst player' t'. split; [|done]. by apply turn_step_intro.
Qed.

(** The turn that [player_turn] takes is of the kind the state decides. *)
Lemma player_turn_kind heaps player error_trigger opponent w r w' :
  state_ok (State heaps player error_trigger) → 0 < py_sum heaps →
  player_turn heaps player error_trigger opponent w = (Ret r, w') →
  turn_step opponent (State heaps player error_trigger)
    (turn_kind opponent heaps player error_trigger) (state_of r).
Proof.
  intros Hok Hsum E. pose proof (wp_player_turn_step _ _ _ opponent w Hok Hsum) as Hturn.
  unfold wp in Hturn. rewrite E in Hturn. destruct Hturn as [[k Hstep] _].
  by rewrite (turn_step_kind _ _ _ _ Hstep) in Hstep.
Qed.

(** C23: [player_turn] refines the transition system: from a well-formed
    state with a stone left it returns a state that is one turn away, or
    it raises [EOFError] because the human reached the end of the input,
    or it raises [ValueError] on the first line of the input that is not
    plain. *)
Theorem player_turn_refines heaps player error_trigger opponent w :
  state_ok (State heaps player error_trigger) → 0 < py_sum heaps →
  (∃ r w' k, player_turn heaps player error_trigger opponent w = (Ret r, w')
             ∧ turn_step opponent (State heaps player error_trigger) k (state_of r))
  ∨ (∃ w', player_turn heaps player error_trigger opponent w = (Raise EOFError, w')
           ∧ at_eof w w')
  ∨ (∃ w', player_turn heaps player error_trigger opponent w = (Raise ValueError, w')
           ∧ bad_line w w').
Proof.
  intros Hok Hsum.
  destruct (wp_input_exn_inv _ _ _ (wp_player_turn_step _ _ _ opponent w Hok Hsum))
    as [(r & w' & E & [k Hstep] & _)|?]; [left|by right].
  by exists r, w', k.
Qed.

(** C24: [player_turn] keeps the state well formed: from [N_HEAPS] heaps,
    none negative, of which one holds a stone, and a player who is 1 or 2,
    it returns [N_HEAPS] heaps, none negative, and a player who is 1 or 2,
    unless it fails at the end of the input or on a line that is not
    plain.  No index is out of range and no heap becomes negative. *)
Theorem player_turn_state_ok heaps player error_trigger opponent w :
  state_ok (State heaps player error_trigger) → 0 < py_sum heaps →
  wp (player_turn heaps player error_trigger opponent)
     (λ r _, heaps_ok r.1.1 ∧ length r.1.1 = N_HEAPS ∧ (r.1.2 = 1 ∨ r.1.2 = 2))
     (input_exn w) w.
Proof.
  intros Hok Hsum. eapply wp_post; [by apply wp_player_turn_step|]. simpl.
  intros r w' [[k Hstep] _]. exact (turn_step_ok opponent _ k (state_of r) Hok Hstep).
Qed.

End refinement.

(** ** Runs *)

Section runs.
Context {cfg : Config} (Hcfg : config_ok cfg) (opponent : string).
Implicit Types (s : state) (k : kind) (ks : list kind).
Local Abbreviation run := (run opponent).

Lemma run_app s ks s' ks' s'' : run s ks s' → run s' ks' s'' → run s (ks ++ ks') s''.
Proof. induction 1; simpl; [done|]. intros. econstructor; eauto. Qed.

Lemma run_ok s ks s' : state_ok s → run s ks s' → state_ok s'.
Proof. intros Hs Hrun. induction Hrun; eauto using turn_step_ok. Qed.

(** A run takes at least as many stones as it has turns: no run from
    [s] is longer than the number of stones of [s]. *)
Lemma run_length s ks s' :
  run s ks s' → py_sum (st_heaps s') + Z.of_nat (length ks) ≤ py_sum (st_heaps s).
Proof.
  induction 1 as [|s k s' ks s'' Hstep _ IH]; simpl; [lia|].
  apply turn_step_sum in Hstep. lia.
Qed.

(** From a state where the computer does not err, no turn of a run is a
    mistake. *)
Lemma run_perfect s ks s' :
  perfect opponent s → run s ks s' → perfect opponent s' ∧ CpuMistake ∉ ks.
Proof.
  intros Hp Hrun. induction Hrun as [|s k s' ks s'' Hstep _ IH].
  - split; [done|apply not_elem_of_nil].
  - destruct (turn_step_perfect _ _ _ _ Hp Hstep) as [Hp' Hk].
    destruct (IH Hp') as [? ?]. split; [done|]. by apply not_elem_of_cons.
Qed.

(** The computer errs at most once in a run. *)
Lemma run_one_mistake s ks s' :
  run s ks s' → (length (filter (λ k, k = CpuMistake) ks) ≤ 1)%nat.
Proof.
  induction 1 as [|s k s' ks s'' Hstep Hrun IH]; simpl; [lia|].
  rewrite filter_cons. case_decide as Hk; [|done]. subst k. simpl.
  apply turn_step_mistake in Hstep.
  destruct (run_perfect s' ks s'') as [_ Hnone]; [by right|done|].
  by rewrite filter_not_elem_of.
Qed.

(** A computer that is ahead stays ahead as long as it makes no mistake. *)
Lemma run_ahead_no_mistake s ks s' :
  state_ok s → cpu_ahead s → run s ks s' → CpuMistake ∉ ks → cpu_ahead s'.
Proof.
  intros Hok Hahead Hrun. induction Hrun as [|s k s' ks s'' Hstep _ IH]; [done|].
  intros [Hk Hks]%not_elem_of_cons.
  apply IH; [by eapply turn_step_ok|by eapply (turn_step_ahead Hcfg)|done].
Qed.

(** A computer that is ahead and does not err is ahead after every run. *)
Lemma run_ahead s ks s' :
  state_ok s → perfect opponent s → cpu_ahead s → run s ks s' → cpu_ahead s'.
Proof.
  intros Hok Hp Hahead Hrun. eapply run_ahead_no_mistake; [done..|].
  by eapply run_perfect.
Qed.

(** The computer finds a zero nimm-sum, from which [play_correctly] can
    only guess, in no game but one in which it has made its mistake: the
    human has then answered the mistake with the winning move. *)
Lemma run_guess_after_mistake s ks s' :
  state_ok s → cpu_ahead s → run s ks s' →
  st_player s' = CPU_PLAYER → nim_sum (st_heaps s') = 0 → CpuMistake ∈ ks.
Proof.
  intros Hok Hahead Hrun Hp Hs. destruct (decide (CpuMistake ∈ ks)) as [|Hks]; [done|].
  pose proof (run_ahead_no_mistake _ _ _ Hok Hahead Hrun Hks) as Hahead'.
  unfold cpu_ahead in Hahead'. by rewrite decide_True in Hahead'.
Qed.

(** Being ahead in the game of Nim itself: the computer is ahead when it
    is to move from a position from which the player to move can force a
    win, or when the human is to move from a position from which the
    player to move loses whatever they play; and likewise the human. *)
Lemma cpu_ahead_game s :
  state_ok s →
  cpu_ahead s ↔ if decide (st_player s = CPU_PLAYER) then wins (st_heaps s)
                else loses (st_heaps s).
Proof.
  intros (Hok & _). unfold cpu_ahead.
  case_decide; [by rewrite wins_nim_sum|by rewrite loses_nim_sum].
Qed.

Lemma human_ahead_game s :
  state_ok s →
  human_ahead s ↔ if decide (st_player s = CPU_PLAYER) then loses (st_heaps s)
                  else wins (st_heaps s).
Proof.
  intros (Hok & _). unfold human_ahead.
  case_decide; [by rewrite loses_nim_sum|by rewrite wins_nim_sum].
Qed.

(** When the game is finished the nimm-sum is zero. *)
Lemma finished_nim_sum s : state_ok s → finished s → nim_sum (st_heaps s) = 0.
Proof. intros (Hok & _) Hfin. by apply nim_sum_zeros, py_sum_0_all. Qed.

(** The computer wins every finished game in which it was ahead and did
    not err. *)
Lemma run_cpu_wins s ks s' :
  state_ok s → perfect opponent s → cpu_ahead s → run s ks s' → finished s' →
  cpu_won s'.
Proof.
  intros Hok Hp Hahead Hrun Hfin. split; [done|].
  pose proof (run_ahead _ _ _ Hok Hp Hahead Hrun) as Hahead'.
  pose proof (finished_nim_sum s' (run_ok _ _ _ Hok Hrun) Hfin).
  unfold cpu_ahead in Hahead'. by case_decide.
Qed.

End runs.

(** ** The chance of the human *)

Section chance.
Context {cfg : Config} (Hcfg : config_ok cfg) (opponent : string).
Implicit Types (s : state) (k : kind).

(** A human who is ahead has a move that keeps the human ahead. *)
Lemma human_ahead_move s :
  state_ok s → st_player s ≠ CPU_PLAYER → human_ahead s →
  ∃ s', turn_step opponent s Human s' ∧ human_ahead s'
        ∧ st_trigger s' = st_trigger s.
Proof.
  destruct s as [heaps player t]. intros (Hok & Hlen & Hp) Hplayer Hahead.
  unfold human_ahead in *. simpl in *. rewrite decide_False in Hahead by done.
  destruct (exists_right_move heaps Hok) as (heap & k & Hlegal & Hwin).
  { by apply nim_sum_neq_0_sum_pos. }
  exists (State (apply_move heaps heap k) (switch_player player) t). split_and!; [|simpl|done].
  - apply step_human; [by apply nim_sum_neq_0_sum_pos|done|by exists heap, k].
  - destruct Hcfg as [_ _ _ _ Hcpu]. rewrite decide_True by (unfold switch_player; lia).
    auto.
Qed.

(** Every move of a computer that does not err, from a state where the
    human is ahead, leaves the human ahead. *)
Lemma human_ahead_reply s k s' :
  st_player s = CPU_PLAYER → human_ahead s → turn_step opponent s k s' →
  human_ahead s'.
Proof.
  intros Hplayer Hahead Hstep. pose proof (turn_step_moved _ _ _ _ Hstep) as Hmoved.
  pose proof (turn_step_player _ _ _ _ Hstep) as Hplayer'.
  unfold human_ahead in *. rewrite decide_True in Hahead by done.
  destruct Hcfg as [_ _ _ _ Hcpu].
  rewrite decide_False by (rewrite Hplayer', Hplayer; unfold switch_player; lia).
  by eapply moved_from_zero.
Qed.

(** One turn from a state in which the human is ahead of a computer that
    does not err, the human cancelling the nimm-sum: the human is still
    ahead, and a stone is gone. *)
Lemma human_ahead_step s k s' :
  state_ok s → perfect opponent s → human_ahead s → turn_step opponent s k s' →
  (st_player s ≠ CPU_PLAYER → nim_sum (st_heaps s') = 0) →
  state_ok s' ∧ perfect opponent s' ∧ human_ahead s'
  ∧ py_sum (st_heaps s') < py_sum (st_heaps s).
Proof.
  intros Hok Hperfect Hahead Hstep Hzero.
  split_and!; [by eapply turn_step_ok|by eapply turn_step_perfect| |by eapply turn_step_sum].
  destruct (decide (st_player s = CPU_PLAYER)) as [Hp|Hp]; [by eapply human_ahead_reply|].
  unfold human_ahead. rewrite (turn_step_player _ _ _ _ Hstep).
  destruct Hok as (_ & _ & ?), Hcfg as [_ _ _ _ Hcpu].
  rewrite decide_True by (unfold switch_player; lia). auto.
Qed.

(** A human who is ahead of a computer that does not err can force a
    win, by induction on the number of stones. *)
Lemma human_ahead_wins n s :
  py_sum (st_heaps s) ≤ Z.of_nat n →
  state_ok s → perfect opponent s → human_ahead s → human_wins opponent s.
Proof.
  revert s. induction n as [|n IH]; intros s Hn Hok Hperfect Hahead;
    pose proof (py_sum_nonneg _ (proj1 Hok)) as Hsum;
    destruct (decide (finished s)) as [Hfin|Hfin];
    destruct (decide (st_player s = CPU_PLAYER)) as [Hplayer|Hplayer];
    unfold finished in Hfin; try lia; try (by apply human_wins_done).
  - exfalso. unfold human_ahead in Hahead. rewrite decide_False in Hahead by done.
    by apply Hahead, finished_nim_sum.
  - exfalso. unfold human_ahead in Hahead. rewrite decide_False in Hahead by done.
    by apply Hahead, finished_nim_sum.
  - apply human_wins_cpu; [done..|]. intros k s' Hstep.
    pose proof (turn_step_sum _ _ _ _ Hstep).
    apply IH; [lia|by eapply turn_step_ok| |by eapply human_ahead_reply].
    by eapply turn_step_perfect.
  - destruct (human_ahead_move s Hok Hplayer Hahead) as (s' & Hstep & Hahead' & Ht).
    pose proof (turn_step_sum _ _ _ _ Hstep).
    apply (human_wins_human _ s s' Hstep).
    apply IH; [lia|by eapply turn_step_ok| |done]. by eapply turn_step_perfect.
Qed.

(** C15: the mistake of Dr. Nymm gives the human the game: after a turn in
    which the computer errs, from heaps of which one holds more than one
    stone, the human can force a win whatever the computer plays. *)
Theorem mistake_lets_human_win s s' :
  state_ok s → Exists (λ x, 1 < x) (st_heaps s) →
  turn_step opponent s CpuMistake s' → human_wins opponent s'.
Proof.
  intros Hok Hbig Hstep. pose proof (turn_step_ok _ _ _ _ Hok Hstep) as Hok'.
  apply (human_ahead_wins (Z.to_nat (py_sum (st_heaps s')))); [lia|done|..].
  - right. by eapply turn_step_mistake.
  - inversion Hstep; subst. unfold human_ahead. simpl in *.
    destruct Hcfg as [_ _ _ _ Hcpu]. rewrite decide_False by (unfold switch_player; lia).
    auto.
Qed.

(** A computer that is ahead and does not err leaves the human no way to
    force a win. *)
Lemma cpu_ahead_not_human_wins s :
  state_ok s → perfect opponent s → cpu_ahead s → ¬ human_wins opponent s.
Proof.
  intros Hok Hperfect Hahead Hw.
  induction Hw as [s Hfin Hp|s s' Hstep _ IH|s Hp Hfin _ IH].
  - unfold cpu_ahead in Hahead. rewrite decide_True in Hahead by done.
    by apply Hahead, finished_nim_sum.
  - destruct (turn_step_perfect _ _ _ _ Hperfect Hstep).
    apply IH; [by eapply turn_step_ok|done|by eapply (turn_step_ahead Hcfg)].
  - destruct (turn_step_progress opponent s Hok Hfin) as (k & s' & Hstep).
    destruct (turn_step_perfect _ _ _ _ Hperfect Hstep).
    apply (IH k s' Hstep); [by eapply turn_step_ok|done|by eapply (turn_step_ahead Hcfg)].
Qed.

(** One of the two sides is ahead. *)
Lemma cpu_or_human_ahead s : cpu_ahead s ∨ human_ahead s.
Proof.
  unfold cpu_ahead, human_ahead.
  destruct (decide (nim_sum (st_heaps s) = 0)); case_decide; auto.
Qed.

(** C16: the nimm-sum decides the game that the program plays.  Against a
    computer that does not err, the human can force a win from exactly
    the states in which the human is ahead: the human to move from a
    nonzero nimm-sum, or the computer to move from a zero nimm-sum. *)
Theorem human_wins_iff_ahead s :
  state_ok s → perfect opponent s → human_wins opponent s ↔ human_ahead s.
Proof.
  intros Hok Hperfect. split.
  - intros Hw. destruct (cpu_or_human_ahead s) as [Hcpu|]; [|done].
    by destruct (cpu_ahead_not_human_wins s Hok Hperfect Hcpu).
  - pose proof (py_sum_nonneg _ (proj1 Hok)).
    apply (human_ahead_wins (Z.to_nat (py_sum (st_heaps s)))); [lia|done..].
Qed.

End chance.

(** ** The theorems at a concrete state, with the constants of the source *)

Lemma turn_step_progress_witness :
  ∃ k s', turn_step (cfg := source_config) "Nymm" (State [5; 3; 0] 1 (Finite 10)) k s'.
Proof.
  apply (turn_step_progress (cfg := source_config) "Nymm" (State [5; 3; 0] 1 (Finite 10))).
  - solve_state_ok.
  - compute_done.
Defined.

Lemma run_length_witness :
  py_sum [5; 3; 0] + Z.of_nat (length ([] : list kind)) ≤ py_sum [5; 3; 0].
Proof.
  apply (run_length (cfg := source_config) "Nymm" (State [5; 3; 0] 1 (Finite 10)) []
           (State [5; 3; 0] 1 (Finite 10))).
  constructor.
Defined.

Lemma mistake_lets_human_win_witness :
  human_wins (cfg := source_config) "Nymm" (State [4; 3; 0] 2 NegInf).
Proof.
  apply (mistake_lets_human_win source_config_ok "Nymm" (State [5; 3; 0] 1 (Finite 10))).
  - solve_state_ok.
  - compute_done.
  - apply (step_cpu_mistake (cfg := source_config) "Nymm" [5; 3; 0] [4; 3; 0] (Finite 10));
      [reflexivity|reflexivity| |intros _; vm_compute; discriminate].
    exists 0%nat, 1. split; [|reflexivity]. exists 5. split; [reflexivity|lia].
Defined.

Lemma human_wins_iff_ahead_witness :
  human_wins (cfg := source_config) "Nimm" (State [4; 3; 0] 2 (Finite 10))
  ↔ human_ahead (cfg := source_config) (State [4; 3; 0] 2 (Finite 10)).
Proof.
  apply (human_wins_iff_ahead source_config_ok "Nimm" (State [4; 3; 0] 2 (Finite 10)));
    [solve_state_ok|by left].
Defined.

Lemma player_turn_state_ok_witness :
  wp (player_turn (cfg := source_config) [5; 3; 0] 1 (Finite 10) "Nymm")
     (λ r _, heaps_ok r.1.1 ∧ length r.1.1 = 3%nat ∧ (r.1.2 = 1 ∨ r.1.2 = 2))
     (input_exn (mkWorld [] [] [7%nat])) (mkWorld [] [] [7%nat]).
Proof.
  apply (player_turn_state_ok (cfg := source_config) [5; 3; 0] 1 (Finite 10) "Nymm"
           (mkWorld [] [] [7%nat])); [|reflexivity].
  solve_state_ok.
Defined.

Lemma player_turn_refines_witness :
  (∃ r w' k,
      player_turn (cfg := source_config) [5; 3; 0] 1 (Finite 10) "Nymm"
        (mkWorld [] [] [7%nat]) = (Ret r, w')
      ∧ turn_step (cfg := source_config) "Nymm" (State [5; 3; 0] 1 (Finite 10)) k (state_of r))
  ∨ (∃ w', player_turn (cfg := source_config) [5; 3; 0] 1 (Finite 10) "Nymm"
             (mkWorld [] [] [7%nat]) = (Raise EOFError, w')
           ∧ at_eof (mkWorld [] [] [7%nat]) w')
  ∨ (∃ w', player_turn (cfg := source_config) [5; 3; 0] 1 (Finite 10) "Nymm"
             (mkWorld [] [] [7%nat]) = (Raise ValueError, w')
           ∧ bad_line (mkWorld [] [] [7%nat]) w').
Proof.
  apply (player_turn_refines (cfg := source_config) [5; 3; 0] 1 (Finite 10) "Nymm"
           (mkWorld [] [] [7%nat])); [|reflexivity].
  solve_state_ok.
Defined.
