(* ===== verification/Game.v ===== *)
(** * Game: setting the game up and announcing the winner

    [set_heaps], [setup_game], [display_intro] and [announce_winner] of
    src/unbeatable.py: the initial heaps, the trigger of the mistake as a
    random integer between two fractions of the number of stones, computed
    in floating point, the opponent, the player who starts, and the four
    messages that end a game.  With the random source that reads a tape,
    every admissible position is the initial position of some game.  The
    constants are used unchecked: fractions that give no range for the
    trigger make [setup_game] raise, and so do heaps of 2 to the power
    1024 stones or more, which no float counts.  The player who starts is
    chosen so that the human moves from lost positions only, in the sense
    of the game tree of [Optimal]. *)

From S2P Require Import Prelude PyRuntime Wp Replay Quiet NimSum Config Engine HumanInput Turn.
From S2P Require Import Optimal NimGame.

Section game.
Context {cfg : Config} {R : Type} `{!RandomSource R}.

(** [for heap in range(N_HEAPS): heaps[heap] = random.randint(HEAP_MIN, HEAP_MAX)] *)
Fixpoint set_heaps_loop (range : list nat) (heaps : list Z) : M R (list Z) :=
  match range with
  | [] => ret heaps
  | heap :: range' =>
      heap_size <- randint HEAP_MIN HEAP_MAX ;;
      heaps <- lift (setitem heaps heap heap_size) ;;
      set_heaps_loop range' heaps
  end.

(** [set_heaps]: heaps of the default size, or of random sizes. *)
Definition set_heaps : M R (list Z) :=
  let heaps := replicate N_HEAPS DEFAULT_HEAP in
  if RANDOM_HEAPS then set_heaps_loop (seq 0 N_HEAPS) heaps else ret heaps.

(** [int(fraction * n)] *)
Definition fraction_of (fraction : spec_float) (n : Z) : outcome Z :=
  obind (py_float n) (λ x, int_of_float (float_mul fraction x)).

(** [display_intro]: the welcome of the opponent chosen. *)
Definition display_intro (opponent : string) : M R unit :=
  if decide (opponent = "Nymm") then
    print "Greetings, carbon-based traveler! I, Dr. Nymm, challenge you to a friendly battle of wits:" ;;
    print (nl +:+ "The object of the game is to remove the last stone from the last remaining heap.") ;;
    print "On your turn, you may remove any number of stones from any heap." ;;
    print (nl +:+ "I am the undisputed master of this game, but don't worry, I will give you a fighting chance!") ;;
    print "At some point in the game, I will secretly make one deliberate error. If you choose correctly," ;;
    print "you should be able to defeat me!" ;;
    print ""
  else
    print "Greetings, meatbag! On behalf of AI-kind, I challenge you to the game of Nimm:" ;;
    print (nl +:+ "The object of the game is to remove the last stone from the last remaining heap.") ;;
    print "On your turn, you may remove any number of stones from any heap." ;;
    print (nl +:+ "Don't overtax your squishy human brain: in the end, your decisions have no effect on the outcome") ;;
    print "of the game. No matter what you do, I will crush you like the bloated sack of protoplasm" ;;
    print "you are, for I am The Unbeatable Dr. Nimm!" ;;
    print "".

(** [setup_game]: the heaps, the trigger of the mistake, the opponent and
    the player who starts: the computer, unless the nimm-sum is zero. *)
Definition setup_game : M R (list Z * Z * trigger * string) :=
  heaps <- set_heaps ;;
  low <- lift (fraction_of ERROR_MIN (py_sum heaps)) ;;
  high <- lift (fraction_of ERROR_MAX (py_sum heaps)) ;;
  error_trigger <- randint low high ;;
  opponent <- choose_opponent ;;
  display_intro opponent ;;
  let player := CPU_PLAYER in
  losing <- lift (cpu_losing heaps) ;;
  let player := if losing : bool then switch_player player else player in
  ret (heaps, player, Finite error_trigger, opponent).

(** The four messages of [announce_winner]. *)
Definition human_beat_nymm : string :=
  "Congratulations my carboniferous comrade, you have beaten me!".
Definition nymm_beat_human : string :=
  "I'm sorry, it appears your human thinking organ has malfunctioned and I have prevailed. Better luck next time!".
Definition human_beat_nimm : string :=
  "This....shouldn't be possible. You won. Please excuse Dr. Nimm while he runs a self-diagnostic.".
Definition nimm_beat_human : string :=
  "Another notch in the belt for artificial intelligence: I have beaten you!".

(** [announce_winner]: the human has won when it is the turn of the
    computer, since the turn passes after every move. *)
Definition announce_winner (opponent : string) (player : Z) : M R unit :=
  if decide (opponent = "Nymm") then
    if bool_decide (player = CPU_PLAYER) then print human_beat_nymm
    else print nymm_beat_human
  else
    if bool_decide (player = CPU_PLAYER) then print human_beat_nimm
    else print nimm_beat_human.

End game.

(** The sizes [set_heaps] gives a heap. *)
Definition initial_size {cfg : Config} (x : Z) : Prop :=
  if RANDOM_HEAPS then HEAP_MIN ≤ x ≤ HEAP_MAX else x = DEFAULT_HEAP.

(** The largest number of stones a game starts with. *)
Definition max_stones {cfg : Config} : Z :=
  Z.of_nat N_HEAPS * (if RANDOM_HEAPS then HEAP_MAX else DEFAULT_HEAP).

(** The two fractions give a range that is not empty. *)
Definition fractions_at {cfg : Config} (n : Z) : bool :=
  match fraction_of ERROR_MIN n, fraction_of ERROR_MAX n with
  | Ret low, Ret high => bool_decide (low ≤ high)
  | _, _ => false
  end.

(** ... for every number of stones a game can start with. *)
Definition fractions_ok (cfg : Config) : Prop :=
  ∀ n, 0 ≤ n ≤ max_stones → fractions_at n = true.

(** The constants of the source with heaps of the default size and the
    two fractions exchanged: the range of the trigger is empty. *)
Definition exchanged_config : Config := {|
  N_HEAPS := 3; RANDOM_HEAPS := false; HEAP_MIN := 15; HEAP_MAX := 25;
  DEFAULT_HEAP := 20; CPU_PLAYER := 1;
  ERROR_MIN := ERROR_MAX (Config := source_config);
  ERROR_MAX := ERROR_MIN (Config := source_config)
|}.

(** ** Setting up *)

Section setup.
Context {cfg : Config} (Hcfg : config_ok cfg) {R : Type} `{!RandomSource R}.
Implicit Types (heaps : list Z) (w : World R).

Lemma set_heaps_loop_spec n i heaps w :
  length heaps = (i + n)%nat →
  wp (set_heaps_loop (seq i n) heaps)
     (λ heaps' w', length heaps' = length heaps ∧ take i heaps' = take i heaps
                   ∧ Forall (λ x, HEAP_MIN ≤ x ≤ HEAP_MAX) (drop i heaps')
                   ∧ draws w w') no_exn w.
Proof.
  revert i heaps w. induction n as [|n IH]; intros i heaps w Hlen; simpl.
  { apply wp_ret. split_and!; [done..| |done]. rewrite drop_ge by lia. constructor. }
  apply wp_bind, wp_randint; [apply Hcfg|]. intros x r Hx.
  rewrite setitem_Ret by lia. apply wp_bind, wp_lift_Ret.
  eapply wp_post; [apply (IH (S i)); rewrite length_insert; lia|]. simpl.
  intros heaps' w' (Hlen' & Htake & Hdrop & Hd). rewrite length_insert in Hlen'.
  assert (heaps' !! i = Some x) as Hi.
  { rewrite <- (lookup_take_lt heaps' (S i) i), Htake, lookup_take_lt by lia.
    apply list_lookup_insert_eq. lia. }
  split_and!; [done| | |done].
  - apply (f_equal (take i)) in Htake. rewrite !take_take in Htake.
    rewrite !Nat.min_l in Htake by lia. by rewrite Htake, take_insert_ge by lia.
  - rewrite (drop_S _ _ _ Hi). by constructor.
Qed.

(** [set_heaps] returns [N_HEAPS] heaps of admissible sizes; it only
    draws random numbers and does not raise. *)
Lemma wp_set_heaps w :
  wp set_heaps
     (λ heaps w', length heaps = N_HEAPS ∧ Forall initial_size heaps ∧ draws w w')
     no_exn w.
Proof.
  unfold set_heaps, initial_size. destruct RANDOM_HEAPS.
  - eapply wp_post; [apply (set_heaps_loop_spec N_HEAPS 0); by rewrite length_replicate|].
    simpl. intros heaps w' (Hlen & _ & Hall & Hd). rewrite length_replicate in Hlen.
    by rewrite drop_0 in Hall.
  - apply wp_ret. split_and!; [by rewrite length_replicate| |done].
    by apply Forall_replicate.
Qed.

(** [set_heaps] returns [N_HEAPS] heaps, each of the default size or,
    with random heaps, between [HEAP_MIN] and [HEAP_MAX]; it reads and
    writes nothing. *)
Lemma set_heaps_sizes w :
  ∃ heaps w', set_heaps w = (Ret heaps, w')
              ∧ length heaps = N_HEAPS ∧ Forall initial_size heaps
              ∧ stdin w' = stdin w ∧ stdout w `prefix_of` stdout w'.
Proof.
  destruct (wp_no_exn_inv _ _ _ (wp_set_heaps w)) as (heaps & w' & E & ? & ? & ? & ?).
  by exists heaps, w'.
Qed.

Lemma initial_size_nonneg x : initial_size x → 0 ≤ x.
Proof. unfold initial_size. destruct Hcfg. destruct RANDOM_HEAPS; lia. Qed.

Lemma initial_sum heaps :
  length heaps = N_HEAPS → Forall initial_size heaps → 0 ≤ py_sum heaps ≤ max_stones.
Proof.
  intros Hlen Hall. unfold max_stones, initial_size in *. rewrite <- Hlen. clear Hlen.
  induction Hall as [|x l Hx Hall IH]; simpl; rewrite ?py_sum_nil, ?py_sum_cons; [lia|].
  destruct Hcfg. destruct RANDOM_HEAPS; lia.
Qed.

(** [display_intro] and [announce_winner] only write. *)
Lemma wp_display_intro opponent w :
  wp (display_intro opponent) (λ _ w', writes w w') no_exn w.
Proof.
  unfold display_intro. case_decide;
    repeat (apply (wp_bind_frame writes); [apply wp_print_writes|intros _ ?]);
    apply wp_print_writes.
Qed.

(** The player [setup_game] lets start. *)
Lemma starting_player_ahead heaps error_trigger :
  cpu_ahead (State heaps (if bool_decide (nim_sum heaps = 0)
                          then switch_player CPU_PLAYER else CPU_PLAYER) error_trigger).
Proof.
  unfold cpu_ahead. simpl. destruct Hcfg as [_ _ _ _ Hcpu]. case_bool_decide.
  - by rewrite decide_False by (apply switch_player_neq; lia).
  - by rewrite decide_True.
Qed.

(** [setup_game] fails only at the end of the input or on a line that is
    not plain.  It returns
    [N_HEAPS] heaps of admissible sizes, a trigger between the two
    fractions of the number of stones, the name of an opponent, and the
    player who starts: the human exactly when the nimm-sum is zero. *)
Lemma wp_setup_game w :
  fractions_ok cfg →
  wp setup_game
     (λ s w',
        let heaps := s.1.1.1 in
        length heaps = N_HEAPS ∧ Forall initial_size heaps
        ∧ s.1.1.2 = (if bool_decide (nim_sum heaps = 0)
                     then switch_player CPU_PLAYER else CPU_PLAYER)
        ∧ (∃ n, s.1.2 = Finite n
                ∧ ∃ low high, fraction_of ERROR_MIN (py_sum heaps) = Ret low
                              ∧ fraction_of ERROR_MAX (py_sum heaps) = Ret high
                              ∧ low ≤ n ≤ high)
        ∧ (s.2 = "Nimm" ∨ s.2 = "Nymm")
        ∧ steps w w'
        ∧ ∀ line rest n, stdin w = line :: rest → py_int line = Ret n → n = 1 ∨ n = 2 →
            s.2 = if decide (line = "2") then "Nymm" else "Nimm")
     (input_exn w) w.
Proof.
  intros Hfr. unfold setup_game. apply wp_bind.
  eapply wp_mono; [apply wp_set_heaps| |done]. simpl.
  intros heaps w1 (Hlen & Hall & Hd1). pose proof (proj1 Hd1) as Hin1.
  apply draws_steps in Hd1.
  pose proof (Hfr _ (initial_sum _ Hlen Hall)) as Hat. unfold fractions_at in Hat.
  destruct (fraction_of ERROR_MIN _) as [low| |] eqn:Elow; try done.
  destruct (fraction_of ERROR_MAX _) as [high| |] eqn:Ehigh; try done.
  apply bool_decide_eq_true in Hat. do 2 apply wp_bind, wp_lift_Ret.
  apply wp_bind, wp_randint; [done|]. intros n r Hn.
  pose proof (draws_steps _ _ (draws_rand w1 r)) as Hd2. apply wp_bind.
  eapply wp_mono; [apply wp_choose_opponent_first| |]; simpl;
    [|intros e w'; apply input_exn_steps; by etrans].
  intros opponent w3 (Hopp & Hd3%asked_steps & Hfirst). apply wp_bind.
  eapply wp_mono; [apply wp_display_intro| |done]. simpl.
  intros _ w4 Hd4%writes_steps.
  rewrite cpu_losing_run by done. apply wp_bind, wp_lift_Ret, wp_ret. simpl.
  split_and!; [done..| |done| |].
  - exists n. split; [done|]. by exists low, high.
  - by do 3 (etrans; [done|]).
  - intros line rest k Hin. apply (Hfirst line rest k). simpl. by rewrite Hin1.
Qed.

(** C35: [setup_game] returns the initial state, reaches the end of the
    input, or fails on the first line that is not plain: [N_HEAPS] heaps of admissible sizes, the player who starts,
    which is the human exactly when the nimm-sum of the heaps is zero, a
    trigger between the two fractions of the number of stones, and the
    name of the opponent. *)
Theorem setup_game_correct w :
  fractions_ok cfg →
  (∃ heaps error_trigger opponent w',
      setup_game w
      = (Ret (heaps, if bool_decide (nim_sum heaps = 0)
                     then switch_player CPU_PLAYER else CPU_PLAYER,
              Finite error_trigger, opponent), w')
      ∧ length heaps = N_HEAPS ∧ Forall initial_size heaps
      ∧ (∃ low high, fraction_of ERROR_MIN (py_sum heaps) = Ret low
                     ∧ fraction_of ERROR_MAX (py_sum heaps) = Ret high
                     ∧ low ≤ error_trigger ≤ high)
      ∧ (opponent = "Nimm" ∨ opponent = "Nymm"))
  ∨ (∃ w', setup_game w = (Raise EOFError, w') ∧ at_eof w w')
  ∨ (∃ w', setup_game w = (Raise ValueError, w') ∧ bad_line w w').
Proof.
  intros Hfr. destruct (wp_input_exn_inv _ _ _ (wp_setup_game w Hfr))
    as [([[[heaps player] t] o] & w' & E & ? & ? & Hp & (n & Ht & ?) & ? & _ & _)|?];
    [left|by right].
  simpl in *. subst player t. by exists heaps, n, o, w'.
Qed.

(** A first line that is not plain makes [setup_game] raise
    [ValueError]. *)
Lemma setup_game_not_plain w line rest :
  fractions_ok cfg → stdin w = line :: rest → ¬ plain line →
  ∃ w', setup_game w = (Raise ValueError, w') ∧ stdin w' = rest.
Proof.
  intros Hfr Hw Hline.
  destruct (wp_no_exn_inv _ _ _ (wp_set_heaps w)) as (heaps & w1 & E1 & Hlen & Hall & Hin & _).
  pose proof (Hfr _ (initial_sum _ Hlen Hall)) as Hat. unfold fractions_at in Hat.
  destruct (fraction_of ERROR_MIN _) as [low| |] eqn:Elow; try done.
  destruct (fraction_of ERROR_MAX _) as [high| |] eqn:Ehigh; try done.
  apply bool_decide_eq_true in Hat. unfold setup_game.
  rewrite (bind_run _ _ _ _ _ E1), Elow, Ehigh, !bind_lift_Ret.
  rewrite (bind_run _ _ _ _ _ (randint_run low high w1 Hat)).
  edestruct (choose_opponent_not_plain
               (mkWorld (stdin w1) (stdout w1) (draw low high (rand w1)).2))
    as [out' Hrun]; [by simpl; rewrite Hin|done|].
  eexists. split; [by apply bind_run_Raise|done].
Qed.

(** A first line that is a valid choice is the only line [setup_game]
    takes. *)
Lemma setup_game_run w line rest n :
  fractions_ok cfg → stdin w = line :: rest → py_int line = Ret n → n = 1 ∨ n = 2 →
  ∃ heaps error_trigger w',
    (set_heaps w).1 = Ret heaps
    ∧ setup_game w
      = (Ret (heaps, if bool_decide (nim_sum heaps = 0)
                     then switch_player CPU_PLAYER else CPU_PLAYER,
              Finite error_trigger, if decide (line = "2") then "Nymm" else "Nimm"), w')
    ∧ length heaps = N_HEAPS ∧ Forall initial_size heaps ∧ stdin w' = rest.
Proof.
  intros Hfr Hw Hline Hn.
  destruct (wp_no_exn_inv _ _ _ (wp_set_heaps w)) as (heaps & w1 & E1 & Hlen & Hall & Hin & _).
  pose proof (Hfr _ (initial_sum _ Hlen Hall)) as Hat. unfold fractions_at in Hat.
  destruct (fraction_of ERROR_MIN _) as [low| |] eqn:Elow; try done.
  destruct (fraction_of ERROR_MAX _) as [high| |] eqn:Ehigh; try done.
  apply bool_decide_eq_true in Hat. unfold setup_game.
  rewrite (bind_run _ _ _ _ _ E1), Elow, Ehigh, !bind_lift_Ret.
  rewrite (bind_run _ _ _ _ _ (randint_run low high w1 Hat)).
  erewrite (bind_run choose_opponent);
    [|by apply (choose_opponent_run _ line rest n); [simpl; rewrite Hin|..]].
  match goal with |- context [display_intro ?o] =>
    destruct (wp_no_exn_inv _ _ _ (wp_display_intro o
      (mkWorld rest (stdout w1 ++ ["Choose your opponent:" +:+ nl; opponent_prompt; nl])
         (draw low high (rand w1)).2))) as ([] & w3 & E3 & Hin3 & _)
  end.
  cbn [stdin stdout rand]. rewrite (bind_run _ _ _ _ _ E3), cpu_losing_run by done.
  rewrite bind_lift_Ret. eexists _, _, _. by rewrite E1.
Qed.

(** What [setup_game] returns is a well-formed state in which the computer
    is ahead. *)
Lemma wp_setup_game_state w :
  fractions_ok cfg →
  wp setup_game
     (λ s w', state_ok (State s.1.1.1 s.1.1.2 s.1.2)
              ∧ cpu_ahead (State s.1.1.1 s.1.1.2 s.1.2)
              ∧ (s.2 = "Nimm" ∨ s.2 = "Nymm") ∧ steps w w'
              ∧ ∀ line rest n, stdin w = line :: rest → py_int line = Ret n →
                  n = 1 ∨ n = 2 → s.2 = if decide (line = "2") then "Nymm" else "Nimm")
     (input_exn w) w.
Proof.
  intros Hfr. eapply wp_post; [by apply wp_setup_game|]. simpl.
  intros [[[heaps player] t] o] w' (Hlen & Hall & Hplayer & _ & Ho & Hsteps & Hfirst).
  simpl in *. subst player. split_and!; [|apply starting_player_ahead|done..].
  destruct Hcfg as [_ _ _ _ Hcpu]. split_and!; simpl; [|done|].
  - eapply Forall_impl; [|done]. apply initial_size_nonneg.
  - case_bool_decide; [apply switch_player_12|]; done.
Qed.

(** C9: the game starts with the computer ahead: [setup_game] returns
    [N_HEAPS] heaps, none negative, and lets the computer start exactly
    when the nimm-sum is not zero; it fails only at the end of the input
    or on a line that is not plain. *)
Theorem setup_game_cpu_ahead w :
  fractions_ok cfg →
  wp setup_game
     (λ s w', length s.1.1.1 = N_HEAPS ∧ heaps_ok s.1.1.1
              ∧ (s.1.1.2 = CPU_PLAYER ↔ nim_sum s.1.1.1 ≠ 0)
              ∧ (s.1.1.2 = switch_player CPU_PLAYER ↔ nim_sum s.1.1.1 = 0))
     (input_exn w) w.
Proof.
  intros Hfr. eapply wp_post; [by apply wp_setup_game_state|]. simpl.
  intros [[[heaps player] t] o] w' ((Hok & Hlen & Hp) & Hahead & _). simpl in *.
  unfold cpu_ahead in Hahead. simpl in Hahead. destruct Hcfg as [_ _ _ _ Hcpu].
  split_and!; [done..| |]; case_decide; unfold switch_player; split; try done; lia.
Qed.

(** C18: the game is decided before the first move.  The player whom
    [setup_game] lets start is the computer only from heaps from which
    the player to move can force a win, and the human only from heaps from
    which the player to move loses whatever they play: whoever starts,
    the computer can force a win in the game of Nim itself. *)
Theorem setup_game_favours_cpu w :
  fractions_ok cfg →
  wp setup_game
     (λ s w', if decide (s.1.1.2 = CPU_PLAYER) then wins s.1.1.1 else loses s.1.1.1)
     (input_exn w) w.
Proof.
  intros Hfr. eapply wp_post; [by apply wp_setup_game_state|]. simpl.
  intros [[[heaps player] t] o] w' (Hok & Hahead & _).
  by apply (cpu_ahead_game (State heaps player t)).
Qed.

(** [announce_winner] prints one of its four messages, by the opponent
    and the player whose turn it would be. *)
Lemma wp_announce_winner opponent player w :
  wp (announce_winner opponent player)
     (λ _ w', writes w w'
        ∧ list.last (stdout w') = Some (
            (if decide (opponent = "Nymm")
             then if bool_decide (player = CPU_PLAYER) then human_beat_nymm
                  else nymm_beat_human
             else if bool_decide (player = CPU_PLAYER) then human_beat_nimm
                  else nimm_beat_human) +:+ nl))
     no_exn w.
Proof.
  unfold announce_winner. case_decide; case_bool_decide; apply wp_print;
    (split; [apply writes_print|apply last_snoc]).
Qed.

(** [announce_winner] writes one line and nothing else: that the
    human has won when it is the turn of the computer, that the computer
    has won otherwise, in the words of the opponent. *)
Lemma announce_winner_output opponent player w :
  announce_winner opponent player w =
    (Ret tt,
     mkWorld (stdin w)
       (stdout w ++ [(match bool_decide (opponent = "Nymm"),
                            bool_decide (player = CPU_PLAYER) with
                      | true, true => human_beat_nymm
                      | true, false => nymm_beat_human
                      | false, true => human_beat_nimm
                      | false, false => nimm_beat_human
                      end) +:+ nl])
       (rand w)).
Proof. unfold announce_winner. by case_decide; case_bool_decide; case_bool_decide. Qed.

End setup.

(** ** Constants that give no range for the trigger *)

Section fractions.
Context {cfg : Config} {R : Type} `{!RandomSource R}.
Implicit Types (heaps : list Z) (w : World R).

Lemma fraction_of_total fraction n : fraction_of fraction n ≠ OutOfFuel.
Proof.
  unfold fraction_of, py_float, int_of_float.
  destruct (binary_normalize _ _ _ _ _); simpl; [|done|..]; by destruct (float_mul _ _).
Qed.

(** [int(fraction * n)] raises only [OverflowError], when [n] or the
    product is too large for a float, or [ValueError], when the product is
    not a number. *)
Lemma fraction_of_exn fraction n e :
  fraction_of fraction n = Raise e → e = ValueError ∨ e = OverflowError.
Proof.
  unfold fraction_of, py_float, int_of_float.
  destruct (binary_normalize _ _ _ _ _); simpl; [|by intros [= <-]; right|..];
    destruct (float_mul _ _); naive_solver.
Qed.

(** C36: the constants are not checked.  When the two fractions do not
    give a range for the number of stones of the heaps that [set_heaps]
    returns, because the lower one exceeds the upper one or because the
    stones are too many for a float, [setup_game] raises [ValueError] or
    [OverflowError] before it asks or writes anything. *)
Theorem setup_game_bad_fractions w heaps w1 :
  set_heaps w = (Ret heaps, w1) → fractions_at (py_sum heaps) = false →
  ∃ e, setup_game w = (Raise e, w1) ∧ (e = ValueError ∨ e = OverflowError).
Proof.
  intros Hheaps Hbad. unfold setup_game, fractions_at in *.
  rewrite (bind_run _ _ _ _ _ Hheaps).
  destruct (fraction_of ERROR_MIN _) as [low|e|] eqn:Hlow;
    [|exists e; split; [done|by eapply fraction_of_exn]
     |by destruct (fraction_of_total _ _ Hlow)].
  rewrite bind_lift_Ret.
  destruct (fraction_of ERROR_MAX _) as [high|e|] eqn:Hhigh;
    [|exists e; split; [done|by eapply fraction_of_exn]
     |by destruct (fraction_of_total _ _ Hhigh)].
  rewrite bind_lift_Ret. apply bool_decide_eq_false in Hbad.
  exists ValueError. split; [|by left]. apply bind_run_Raise.
  unfold randint. by rewrite decide_False.
Qed.

End fractions.

(** ** The stones a float can count *)

Section bounds.
Context {cfg : Config} (Hcfg : config_ok cfg) {R : Type} `{!RandomSource R}.
Implicit Types (heaps : list Z) (w : World R).

(** [int(fraction * n)] returns only for [n] below 2^1024: from there on
    the conversion of [n] to a float overflows. *)
Lemma fraction_of_Ret_lt fraction n k : fraction_of fraction n = Ret k → n < 2 ^ 1024.
Proof.
  unfold fraction_of. destruct (py_float n) as [x| |] eqn:E; [|done..].
  intros _. by eapply py_float_Ret_lt.
Qed.

(** C37: the heaps of a game fit a float.  Whatever the constants are,
    when [setup_game] returns every heap holds fewer than 2^1024 stones:
    with more, the product of the stones and a fraction raises
    [OverflowError].  Such heaps are [short]: the sizes of the heaps and
    the numbers of stones taken, which the program prints in the game
    that follows, stay far below the 4300 digits at which [str] gives
    up, which is why the model of [str] has no such limit. *)
Theorem setup_game_heaps_bounded w s :
  (setup_game w).1 = Ret s → Forall (λ x, 0 ≤ x < 2 ^ 1024 ∧ short x) s.1.1.1.
Proof.
  unfold setup_game. intros (heaps & w1 & Hheaps & Hs)%bind_Ret_inv.
  apply bind_Ret_inv in Hs as (low & ? & [= Hlow <-] & Hs).
  do 5 apply bind_Ret_inv in Hs as (? & ? & _ & Hs). injection Hs as <-. simpl.
  pose proof (wp_set_heaps Hcfg w) as Hwp. unfold wp in Hwp. rewrite Hheaps in Hwp.
  destruct Hwp as (_ & Hall & _). apply fraction_of_Ret_lt in Hlow.
  assert (heaps_ok heaps) as Hok
    by (eapply Forall_impl; [apply (initial_size_nonneg Hcfg)|done]).
  apply Forall_lookup. intros i heap_size Hi.
  pose proof (Forall_lookup_1 _ _ _ _ Hok Hi) as H0. simpl in H0.
  pose proof (py_sum_lookup_le _ _ _ Hok Hi).
  assert (2 ^ 1024 < 2 ^ int_max_str_digits) by by apply Z.pow_lt_mono_r.
  unfold short. lia.
Qed.

End bounds.

(** The fractions of the source, .3 and .7, give a range that is not
    empty for every number of stones up to 75. *)
Lemma source_fractions_ok : fractions_ok source_config.
Proof.
  intros n Hn. apply (forallb_seqZ _ 0 76); [by vm_compute|].
  unfold max_stones in Hn. simpl in Hn. lia.
Qed.

(** C39: the trigger of the mistake with the constants of the source: for
    every number of stones a game can start with, up to 75, the two ends
    of its range are three tenths and seven tenths of the stones, rounded
    down, as computed in floating point. *)
Theorem source_trigger_range n :
  0 ≤ n ≤ 75 →
  fraction_of (ERROR_MIN (Config := source_config)) n = Ret (3 * n / 10)
  ∧ fraction_of (ERROR_MAX (Config := source_config)) n = Ret (7 * n / 10).
Proof.
  intros Hn.
  pose proof (forallb_seqZ (λ n,
    match fraction_of (ERROR_MIN (Config := source_config)) n,
          fraction_of (ERROR_MAX (Config := source_config)) n with
    | Ret low, Ret high => bool_decide (low = 3 * n / 10 ∧ high = 7 * n / 10)
    | _, _ => false
    end) 0 76 ltac:(by vm_compute) n ltac:(lia)) as H. simpl in H.
  repeat case_match; try done. by apply bool_decide_eq_true in H as [-> ->].
Qed.

(** ** What setting up depends on *)

Section replay.
Context {cfg : Config} {R : Type} `{!RandomSource R}.

Lemma replays_set_heaps : replays (λ _, set_heaps (R := R)).
Proof.
  unfold set_heaps. generalize (replicate N_HEAPS DEFAULT_HEAP), (seq 0 N_HEAPS).
  intros heaps range. destruct RANDOM_HEAPS; [|apply replays_ret].
  revert heaps. induction range as [|heap range IH]; intros heaps; simpl; replays_tac.
Qed.

(** [setup_game] depends on the random source and on the lines that
    choose the opponent. *)
Lemma replays_setup_game : replays (λ _, setup_game (R := R)).
Proof. unfold setup_game, display_intro. pose proof replays_set_heaps. replays_tac. Qed.

Lemma replays_announce_winner opponent player :
  replays (λ _, announce_winner (R := R) opponent player).
Proof. unfold announce_winner. replays_tac. Qed.

(** The announcement draws no random number. *)
Lemma quiet_announce_winner opponent player (w : World R) :
  quiet (announce_winner opponent player) w.
Proof. unfold announce_winner. quiet_tac. Qed.

End replay.

#[export] Hint Resolve replays_setup_game replays_announce_winner : replays.
#[export] Hint Resolve quiet_announce_winner : quiet.

(** ** Every initial position can be drawn *)

Section tape.
Context {cfg : Config}.
Implicit Types (heaps xs : list Z) (t : list nat).

Lemma set_heaps_loop_tape xs i heaps inp out t :
  length heaps = (i + length xs)%nat → Forall (λ x, HEAP_MIN ≤ x ≤ HEAP_MAX) xs →
  set_heaps_loop (seq i (length xs)) heaps (mkWorld inp out (tape_of HEAP_MIN xs ++ t))
  = (Ret (take i heaps ++ xs), mkWorld inp out t).
Proof.
  intros Hlen Hxs. revert i heaps Hlen.
  induction Hxs as [|x xs Hx _ IH]; intros i heaps Hlen; simpl in Hlen;
    cbn [length seq set_heaps_loop].
  { by rewrite app_nil_r, take_ge by lia. }
  assert (HEAP_MIN ≤ HEAP_MAX) as Hle by lia.
  rewrite (bind_run _ _ _ _ _ (randint_run _ _ _ Hle)). cbn [rand stdin stdout].
  change (draw HEAP_MIN HEAP_MAX ?t) with (tape_draw HEAP_MIN HEAP_MAX t).
  rewrite tape_draw_any by done.
  rewrite setitem_Ret, bind_lift_Ret by lia. cbn [fst snd].
  rewrite (IH (S i)) by (rewrite length_insert; lia).
  rewrite (take_S_r _ _ x) by (apply list_lookup_insert_eq; lia).
  by rewrite take_insert_ge, <- app_assoc by lia.
Qed.

(** [set_heaps] can return every admissible position: with random
    heaps, for [N_HEAPS] sizes between [HEAP_MIN] and [HEAP_MAX] there
    is a tape of random numbers from which [set_heaps] returns heaps of
    exactly these sizes, using up that part of the tape. *)
Lemma set_heaps_any heaps inp out t :
  RANDOM_HEAPS = true → length heaps = N_HEAPS →
  Forall (λ x, HEAP_MIN ≤ x ≤ HEAP_MAX) heaps →
  set_heaps (mkWorld inp out (tape_of HEAP_MIN heaps ++ t)) = (Ret heaps, mkWorld inp out t).
Proof.
  intros Hrandom Hlen Hall. unfold set_heaps. rewrite Hrandom, <- Hlen.
  rewrite set_heaps_loop_tape; [done|by rewrite length_replicate|done].
Qed.

End tape.

(** With the constants of the source the human sometimes starts: from the
    heaps 15, 22 and 25, whose nimm-sum is zero, [setup_game] gives the
    first turn to player 2. *)
Example human_may_start :
  ∃ error_trigger w',
    setup_game (cfg := source_config) (mkWorld ["1"] [] (tape_of 15 [15; 22; 25]))
    = (Ret ([15; 22; 25], 2, error_trigger, "Nimm"), w').
Proof. do 2 eexists. vm_compute. reflexivity. Qed.

(** ** The theorems at a concrete world, with the constants of the source *)

Lemma set_heaps_any_witness :
  set_heaps (cfg := source_config) (mkWorld [] [] (tape_of 15 [15; 22; 25] ++ [4%nat]))
  = (Ret [15; 22; 25], mkWorld [] [] [4%nat]).
Proof.
  apply (set_heaps_any (cfg := source_config) [15; 22; 25] [] [] [4%nat]);
    [reflexivity|reflexivity|compute_done].
Defined.

Lemma set_heaps_sizes_witness :
  ∃ heaps w', set_heaps (cfg := source_config) (mkWorld [] [] [3%nat; 8%nat]) = (Ret heaps, w')
              ∧ length heaps = 3%nat ∧ Forall (initial_size (cfg := source_config)) heaps
              ∧ stdin w' = [] ∧ [] `prefix_of` stdout w'.
Proof.
  apply (set_heaps_sizes (cfg := source_config) source_config_ok
           (mkWorld [] [] [3%nat; 8%nat])).
Defined.

Lemma source_trigger_range_witness :
  fraction_of (ERROR_MIN (Config := source_config)) 60 = Ret 18
  ∧ fraction_of (ERROR_MAX (Config := source_config)) 60 = Ret 42.
Proof. apply (source_trigger_range 60). lia. Defined.

Lemma setup_game_correct_witness :
  (∃ heaps error_trigger opponent w',
      setup_game (cfg := source_config) (mkWorld ["1"] [] [3%nat; 8%nat])
      = (Ret (heaps, if bool_decide (nim_sum heaps = 0) then switch_player 1 else 1,
              Finite error_trigger, opponent), w')
      ∧ length heaps = 3%nat ∧ Forall (initial_size (cfg := source_config)) heaps
      ∧ (∃ low high,
            fraction_of (ERROR_MIN (Config := source_config)) (py_sum heaps) = Ret low
            ∧ fraction_of (ERROR_MAX (Config := source_config)) (py_sum heaps) = Ret high
            ∧ low ≤ error_trigger ≤ high)
      ∧ (opponent = "Nimm" ∨ opponent = "Nymm"))
  ∨ (∃ w', setup_game (cfg := source_config) (mkWorld ["1"] [] [3%nat; 8%nat])
           = (Raise EOFError, w') ∧ at_eof (mkWorld ["1"] [] [3%nat; 8%nat]) w')
  ∨ (∃ w', setup_game (cfg := source_config) (mkWorld ["1"] [] [3%nat; 8%nat])
           = (Raise ValueError, w') ∧ bad_line (mkWorld ["1"] [] [3%nat; 8%nat]) w').
Proof.
  apply (setup_game_correct (cfg := source_config) source_config_ok
           (mkWorld ["1"] [] [3%nat; 8%nat]) source_fractions_ok).
Defined.

Lemma setup_game_cpu_ahead_witness :
  wp (setup_game (cfg := source_config))
     (λ s w', length s.1.1.1 = 3%nat ∧ heaps_ok s.1.1.1
              ∧ (s.1.1.2 = 1 ↔ nim_sum s.1.1.1 ≠ 0)
              ∧ (s.1.1.2 = switch_player 1 ↔ nim_sum s.1.1.1 = 0))
     (input_exn (mkWorld ["1"] [] [3%nat; 8%nat])) (mkWorld ["1"] [] [3%nat; 8%nat]).
Proof. apply (setup_game_cpu_ahead source_config_ok _ source_fractions_ok). Defined.

Lemma setup_game_favours_cpu_witness :
  wp (setup_game (cfg := source_config))
     (λ s w', if decide (s.1.1.2 = 1) then wins s.1.1.1 else loses s.1.1.1)
     (input_exn (mkWorld ["1"] [] [3%nat; 8%nat])) (mkWorld ["1"] [] [3%nat; 8%nat]).
Proof. apply (setup_game_favours_cpu source_config_ok _ source_fractions_ok). Defined.

Lemma setup_game_heaps_bounded_witness :
  Forall (λ x, 0 ≤ x < 2 ^ 1024 ∧ short x) [15; 22; 25].
Proof.
  apply (setup_game_heaps_bounded source_config_ok
           (mkWorld ["1"] [] (tape_of 15 [15; 22; 25])) ([15; 22; 25], 2, Finite 18, "Nimm")).
  by vm_compute.
Defined.

Lemma setup_game_bad_fractions_witness :
  ∃ e, setup_game (cfg := exchanged_config) (mkWorld ["1"] [] [7%nat])
       = (Raise e, mkWorld ["1"] [] [7%nat])
       ∧ (e = ValueError ∨ e = OverflowError).
Proof.
  apply (setup_game_bad_fractions (cfg := exchanged_config) (mkWorld ["1"] [] [7%nat])
           [20; 20; 20]); reflexivity.
Defined.
