(* ===== verification/Unbeatable.v ===== *)
(** * Unbeatable: [main] and whole games

    [main] of src/unbeatable.py and its loop.  The loop runs while stones
    are left; [main_loop] takes fuel, and [main] gives it the number of
    stones on the heaps at the start, which is enough because every turn
    takes a stone.  The loop refines the runs of the transition system of
    [NimGame]; from the theorems on runs it follows that the loop ends,
    that the program fails only when the human stops typing or types
    digits that [int] does not read, and that Dr. Nimm wins every game
    played to its end.  [main_loop_log] is the loop with a log of the
    kinds of the turns it enters; the log does not change what the loop
    does, it labels a run of the transition system, and it holds at most
    one mistake of the computer, and none in some games against Dr. Nymm.
    In the other direction, a human who is ahead of a computer that no
    longer errs can type the lines that win the game, and every game
    against Dr. Nimm can be played to its end.  Against Dr. Nimm the
    random draws are those of [setup_game] alone.  A game whose heaps
    start empty ends without a turn, with the computer announced as the
    winner, and a game with a single heap ends with the first move of
    the computer. *)

From S2P Require Import Prelude PyRuntime Wp Replay Quiet NimSum Config Engine HumanInput Turn.
From S2P Require Import NimGame Game.

Section main.
Context {cfg : Config} {R : Type} `{!RandomSource R}.

(** [while sum(heaps) > 0: ... = player_turn(...)] *)
Fixpoint main_loop (fuel : nat) (heaps : list Z) (player : Z) (error_trigger : trigger)
    (opponent : string) : M R (list Z * Z * trigger) :=
  if bool_decide (py_sum heaps > 0) then
    match fuel with
    | O => lift OutOfFuel
    | S fuel' =>
        r <- player_turn heaps player error_trigger opponent ;;
        main_loop fuel' r.1.1 r.1.2 r.2 opponent
    end
  else ret (heaps, player, error_trigger).

(** The loop of [main] with a log: beside the result of [main_loop] and
    the world it leaves, the kinds of the turns the loop entered, in
    order.  The log is no part of the program; it is what the theorems on
    the turns of a game speak of. *)
Fixpoint main_loop_log (fuel : nat) (heaps : list Z) (player : Z) (error_trigger : trigger)
    (opponent : string) (w : World R) : outcome (list Z * Z * trigger) * World R * list kind :=
  if bool_decide (py_sum heaps > 0) then
    match fuel with
    | O => (OutOfFuel, w, [])
    | S fuel' =>
        let k := turn_kind opponent heaps player error_trigger in
        match player_turn heaps player error_trigger opponent w with
        | (Ret r, w') =>
            let rest := main_loop_log fuel' r.1.1 r.1.2 r.2 opponent w' in
            (rest.1, k :: rest.2)
        | (Raise e, w') => (Raise e, w', [k])
        | (OutOfFuel, w') => (OutOfFuel, w', [k])
        end
    end
  else (Ret (heaps, player, error_trigger), w, []).

(** [main] *)
Definition main : M R unit :=
  s <- setup_game ;;
  let heaps := s.1.1.1 in
  let player := s.1.1.2 in
  let error_trigger := s.1.2 in
  let opponent := s.2 in
  r <- main_loop (Z.to_nat (py_sum heaps)) heaps player error_trigger opponent ;;
  announce_winner opponent r.1.2.

(** [if __name__ == "__main__": main()]: the file run as a script plays a
    game; loaded under another name it does nothing. *)
Definition script (name : string) : M R unit :=
  if decide (name = "__main__") then main else ret tt.

End main.

(** The constants of the source with smaller heaps, between 1 and 25
    stones, for the games played by evaluation below. *)
Definition small_config : Config := {|
  N_HEAPS := 3; RANDOM_HEAPS := true; HEAP_MIN := 1; HEAP_MAX := 25;
  DEFAULT_HEAP := 20; CPU_PLAYER := 1;
  ERROR_MIN := ERROR_MIN (Config := source_config);
  ERROR_MAX := ERROR_MAX (Config := source_config)
|}.

(** The constants of the source with heaps of the default size and that
    size zero: a game without stones. *)
Definition empty_config : Config := {|
  N_HEAPS := 3; RANDOM_HEAPS := false; HEAP_MIN := 15; HEAP_MAX := 25;
  DEFAULT_HEAP := 0; CPU_PLAYER := 1;
  ERROR_MIN := ERROR_MIN (Config := source_config);
  ERROR_MAX := ERROR_MAX (Config := source_config)
|}.

(** ** The loop refines the runs of the transition system *)

Section refinement.
Context {cfg : Config} (Hcfg : config_ok cfg) {R : Type} `{!RandomSource R}.
Implicit Types (heaps : list Z) (w : World R) (player : Z) (error_trigger : trigger).

(** The loop of [main], with fuel for one turn per stone: it does not run
    out of fuel, fails only at the end of the input or on a line that is
    not plain, and returns a finished state that a run of the transition
    system reaches. *)
Lemma wp_main_loop fuel heaps player error_trigger opponent w :
  state_ok (State heaps player error_trigger) → py_sum heaps ≤ Z.of_nat fuel →
  wp (main_loop fuel heaps player error_trigger opponent)
     (λ r w', (∃ ks, run opponent (State heaps player error_trigger) ks (state_of r))
              ∧ finished (state_of r) ∧ steps w w')
     (input_exn w) w.
Proof.
  revert heaps player error_trigger w.
  induction fuel as [|fuel IH]; intros heaps player t w Hok Hfuel; simpl;
    pose proof (py_sum_nonneg heaps (proj1 Hok)); case_bool_decide.
  - lia.
  - apply wp_ret. split_and!; [exists []; constructor|unfold finished; simpl; lia|done].
  - apply wp_bind_input. eapply wp_post; [apply wp_player_turn_step; [done|lia]|].
    simpl. intros [[heaps' player'] t'] w1 [[k Hstep] Hsteps]. split; [done|].
    pose proof (turn_step_sum _ _ _ _ Hstep). unfold state_of in *. simpl in *.
    eapply wp_post; [apply IH; [by eapply turn_step_ok|lia]|]. simpl.
    intros r w2 ([ks Hrun] & Hfin & Hsteps2). split_and!; [|done|by etrans].
    exists (k :: ks). by econstructor.
  - apply wp_ret. split_and!; [exists []; constructor|unfold finished; simpl; lia|done].
Qed.

(** A computer that is ahead and does not err finds a nonzero nimm-sum on
    each of its turns, so that the loop of [main] draws no random number,
    however it ends. *)
Lemma quiet_main_loop fuel heaps player error_trigger opponent w :
  state_ok (State heaps player error_trigger) →
  perfect opponent (State heaps player error_trigger) →
  cpu_ahead (State heaps player error_trigger) →
  quiet (main_loop fuel heaps player error_trigger opponent) w.
Proof.
  revert heaps player error_trigger w.
  induction fuel as [|fuel IH]; intros heaps player t w Hok Hperfect Hahead; simpl;
    case_bool_decide; try by quiet_tac.
  apply quiet_bind.
  - apply quiet_player_turn; [apply Hok..|]. intros ->. unfold cpu_ahead in Hahead.
    simpl in Hahead. rewrite decide_True in Hahead by done. split; [|done].
    destruct Hperfect as [?|Ht]; [by apply cpu_errs_Nimm|].
    simpl in Ht. subst t. apply cpu_errs_NegInf.
  - intros [[heaps' player'] t'] w1 E.
    pose proof (wp_player_turn_step _ _ _ opponent w Hok ltac:(lia)) as Hturn.
    unfold wp in Hturn. rewrite E in Hturn. destruct Hturn as [[k Hstep] _].
    destruct (turn_step_perfect _ _ _ _ Hperfect Hstep).
    apply IH; [by eapply turn_step_ok|done|by eapply (turn_step_ahead Hcfg)].
Qed.

(** C5: the loop of [main] ends, and the amount of fuel does not matter
    once there is one unit per stone: entered in a well-formed state
    ([N_HEAPS] heaps, none negative, and a player who is 1 or 2), with two
    such amounts the loop gives the same result, and that result is not
    that the fuel ran out. *)
Theorem main_loop_terminates fuel fuel' heaps player error_trigger opponent w :
  state_ok (State heaps player error_trigger) →
  py_sum heaps ≤ Z.of_nat fuel → py_sum heaps ≤ Z.of_nat fuel' →
  main_loop fuel heaps player error_trigger opponent w
  = main_loop fuel' heaps player error_trigger opponent w
  ∧ (main_loop fuel heaps player error_trigger opponent w).1 ≠ OutOfFuel.
Proof.
  intros Hok Hfuel Hfuel'. split; [|by eapply wp_total, wp_main_loop].
  revert fuel' heaps player error_trigger w Hok Hfuel Hfuel'.
  induction fuel as [|fuel IH]; intros [|fuel'] heaps player t w Hok Hfuel Hfuel';
    simpl; case_bool_decide; try done; try lia.
  pose proof (wp_player_turn_step _ _ _ opponent w Hok ltac:(lia)) as Hturn.
  unfold wp in Hturn. unfold bind.
  destruct (player_turn heaps player t opponent w) as [[[[heaps' player'] t']| |] w1];
    [|done..].
  destruct Hturn as [[k Hstep] _]. pose proof (turn_step_sum _ _ _ _ Hstep).
  unfold state_of in *. simpl in *. apply IH; [by eapply turn_step_ok|lia..].
Qed.

(** C21: the loop of [main] refines the transition system: with fuel for
    one turn per stone it returns a state without stones that a run of the
    system reaches from the initial state, having only read input and
    written output on the way, or it raises [EOFError] at the end of an
    input of plain lines, or it raises [ValueError] on the first line of
    the input that is not plain. *)
Theorem main_loop_refines fuel heaps player error_trigger opponent w :
  state_ok (State heaps player error_trigger) → py_sum heaps ≤ Z.of_nat fuel →
  (∃ r w' ks, main_loop fuel heaps player error_trigger opponent w = (Ret r, w')
              ∧ run opponent (State heaps player error_trigger) ks (state_of r)
              ∧ py_sum r.1.1 = 0 ∧ steps w w')
  ∨ (∃ w', main_loop fuel heaps player error_trigger opponent w = (Raise EOFError, w')
           ∧ at_eof w w')
  ∨ (∃ w', main_loop fuel heaps player error_trigger opponent w = (Raise ValueError, w')
           ∧ bad_line w w').
Proof.
  intros Hok Hfuel.
  destruct (wp_input_exn_inv _ _ _ (wp_main_loop fuel _ _ _ opponent w Hok Hfuel))
    as [(r & w' & E & [ks Hrun] & Hfin & ?)|?]; [left|by right].
  by exists r, w', ks.
Qed.

(** ** The turns the loop takes *)

(** The log does not change what the loop does. *)
Lemma main_loop_log_erase fuel heaps player error_trigger opponent w :
  (main_loop_log fuel heaps player error_trigger opponent w).1
  = main_loop fuel heaps player error_trigger opponent w.
Proof.
  revert heaps player error_trigger w.
  induction fuel as [|fuel IH]; intros heaps player t w; simpl;
    case_bool_decide; try done.
  unfold bind. destruct (player_turn heaps player t opponent w) as [[r| |] w1]; simpl; auto.
Qed.

(** A computer that no longer errs takes no turn in which it errs. *)
Lemma main_loop_log_perfect fuel heaps player error_trigger opponent w :
  state_ok (State heaps player error_trigger) →
  perfect opponent (State heaps player error_trigger) →
  CpuMistake ∉ (main_loop_log fuel heaps player error_trigger opponent w).2.
Proof.
  revert heaps player error_trigger w.
  induction fuel as [|fuel IH]; intros heaps player t w Hok Hp; simpl;
    case_bool_decide; try apply not_elem_of_nil.
  pose proof (turn_kind_perfect opponent _ Hp) as Hk. simpl in Hk.
  destruct (player_turn heaps player t opponent w) as [[r| |] w1] eqn:E; simpl;
    apply not_elem_of_cons; (split; [done|]); try apply not_elem_of_nil.
  pose proof (player_turn_kind _ _ _ _ _ _ _ Hok ltac:(lia) E) as Hstep.
  apply IH; [by eapply turn_step_ok|by eapply turn_step_perfect].
Qed.

(** The computer errs in at most one of the turns the loop takes. *)
Lemma main_loop_log_one_mistake fuel heaps player error_trigger opponent w :
  state_ok (State heaps player error_trigger) →
  (length (filter (λ k, k = CpuMistake)
     (main_loop_log fuel heaps player error_trigger opponent w).2) ≤ 1)%nat.
Proof.
  revert heaps player error_trigger w.
  induction fuel as [|fuel IH]; intros heaps player t w Hok; simpl;
    case_bool_decide; simpl; try lia.
  destruct (player_turn heaps player t opponent w) as [[r| |] w1] eqn:E; simpl;
    rewrite filter_cons; case_decide as Hk; simpl; try lia.
  - pose proof (player_turn_kind _ _ _ _ _ _ _ Hok ltac:(lia) E) as Hstep.
    rewrite Hk in Hstep. rewrite filter_not_elem_of; [done|].
    apply main_loop_log_perfect; [by eapply turn_step_ok|].
    right. by eapply turn_step_mistake.
  - pose proof (player_turn_kind _ _ _ _ _ _ _ Hok ltac:(lia) E) as Hstep.
    apply IH. by eapply turn_step_ok.
Qed.

(** When the loop returns, the turns it took are a run of the transition
    system from the state it was entered in to the state it returns. *)
Lemma main_loop_log_run fuel heaps player error_trigger opponent w r w' ks :
  state_ok (State heaps player error_trigger) →
  main_loop_log fuel heaps player error_trigger opponent w = (Ret r, w', ks) →
  run opponent (State heaps player error_trigger) ks (state_of r).
Proof.
  revert heaps player error_trigger w ks.
  induction fuel as [|fuel IH]; intros heaps player t w ks Hok; simpl;
    case_bool_decide; try (intros; simplify_eq; constructor).
  destruct (player_turn heaps player t opponent w) as [[r1| |] w1] eqn:E;
    try (intros; by simplify_eq).
  destruct (main_loop_log fuel r1.1.1 r1.1.2 r1.2 opponent w1) as [res ks'] eqn:Elog.
  intros; simplify_eq/=.
  pose proof (player_turn_kind _ _ _ _ _ _ _ Hok ltac:(lia) E) as Hstep.
  econstructor; [done|]. by eapply IH; [eapply turn_step_ok|].
Qed.

(** C22: the turns of a game are a run of the transition system.  When
    the loop of [main], entered in a well-formed state, returns, the kinds
    of the turns it took, in the order in which it took them, label a run
    of the system from the state in which the loop was entered to the
    state it returns: what the theorems on runs say of a sequence of
    turns, they say of the turns of the program. *)
Theorem main_loop_trace fuel heaps player error_trigger opponent w r w' :
  state_ok (State heaps player error_trigger) →
  main_loop fuel heaps player error_trigger opponent w = (Ret r, w') →
  run opponent (State heaps player error_trigger)
    (main_loop_log fuel heaps player error_trigger opponent w).2 (state_of r).
Proof.
  intros Hok Hrun. eapply main_loop_log_run; [done|].
  by rewrite (surjective_pairing (main_loop_log _ _ _ _ _ _)), main_loop_log_erase, Hrun.
Qed.

(** C8: Dr. Nymm errs at most once in a game.  The loop of [main] with a
    log of the kinds of the turns it enters does what the loop of [main]
    does, whatever the input and the random draws and however the loop
    ends; and when it is entered in a well-formed state, the log holds at
    most one turn in which [cpu_turn] takes the branch of [make_mistake],
    also when the loop fails. *)
Theorem main_loop_one_mistake fuel heaps player error_trigger opponent w :
  state_ok (State heaps player error_trigger) →
  (main_loop_log fuel heaps player error_trigger opponent w).1
  = main_loop fuel heaps player error_trigger opponent w
  ∧ (length (filter (λ k, k = CpuMistake)
       (main_loop_log fuel heaps player error_trigger opponent w).2) ≤ 1)%nat.
Proof.
  intros Hok. split; [apply main_loop_log_erase|by apply main_loop_log_one_mistake].
Qed.

(** C6: a computer that is ahead and does not err wins: when the loop of
    [main] returns, no stone is left and it is the turn of the human, so
    the computer took the last stone. *)
Theorem perfect_cpu_wins fuel heaps player error_trigger opponent w :
  state_ok (State heaps player error_trigger) →
  perfect opponent (State heaps player error_trigger) →
  cpu_ahead (State heaps player error_trigger) →
  py_sum heaps ≤ Z.of_nat fuel →
  wp (main_loop fuel heaps player error_trigger opponent)
     (λ r w', cpu_won (state_of r) ∧ steps w w') (input_exn w) w.
Proof.
  intros Hok Hperfect Hahead Hfuel. eapply wp_post; [by apply wp_main_loop|].
  simpl. intros r w' ([ks Hrun] & Hfin & Hsteps). split; [|done].
  by eapply (run_cpu_wins Hcfg).
Qed.

End refinement.

(** ** The chance of the human *)

Section chance.
Context {cfg : Config} (Hcfg : config_ok cfg) {R : Type} `{!RandomSource R}.
Implicit Types (heaps : list Z) (player : Z) (error_trigger : trigger) (r : R).

Lemma main_loop_done fuel heaps player error_trigger opponent (w : World R) :
  py_sum heaps ≤ 0 →
  main_loop fuel heaps player error_trigger opponent w = (Ret (heaps, player, error_trigger), w).
Proof. intros. destruct fuel; simpl; by rewrite bool_decide_eq_false_2 by lia. Qed.

Lemma main_loop_turn fuel heaps player error_trigger opponent (w : World R) res w' :
  0 < py_sum heaps →
  player_turn heaps player error_trigger opponent w = (Ret res, w') →
  main_loop (S fuel) heaps player error_trigger opponent w
  = main_loop fuel res.1.1 res.1.2 res.2 opponent w'.
Proof.
  intros Hsum Hturn. simpl. rewrite bool_decide_eq_true_2 by lia.
  by rewrite (bind_run _ _ _ _ _ Hturn).
Qed.

Lemma main_loop_log_done fuel heaps player error_trigger opponent (w : World R) :
  py_sum heaps ≤ 0 →
  main_loop_log fuel heaps player error_trigger opponent w
  = (Ret (heaps, player, error_trigger), w, []).
Proof. intros. destruct fuel; simpl; by rewrite bool_decide_eq_false_2 by lia. Qed.

(** One turn of the loop, with its entry in the log. *)
Lemma main_loop_log_turn fuel heaps player error_trigger opponent (w : World R)
    res w' o ks :
  0 < py_sum heaps →
  player_turn heaps player error_trigger opponent w = (Ret res, w') →
  main_loop_log fuel res.1.1 res.1.2 res.2 opponent w' = (o, ks) →
  main_loop_log (S fuel) heaps player error_trigger opponent w
  = (o, turn_kind opponent heaps player error_trigger :: ks).
Proof.
  intros Hsum Hturn Hrest. simpl. by rewrite bool_decide_eq_true_2, Hturn, Hrest by lia.
Qed.

(** A turn of a computer that does not err and finds a move in its scan. *)
Lemma main_loop_log_cpu fuel heaps error_trigger opponent heap stones_taken out r :
  length heaps = N_HEAPS → 0 < py_sum heaps →
  cpu_errs heaps error_trigger opponent = false →
  play_correctly_scan (nim_sum heaps) 0 heaps = Some (heap, stones_taken) →
  ∃ out', ∀ i o ks,
    main_loop_log fuel (apply_move heaps heap stones_taken) (switch_player CPU_PLAYER)
      error_trigger opponent (mkWorld i out' r) = (o, ks) →
    main_loop_log (S fuel) heaps CPU_PLAYER error_trigger opponent (mkWorld i out r)
    = (o, CpuCorrect :: ks).
Proof.
  intros Hlen Hsum Herr Hscan.
  destruct (player_turn_cpu_play heaps error_trigger opponent heap stones_taken out r)
    as [out' Hturn]; [done..|].
  exists out'. intros i o ks Hrest.
  rewrite (main_loop_log_turn _ _ _ _ _ _ _ _ _ _ Hsum (Hturn i) Hrest).
  unfold turn_kind. by rewrite bool_decide_eq_true_2, Herr.
Qed.

(** A turn of the human who types the move [(heap, stones_taken)]. *)
Lemma main_loop_log_human fuel heaps player error_trigger opponent heap stones_taken x
    out r :
  player ≠ CPU_PLAYER → heaps_ok heaps → length heaps = N_HEAPS →
  heaps !! heap = Some x → 1 ≤ stones_taken ≤ x →
  short (Z.of_nat N_HEAPS) → short stones_taken →
  ∃ out', ∀ rest o ks,
    main_loop_log fuel (apply_move heaps heap stones_taken) (switch_player player)
      error_trigger opponent (mkWorld rest out' r) = (o, ks) →
    main_loop_log (S fuel) heaps player error_trigger opponent
      (mkWorld (py_str (Z.of_nat heap + 1) :: py_str stones_taken :: rest) out r)
    = (o, Human :: ks).
Proof.
  intros Hplayer Hok Hlen Hx Hk HN Hshort.
  destruct (player_turn_human_run heaps player error_trigger opponent heap stones_taken
              x out r) as [out' Hturn]; [done..|].
  pose proof (py_sum_lookup_le _ _ _ Hok Hx). assert (0 < py_sum heaps) as Hsum by lia.
  exists out'. intros rest o ks Hrest.
  rewrite (main_loop_log_turn _ _ _ _ _ _ _ _ _ _ Hsum (Hturn rest) Hrest).
  unfold turn_kind. by rewrite bool_decide_eq_false_2.
Qed.

(** The scan of [play_correctly] when the nimm-sum is the size of a heap:
    it passes over empty heaps and takes the whole of that heap. *)
Lemma play_correctly_scan_whole x heap rest :
  0 < x → play_correctly_scan x heap (x :: rest) = Some (heap, x)
          ∧ play_correctly_scan x heap (0 :: rest) = play_correctly_scan x (S heap) rest.
Proof.
  intros Hx. pose proof (Z.lxor_nilpotent x). pose proof (Z.lxor_0_l x).
  simpl. split; case_decide; try done; try lia. do 2 f_equal. lia.
Qed.

(** Three heaps of the same size, of which the trigger is not more: the
    computer empties the first heap; when the human then empties the
    third, the stones left are not fewer than the trigger, and the
    computer, which has not erred, empties the second. *)
Lemma main_loop_log_equal_heaps fuel x n opponent out r :
  N_HEAPS = 3%nat → 0 < x → n ≤ x → short x →
  ∃ out', ∀ rest,
    main_loop_log (S (S (S fuel))) [x; x; x] CPU_PLAYER (Finite n) opponent
      (mkWorld ("3" :: py_str x :: rest) out r)
    = (Ret ([0; 0; 0], switch_player CPU_PLAYER, Finite n), mkWorld rest out' r,
       [CpuCorrect; Human; CpuCorrect]).
Proof.
  intros HN Hx Hn Hshort. pose proof (play_correctly_scan_whole x) as Hscan.
  assert (nim_sum [x; x; x] = x ∧ nim_sum [0; x; 0] = x) as [Es1 Es3]
    by (rewrite !nim_sum_cons, nim_sum_nil, !Z.lxor_0_r, Z.lxor_nilpotent;
        by rewrite Z.lxor_0_r, Z.lxor_0_l).
  destruct (main_loop_log_cpu (S (S fuel)) [x; x; x] (Finite n) opponent 0 x out r)
    as [out1 H1]; [by rewrite HN|rewrite !py_sum_cons, py_sum_nil; lia|
      apply cpu_errs_above; rewrite !py_sum_cons, py_sum_nil; lia|
      rewrite Es1; by apply Hscan|].
  destruct (main_loop_log_human (S fuel) [0; x; x] (switch_player CPU_PLAYER) (Finite n)
              opponent 2 x x out1 r) as [out2 H2];
    [apply switch_player_neq, Hcfg|repeat constructor; lia|by rewrite HN|done|lia|
     rewrite HN; compute_done|done|].
  destruct (main_loop_log_cpu fuel [0; x; 0] (Finite n) opponent 1 x out2 r)
    as [out3 H3]; [by rewrite HN|rewrite !py_sum_cons, py_sum_nil; lia|
      apply cpu_errs_above; rewrite !py_sum_cons, py_sum_nil; lia|
      rewrite Es3, (proj2 (Hscan _ _ Hx)); by apply Hscan|].
  unfold apply_move in H1, H2, H3. cbn [lookup list_lookup insert list_insert] in H1, H2, H3.
  rewrite Z.sub_diag in H1, H2, H3. rewrite switch_player_involutive in H2.
  change (py_str (Z.of_nat 2 + 1)) with "3" in H2.
  exists out3. intros rest. apply H1, H2, H3, main_loop_log_done. by compute.
Qed.

(** C13: the human can beat a computer that has lost the lead.  From a
    well-formed state in which the human is ahead and the computer will no
    longer err deliberately, as after the mistake of Dr. Nymm, and for
    every state of the random source, there are lines of input with which
    the loop of [main] ends in a state without stones in which it is the
    turn of the computer: the human has taken the last stone.  The
    numbers of heaps and of stones are small enough to be typed. *)
Theorem human_can_win fuel heaps player error_trigger opponent out r :
  state_ok (State heaps player error_trigger) →
  perfect opponent (State heaps player error_trigger) →
  human_ahead (State heaps player error_trigger) →
  py_sum heaps ≤ Z.of_nat fuel →
  short (Z.of_nat N_HEAPS) → short (py_sum heaps) →
  ∃ lines, ∀ rest, ∃ heaps' error_trigger' w',
    main_loop fuel heaps player error_trigger opponent (mkWorld (lines ++ rest) out r)
    = (Ret (heaps', CPU_PLAYER, error_trigger'), w')
    ∧ py_sum heaps' = 0 ∧ stdin w' = rest.
Proof.
  intros Hok Hperfect Hahead Hfuel HN. revert heaps player error_trigger out r Hok
    Hperfect Hahead Hfuel.
  induction fuel as [|fuel IH];
    intros heaps player t out r Hok Hperfect Hahead Hfuel Hshort;
    pose proof (py_sum_nonneg heaps (proj1 Hok));
    (destruct (decide (py_sum heaps = 0)) as [Hfin|Hfin]; [|try lia]).
  1,2: exists []; intros rest; exists heaps, t, (mkWorld rest out r);
    rewrite main_loop_done by lia; split_and!; [|done..];
    unfold human_ahead in Hahead; simpl in Hahead; case_decide; [by subst|];
    by destruct Hahead; apply (finished_nim_sum (State heaps player t)).
  assert (0 < py_sum heaps) as Hsum by lia. destruct Hok as (Hheaps & Hlen & Hp).
  destruct (decide (player = CPU_PLAYER)) as [->|Hplayer].
  - destruct (player_turn_cpu_run heaps t opponent out r Hheaps Hlen Hsum)
      as (heaps1 & out1 & r1 & Hturn & Hmoved & Hcpu).
    destruct (turn_step_intro heaps heaps1 CPU_PLAYER t opponent Hsum Hmoved)
      as [k Hstep]; [done|]. rewrite bool_decide_eq_true_2 in Hstep by done.
    destruct (human_ahead_step Hcfg opponent _ _ _ ltac:(done) Hperfect Hahead Hstep)
      as (Hok1 & Hperfect1 & Hahead1 & Hsum1); [done|]. simpl in Hsum1.
    destruct (IH _ _ _ out1 r1 Hok1 Hperfect1 Hahead1 ltac:(lia)) as [lines Hlines].
    { eapply short_le; [|done]. lia. }
    exists lines. intros rest.
    by rewrite (main_loop_turn _ _ _ _ _ _ _ _ Hsum (Hturn (lines ++ rest))).
  - unfold human_ahead in Hahead. simpl in Hahead. rewrite decide_False in Hahead by done.
    destruct (exists_right_move heaps Hheaps Hsum) as (heap & k & [x [Hx Hk]] & Hzero).
    destruct (player_turn_human_run heaps player t opponent heap k x out r)
      as [out1 Hturn]; [done..| |].
    { eapply short_le; [|done]. pose proof (py_sum_lookup_le heaps heap x Hheaps Hx). lia. }
    assert (turn_step opponent (State heaps player t) Human
              (State (apply_move heaps heap k) (switch_player player) t)) as Hstep.
    { apply step_human; [done..|]. exists heap, k. split; [by exists x|done]. }
    destruct (human_ahead_step Hcfg opponent _ _ _ ltac:(done) Hperfect
                ltac:(by unfold human_ahead; simpl; rewrite decide_False) Hstep)
      as (Hok1 & Hperfect1 & Hahead1 & Hsum1); [by simpl; auto|]. simpl in Hsum1.
    destruct (IH _ _ _ out1 r Hok1 Hperfect1 Hahead1 ltac:(lia)) as [lines Hlines].
    { eapply short_le; [|done]. lia. }
    exists (py_str (Z.of_nat heap + 1) :: py_str k :: lines). intros rest.
    by rewrite <- app_comm_cons, (main_loop_turn _ _ _ _ _ _ _ _ Hsum (Hturn (lines ++ rest))).
Qed.

(** Every game can be played to its end.  From every state there is an
    input, one stone from the first heap that has one at each turn of the
    human, on which the loop of [main] returns having read exactly that
    input. *)
Lemma main_loop_can_finish fuel heaps player error_trigger opponent out r :
  heaps_ok heaps → length heaps = N_HEAPS → py_sum heaps ≤ Z.of_nat fuel →
  short (Z.of_nat N_HEAPS) →
  ∃ lines, ∀ rest, ∃ res w',
    main_loop fuel heaps player error_trigger opponent (mkWorld (lines ++ rest) out r)
    = (Ret res, w') ∧ stdin w' = rest.
Proof.
  intros Hheaps Hlen Hfuel HN. revert heaps player error_trigger out r Hheaps Hlen Hfuel.
  induction fuel as [|fuel IH]; intros heaps player t out r Hheaps Hlen Hfuel;
    pose proof (py_sum_nonneg heaps Hheaps);
    (destruct (decide (py_sum heaps = 0)) as [Hfin|Hfin]; [|try lia]).
  1,2: exists []; intros rest; eexists _, _; by rewrite main_loop_done by lia.
  assert (0 < py_sum heaps) as Hsum by lia.
  assert (∀ heaps' player' t' out' r', moved heaps heaps' →
    ∃ lines, ∀ rest, ∃ res w',
      main_loop fuel heaps' player' t' opponent (mkWorld (lines ++ rest) out' r')
      = (Ret res, w') ∧ stdin w' = rest) as Hnext.
  { intros heaps' ? ? ? ? Hmoved. pose proof (moved_sum _ _ Hmoved).
    apply IH; [by eapply moved_ok|by rewrite (moved_length _ _ Hmoved)|lia]. }
  destruct (decide (player = CPU_PLAYER)) as [->|Hplayer].
  - destruct (player_turn_cpu_run heaps t opponent out r Hheaps Hlen Hsum)
      as (heaps1 & out1 & r1 & Hturn & Hmoved & _).
    destruct (Hnext _ (switch_player CPU_PLAYER)
                (if cpu_errs heaps t opponent then NegInf else t) out1 r1 Hmoved)
      as [lines Hlines].
    exists lines. intros rest.
    by rewrite (main_loop_turn _ _ _ _ _ _ _ _ Hsum (Hturn (lines ++ rest))).
  - destruct (exists_stone heaps Hsum) as (heap & x & Hx & Hpos).
    destruct (player_turn_human_run heaps player t opponent heap 1 x out r)
      as [out1 Hturn]; [done..|lia|done|compute_done|].
    destruct (Hnext (apply_move heaps heap 1) (switch_player player) t out1 r)
      as [lines Hlines].
    { exists heap, 1. split; [exists x; split; [done|lia]|done]. }
    exists (py_str (Z.of_nat heap + 1) :: py_str 1 :: lines). intros rest.
    by rewrite <- app_comm_cons, (main_loop_turn _ _ _ _ _ _ _ _ Hsum (Hturn (lines ++ rest))).
Qed.

End chance.

(** ** The program *)

Section program.
Context {cfg : Config} (Hcfg : config_ok cfg) (Hfr : fractions_ok cfg).
Context {R : Type} `{!RandomSource R}.
Implicit Types (w : World R).

(** [main]: it ends, and fails only when the input ends before the game
    does or holds a line that is not plain.  When it returns, the last thing it wrote is the outcome of the
    game; against an opponent who is not Dr. Nymm the outcome is that the
    computer has won; and the opponent is the one the first line of the
    input chooses, if that line is a valid choice. *)
Lemma wp_main w :
  wp main
     (λ _ w', steps w w'
        ∧ ∃ opponent outcome,
            list.last (stdout w') = Some (outcome +:+ nl)
            ∧ (if decide (opponent = "Nymm")
               then outcome = nymm_beat_human ∨ outcome = human_beat_nymm
               else outcome = nimm_beat_human)
            ∧ ∀ line rest n, stdin w = line :: rest → py_int line = Ret n →
                n = 1 ∨ n = 2 → opponent = if decide (line = "2") then "Nymm" else "Nimm")
     (input_exn w) w.
Proof.
  unfold main. apply wp_bind_input. eapply wp_post; [by apply wp_setup_game_state|].
  simpl. intros [[[heaps player] t] o] w1 (Hok & Hahead & Ho & Hsteps1 & Hfirst).
  simpl in *. split; [done|].
  pose proof (py_sum_nonneg heaps (proj1 Hok)). apply wp_bind.
  eapply wp_post; [apply wp_main_loop; [done|lia]|]. simpl.
  intros r w2 ([ks Hrun] & Hfin & Hsteps2).
  eapply wp_mono; [apply wp_announce_winner| |done]. simpl.
  intros _ w3 [Hw%writes_steps Hlast].
  split; [by do 2 (etrans; [done|])|]. exists o. eexists. split_and!; [done| |done].
  case_decide as Hnymm; [case_bool_decide; auto|].
  destruct (run_cpu_wins Hcfg o _ ks (state_of r) Hok) as [_ Hwon]; [by left|done..|].
  by rewrite bool_decide_eq_false_2.
Qed.

(** On input of which every line is plain, [main] plays the game to its
    end or stops with [EOFError] where the input ends. *)
Corollary main_clean w :
  clean w →
  (∃ w' outcome, main w = (Ret tt, w') ∧ list.last (stdout w') = Some (outcome +:+ nl))
  ∨ (∃ w', main w = (Raise EOFError, w')).
Proof.
  intros Hw. destruct (wp_eof_only_inv _ _ _ (wp_clean _ _ _ Hw (wp_main w)))
    as [([] & w' & E & _ & _ & outcome & Hlast & _)|?]; [left|by right].
  by exists w', outcome.
Qed.

(** On input that holds a line that is not plain, [main] plays the game
    to its end on the plain lines before it, or raises [ValueError] on
    that line. *)
Corollary main_not_clean w :
  ¬ clean w →
  (∃ w', main w = (Ret tt, w') ∧ steps w w')
  ∨ (∃ w', main w = (Raise ValueError, w') ∧ bad_line w w').
Proof.
  intros Hw. destruct (wp_input_exn_inv _ _ _ (wp_main w))
    as [([] & w' & E & ? & _)|[(w' & _ & ?%at_eof_clean)|?]]; [left|done|by right].
  by exists w'.
Qed.

(** The file as a whole: run as a script or loaded as a module, it only
    reads input and writes output, and fails only as [main] does. *)
Lemma wp_script name w : wp (script name) (λ _ w', steps w w') (input_exn w) w.
Proof.
  unfold script. case_decide; [|by apply wp_ret].
  eapply wp_post; [apply wp_main|]. by intros _ w' [? _].
Qed.

(** C1: Dr. Nimm is unbeatable.  [main] ends; it fails only with
    [EOFError], when the input, all of plain lines, ends before the game
    does, or with [ValueError], on the first line of the input that is
    accepted by [isdigit] and rejected by [int].  When it returns, it has
    taken plain lines only, the last thing it wrote is the outcome of the
    game, and the outcome is never that the human beat Dr. Nimm. *)
Theorem nimm_unbeatable w :
  wp main
     (λ _ w', steps w w'
        ∧ ∃ outcome, list.last (stdout w') = Some (outcome +:+ nl)
            ∧ (outcome = nimm_beat_human ∨ outcome = nymm_beat_human
               ∨ outcome = human_beat_nymm))
     (input_exn w) w.
Proof.
  eapply wp_post; [apply wp_main|]. simpl.
  intros _ w' (Hsteps & o & outcome & Hlast & Hout & _). split; [done|].
  exists outcome. split; [done|]. case_decide; naive_solver.
Qed.

(** C2: whoever chooses Dr. Nimm loses.  When the first line of the input
    is the number 1, [main] ends with the announcement that Dr. Nimm has
    won, or fails because the input ended before the game did or held a
    line that is not plain. *)
Theorem nimm_always_wins w line rest :
  stdin w = line :: rest → py_int line = Ret 1 →
  wp main (λ _ w', list.last (stdout w') = Some (nimm_beat_human +:+ nl))
    (input_exn w) w.
Proof.
  intros Hw Hline. eapply wp_post; [apply wp_main|]. simpl.
  intros _ w' (_ & o & outcome & Hlast & Hout & Hfirst).
  rewrite (Hfirst line rest 1 Hw Hline) in Hout by auto.
  assert (line ≠ "2") by (intros ->; vm_compute in Hline; discriminate).
  rewrite (decide_False (P := line = "2")) in Hout by done.
  rewrite decide_False in Hout by done. by subst.
Qed.

(** C20: Dr. Nimm leaves nothing to chance.  When the first line of the
    input is the number 1, the random source at the end of [main] is the
    one [setup_game] left, however [main] ends: the numbers drawn are
    those of the sizes of the heaps and of the trigger, and no turn of the
    game reaches [choose_random], to which [play_correctly] falls back
    when the nimm-sum is zero. *)
Theorem nimm_never_guesses w line rest :
  stdin w = line :: rest → py_int line = Ret 1 →
  rand (main w).2 = rand (setup_game w).2.
Proof.
  intros Hw Hline. unfold main. apply quiet_after.
  intros [[[heaps player] t] o] w1 Hsetup.
  pose proof (wp_setup_game_state Hcfg w Hfr) as Hwp. unfold wp in Hwp.
  rewrite Hsetup in Hwp. destruct Hwp as (Hok & Hahead & _ & _ & Hfirst).
  specialize (Hfirst line rest 1 Hw Hline ltac:(by left)). simpl in *.
  assert (line ≠ "2") by (intros ->; vm_compute in Hline; discriminate).
  rewrite decide_False in Hfirst by done. subst o.
  cbv zeta. simpl. apply quiet_bind; [apply (quiet_main_loop Hcfg); [done|by left|done]|].
  quiet_tac.
Qed.

(** C14: every game against Dr. Nimm can be played to its end.  Whatever
    the random numbers are, there is an input, the choice of Dr. Nimm and
    then the moves of the human, on which [main] returns: it reads exactly
    that input, leaves what follows it unread, and its last line of output
    says that Dr. Nimm has won.  The number of heaps is small enough to be
    typed. *)
Theorem main_can_finish out r :
  short (Z.of_nat N_HEAPS) →
  ∃ lines, ∀ rest, ∃ w',
    main (mkWorld ("1" :: lines ++ rest) out r) = (Ret tt, w') ∧ stdin w' = rest
    ∧ list.last (stdout w') = Some (nimm_beat_human +:+ nl).
Proof.
  intros HN.
  destruct (setup_game_run Hcfg (mkWorld ["1"] out r) "1" [] 1 Hfr)
    as (heaps & t & w1 & _ & Hsetup & Hlen & Hall & Hin); [done..|by left|].
  destruct (replays_setup_game 0%nat _ _ _ Hsetup I) as (taken & new & Htaken & _ & Hre).
  rewrite Hin, app_nil_r in Htaken. simpl in Htaken. subst taken.
  assert (heaps_ok heaps) as Hheaps
    by (eapply Forall_impl; [apply (initial_size_nonneg Hcfg)|done]).
  destruct (main_loop_can_finish (Z.to_nat (py_sum heaps)) heaps
              (if bool_decide (nim_sum heaps = 0) then switch_player CPU_PLAYER
               else CPU_PLAYER) (Finite t) "Nimm" (out ++ new) (rand w1))
    as [lines Hlines]; [done..|lia|done|].
  exists lines. intros rest. destruct (Hlines rest) as (res & w2 & Hloop & Hin2).
  destruct (wp_no_exn_inv _ _ _ (wp_announce_winner "Nimm" res.1.2 w2))
    as ([] & w3 & Hsay & [Hin3 _] & _).
  assert (main (mkWorld ("1" :: lines ++ rest) out r) = (Ret tt, w3)) as Hmain.
  { unfold main.
    by rewrite (bind_run _ _ _ _ _ (Hre 1%nat (lines ++ rest) out ltac:(done))),
      (bind_run _ _ _ _ _ Hloop). }
  exists w3. split_and!; [done|congruence|].
  pose proof (wp_main (mkWorld ("1" :: lines ++ rest) out r)) as Hwp.
  unfold wp in Hwp. rewrite Hmain in Hwp.
  destruct Hwp as (_ & o & outcome & Hlast & Hout & Hfirst).
  rewrite (Hfirst "1" _ 1 eq_refl eq_refl) in Hout by auto.
  rewrite Hlast. by rewrite <- Hout.
Qed.

(** C38: a game without stones.  When the heaps that [set_heaps] returns
    hold no stone, as they do when the size of a heap is set to zero,
    [main] asks for the opponent, takes no turn and announces that the
    computer has won, although no one has taken a stone: the nimm-sum of
    empty heaps is zero, so the human is to move, and [announce_winner]
    takes the player to move for the loser. *)
Theorem main_no_stones w heaps line rest n :
  (set_heaps w).1 = Ret heaps → py_sum heaps = 0 →
  stdin w = line :: rest → py_int line = Ret n → n = 1 ∨ n = 2 →
  ∃ w', main w = (Ret tt, w') ∧ stdin w' = rest
        ∧ list.last (stdout w')
          = Some ((if decide (line = "2") then nymm_beat_human else nimm_beat_human)
                  +:+ nl).
Proof.
  intros Hset Hsum Hw Hline Hn.
  destruct (setup_game_run Hcfg w line rest n Hfr Hw Hline Hn)
    as (heaps' & t & w1 & Hset' & Hsetup & Hlen & Hall & Hin).
  rewrite Hset in Hset'. simplify_eq.
  assert (heaps_ok heaps') as Hok
    by (eapply Forall_impl; [apply (initial_size_nonneg Hcfg)|done]).
  rewrite bool_decide_eq_true_2 in Hsetup by by apply nim_sum_zeros, py_sum_0_all.
  unfold main. rewrite (bind_run _ _ _ _ _ Hsetup). cbv zeta. simpl.
  assert (py_sum heaps' ≤ 0) as Hdone by lia.
  rewrite (bind_run _ _ _ _ _ (main_loop_done _ _ _ _ _ _ Hdone)). simpl.
  unfold announce_winner.
  rewrite bool_decide_eq_false_2 by (apply switch_player_neq, Hcfg).
  destruct (decide (line = "2")); simpl; eexists;
    (split_and!; [reflexivity|done|]); simpl; by rewrite last_snoc.
Qed.

(** With a single heap the human never moves, which is why the comments
    of the source advise against it: the nimm-sum of one heap is its size,
    the computer starts and takes the whole heap.  Against Dr. Nimm
    [main] reads the choice of the opponent and nothing else. *)
Lemma main_one_heap w line rest :
  N_HEAPS = 1%nat → (∀ x, initial_size x → 0 < x) →
  stdin w = line :: rest → py_int line = Ret 1 →
  ∃ w', main w = (Ret tt, w') ∧ stdin w' = rest
        ∧ list.last (stdout w') = Some (nimm_beat_human +:+ nl).
Proof.
  intros HN Hpos Hw Hline.
  destruct (setup_game_run Hcfg w line rest 1 Hfr Hw Hline ltac:(by left))
    as (heaps & t & [i1 out1 r1] & _ & Hsetup & Hlen & Hall & Hin).
  rewrite HN in Hlen. destruct heaps as [|x [|? ?]]; simplify_eq/=.
  apply Forall_singleton, Hpos in Hall.
  assert (line ≠ "2") by (intros ->; vm_compute in Hline; discriminate).
  rewrite decide_False in Hsetup by done.
  rewrite bool_decide_eq_false_2 in Hsetup by (rewrite nim_sum_singleton; lia).
  assert (py_sum [x] = x) as Hx by (rewrite py_sum_cons, py_sum_nil; lia).
  assert (0 < py_sum [x]) as Hsum by lia.
  destruct (player_turn_cpu_run [x] (Finite t) "Nimm" out1 r1)
    as (heaps1 & out2 & r2 & Hturn & Hmoved & Hzero);
    [by constructor; [lia|]|by rewrite HN|done|].
  rewrite cpu_errs_Nimm in Hturn, Hzero by done.
  assert (py_sum heaps1 ≤ 0) as Hdone.
  { pose proof (moved_length _ _ Hmoved) as Hlen1.
    destruct heaps1 as [|y [|? ?]]; simplify_eq/=.
    rewrite !nim_sum_singleton in Hzero. rewrite py_sum_cons, py_sum_nil. lia. }
  unfold main. rewrite (bind_run _ _ _ _ _ Hsetup). cbv zeta. simpl.
  replace (Z.to_nat (py_sum [x])) with (S (Z.to_nat (x - 1))) by lia.
  rewrite (bind_run _ _ _ _ _ (eq_trans
    (main_loop_turn _ _ _ _ _ _ _ _ Hsum (Hturn rest))
    (main_loop_done _ _ _ _ _ _ Hdone))). simpl.
  unfold announce_winner. rewrite decide_False by done.
  rewrite bool_decide_eq_false_2 by (apply switch_player_neq, Hcfg).
  eexists. split_and!; [reflexivity|done|]. simpl. by rewrite last_snoc.
Qed.

(** C40: Dr. Nymm does not err in every game.  When [setup_game] returns
    three heaps of the same size, small enough to be typed, and a trigger
    that is not more than that size, as it can with the constants of the
    source, the computer starts and empties the first heap; if the human
    then empties the third, the stones left are not fewer than the
    trigger, and the computer empties the second heap.  [main] announces
    that Dr. Nymm has won, and the turns of its loop were a right move of
    the computer, the move of the human and a right move of the computer:
    no mistake was made, although [display_intro] has announced one. *)
Theorem nymm_may_never_err w x n rest :
  stdin w = "2" :: "3" :: py_str x :: rest →
  (setup_game w).1 = Ret ([x; x; x], CPU_PLAYER, Finite n, "Nymm") →
  0 < x → n ≤ x → short x →
  ∃ w', main w = (Ret tt, w') ∧ stdin w' = rest
        ∧ list.last (stdout w') = Some (nymm_beat_human +:+ nl)
        ∧ (main_loop_log (Z.to_nat (py_sum [x; x; x])) [x; x; x] CPU_PLAYER (Finite n)
             "Nymm" (setup_game w).2).2
          = [CpuCorrect; Human; CpuCorrect].
Proof.
  intros Hw Hsetup Hx Hn Hshort.
  destruct (setup_game_run Hcfg w "2" _ 2 Hfr Hw eq_refl ltac:(by right))
    as (heaps & t & [i1 out1 r1] & _ & Hrun & Hlen & _ & Hin).
  rewrite Hrun in Hsetup. simpl in Hsetup, Hin. injection Hsetup as -> Hp ->.
  rewrite Hp, decide_True in Hrun by done. subst i1.
  destruct (main_loop_log_equal_heaps Hcfg (Z.to_nat (3 * x - 3)) x n "Nymm" out1 r1)
    as [out' Hloop]; [done..|]. specialize (Hloop rest).
  assert (Z.to_nat (py_sum [x; x; x]) = S (S (S (Z.to_nat (3 * x - 3))))) as Hfuel
    by (rewrite !py_sum_cons, py_sum_nil; lia).
  unfold main. rewrite (bind_run _ _ _ _ _ Hrun), Hrun. cbv zeta. cbn [fst snd].
  rewrite Hfuel, Hloop. unfold bind at 1. rewrite <- main_loop_log_erase, Hloop.
  unfold announce_winner. simpl.
  rewrite bool_decide_eq_false_2 by (apply switch_player_neq, Hcfg).
  eexists. split_and!; [reflexivity|done| |done]. simpl. by rewrite last_snoc.
Qed.

(** C19: the program crashes on digits that [int] does not read.  When the
    first line of the input is accepted by [isdigit] and rejected by
    [int], as a superscript two is, or a line of more than 4300 digits,
    [main] raises [ValueError] instead of asking again, and leaves the
    lines after it unread. *)
Theorem main_value_error w line rest :
  stdin w = line :: rest → ¬ plain line →
  ∃ w', main w = (Raise ValueError, w') ∧ stdin w' = rest.
Proof.
  intros Hw Hline.
  destruct (setup_game_not_plain Hcfg w line rest) as (w' & Hrun & ?); [done..|].
  exists w'. split; [|done]. unfold main. by apply bind_run_Raise.
Qed.

End program.


(** ** What a game depends on *)

Section replay.
Context {cfg : Config} {R : Type} `{!RandomSource R}.
Implicit Types (w : World R).

Lemma replays_main_loop fuel heaps player error_trigger opponent :
  replays (λ _, main_loop (R := R) fuel heaps player error_trigger opponent).
Proof.
  revert heaps player error_trigger.
  induction fuel as [|fuel IH]; intros heaps player error_trigger; simpl; replays_tac.
Qed.

(** [main] depends on the lines it takes from standard input and on the
    random source only: what follows these lines, what was written before
    and the fuel of the loops do not show in a game.  This holds of every
    computation built from [input], [print] and [randint]; it says that
    the program keeps no other state, and nothing of the game. *)
Lemma replays_main : replays (λ _, main (R := R)).
Proof. unfold main. pose proof replays_main_loop. replays_tac. Qed.

End replay.

(** ** Whole games, by evaluation *)

(** A whole game against Dr. Nimm.  The tape gives the heaps 1, 2, 3; the
    nimm-sum is zero, so the human starts, takes the third heap, and
    loses. *)
Example main_example :
  let w := main (cfg := small_config)
    (mkWorld ["1"; "3"; "3"; "1"; "1"; "left"] [] [0; 1; 2; 0]%nat) in
  w.1 = Ret tt ∧ stdin w.2 = ["left"]
  ∧ list.last (stdout w.2) = Some (nimm_beat_human +:+ nl).
Proof. vm_compute. done. Qed.


(** A whole game against Dr. Nymm, from the same heaps.  The human
    empties the third heap; three stones are left, fewer than the trigger,
    which is four, so Dr. Nymm errs and takes the second heap; the human
    takes the last stone and wins. *)
Example main_example_human_wins :
  let w := main (cfg := small_config)
    (mkWorld ["2"; "3"; "3"; "1"; "1"; "left"] [] [0; 1; 2; 3]%nat) in
  w.1 = Ret tt ∧ stdin w.2 = ["left"]
  ∧ list.last (stdout w.2) = Some (human_beat_nymm +:+ nl).
Proof. vm_compute. done. Qed.

(** A whole game against Dr. Nymm with the constants of the source.  The
    tape gives the heaps 18, 23 and 16 and the trigger 37; the computer
    starts.  The human takes one stone at a time, from the second heap
    and then from the third; Dr. Nymm errs when fewer than 37 stones are
    left, and the human takes the last stone. *)
Example main_source_human_wins :
  let w := main (cfg := source_config)
    (mkWorld (["2"] ++ concat (replicate 7 ["2"; "1"]) ++ concat (replicate 16 ["3"; "1"])
              ++ ["left"]) [] [3; 8; 1; 20]%nat) in
  w.1 = Ret tt ∧ stdin w.2 = ["left"]
  ∧ list.last (stdout w.2) = Some (human_beat_nymm +:+ nl).
Proof. vm_compute. done. Qed.

(** Dr. Nymm does guess: in the game above, with one more number on the
    tape, the computer finds a zero nimm-sum after the human has answered
    its mistake, and [choose_random] draws that number. *)
Example nymm_guesses :
  let w := mkWorld (["2"] ++ concat (replicate 7 ["2"; "1"])
                    ++ concat (replicate 16 ["3"; "1"]) ++ ["left"]) []
             [3; 8; 1; 20; 0]%nat in
  rand (setup_game (cfg := source_config) w).2 = [0%nat]
  ∧ rand (main (cfg := source_config) w).2 = [].
Proof. vm_compute. done. Qed.

(** The turns of the game with the constants of the source above: the
    computer errs once, on its seventh turn. *)
Example main_loop_log_source :
  let w := mkWorld (["2"] ++ concat (replicate 7 ["2"; "1"])
                    ++ concat (replicate 16 ["3"; "1"]) ++ ["left"]) []
             [3; 8; 1; 20]%nat in
  let s := setup_game (cfg := source_config) w in
  s.1 = Ret ([18; 23; 16], 1, Finite 37, "Nymm")
  ∧ (main_loop_log (cfg := source_config) 57 [18; 23; 16] 1 (Finite 37) "Nymm" s.2).2
    = concat (replicate 6 [CpuCorrect; Human]) ++ [CpuMistake; Human]
      ++ concat (replicate 16 [CpuCorrect; Human]).
Proof. vm_compute. done. Qed.

(** ** The theorems at a concrete world, with the constants of the source *)

Lemma nimm_unbeatable_witness :
  wp (main (cfg := source_config))
     (λ _ w', steps (mkWorld ["1"; "1"; "5"] [] [3%nat; 8%nat]) w'
        ∧ ∃ outcome, list.last (stdout w') = Some (outcome +:+ nl)
            ∧ (outcome = nimm_beat_human ∨ outcome = nymm_beat_human
               ∨ outcome = human_beat_nymm))
     (input_exn (mkWorld ["1"; "1"; "5"] [] [3%nat; 8%nat]))
     (mkWorld ["1"; "1"; "5"] [] [3%nat; 8%nat]).
Proof. apply (nimm_unbeatable source_config_ok source_fractions_ok). Defined.

Lemma nimm_always_wins_witness :
  wp (main (cfg := source_config))
     (λ _ w', list.last (stdout w') = Some (nimm_beat_human +:+ nl))
     (input_exn (mkWorld ["1"; "1"; "5"] [] [3%nat; 8%nat]))
     (mkWorld ["1"; "1"; "5"] [] [3%nat; 8%nat]).
Proof.
  apply (nimm_always_wins source_config_ok source_fractions_ok _ "1" ["1"; "5"]);
    reflexivity.
Defined.

Lemma nimm_never_guesses_witness :
  rand (main (cfg := source_config) (mkWorld ["1"; "1"; "5"] [] [3%nat; 8%nat; 2%nat; 7%nat])).2
  = rand (setup_game (cfg := source_config)
            (mkWorld ["1"; "1"; "5"] [] [3%nat; 8%nat; 2%nat; 7%nat])).2.
Proof.
  apply (nimm_never_guesses source_config_ok source_fractions_ok _ "1" ["1"; "5"]);
    reflexivity.
Defined.

Lemma empty_config_ok : config_ok empty_config.
Proof. split; simpl; lia. Qed.

Lemma empty_fractions_ok : fractions_ok empty_config.
Proof.
  intros n Hn. unfold max_stones in Hn. simpl in Hn.
  assert (n = 0) as -> by lia. by vm_compute.
Qed.

Lemma main_no_stones_witness :
  ∃ w', main (cfg := empty_config) (mkWorld ["2"; "left"] [] ([] : list nat)) = (Ret tt, w')
        ∧ stdin w' = ["left"]
        ∧ list.last (stdout w') = Some (nymm_beat_human +:+ nl).
Proof.
  apply (main_no_stones empty_config_ok empty_fractions_ok _ [0; 0; 0] "2" ["left"] 2);
    [reflexivity..|by right].
Defined.

Lemma nymm_may_never_err_witness :
  let w := mkWorld ["2"; "3"; "15"; "left"] [] [0; 0; 0; 0]%nat in
  ∃ w', main (cfg := source_config) w = (Ret tt, w') ∧ stdin w' = ["left"]
        ∧ list.last (stdout w') = Some (nymm_beat_human +:+ nl)
        ∧ (main_loop_log (cfg := source_config) (Z.to_nat (py_sum [15; 15; 15]))
             [15; 15; 15] 1 (Finite 13) "Nymm" (setup_game (cfg := source_config) w).2).2
          = [CpuCorrect; Human; CpuCorrect].
Proof.
  apply (nymm_may_never_err (cfg := source_config) source_config_ok source_fractions_ok
           (mkWorld ["2"; "3"; "15"; "left"] [] [0; 0; 0; 0]%nat) 15 13 ["left"]);
    [reflexivity|by vm_compute|lia|lia|by vm_compute].
Defined.

Lemma main_can_finish_witness :
  ∃ lines, ∀ rest, ∃ w',
    main (cfg := source_config) (mkWorld ("1" :: lines ++ rest) [] [3%nat; 8%nat])
    = (Ret tt, w')
    ∧ stdin w' = rest ∧ list.last (stdout w') = Some (nimm_beat_human +:+ nl).
Proof.
  apply (main_can_finish source_config_ok source_fractions_ok [] [3%nat; 8%nat]).
  compute_done.
Defined.

Lemma main_value_error_witness :
  ∃ w', main (cfg := source_config) (mkWorld [superscript_two; "1"] [] [3%nat; 8%nat])
        = (Raise ValueError, w') ∧ stdin w' = ["1"].
Proof.
  apply (main_value_error source_config_ok source_fractions_ok _ superscript_two ["1"]);
    [reflexivity|compute_done].
Defined.

Lemma human_can_win_witness :
  ∃ lines, ∀ rest, ∃ heaps' error_trigger' w',
    main_loop (cfg := source_config) 7 [4; 3; 0] 2 NegInf "Nymm"
      (mkWorld (lines ++ rest) [] [7%nat])
    = (Ret (heaps', 1, error_trigger'), w')
    ∧ py_sum heaps' = 0 ∧ stdin w' = rest.
Proof.
  apply (human_can_win (cfg := source_config) source_config_ok 7 [4; 3; 0] 2 NegInf
           "Nymm" [] [7%nat]);
    [solve_state_ok|by right
    |vm_compute; discriminate|compute_done..].
Defined.

Lemma main_loop_terminates_witness :
  main_loop (cfg := source_config) 8 [5; 3; 0] 1 (Finite 10) "Nymm"
    (mkWorld ["1"; "1"] [] [7%nat])
  = main_loop (cfg := source_config) 11 [5; 3; 0] 1 (Finite 10) "Nymm"
      (mkWorld ["1"; "1"] [] [7%nat])
  ∧ (main_loop (cfg := source_config) 8 [5; 3; 0] 1 (Finite 10) "Nymm"
       (mkWorld ["1"; "1"] [] [7%nat])).1 ≠ OutOfFuel.
Proof.
  apply (main_loop_terminates (cfg := source_config));
    [|compute_done..].
  solve_state_ok.
Defined.

Lemma main_loop_refines_witness :
  (∃ r w' ks,
      main_loop (cfg := source_config) 8 [5; 3; 0] 1 (Finite 10) "Nymm"
        (mkWorld ["1"; "1"] [] [7%nat]) = (Ret r, w')
      ∧ run (cfg := source_config) "Nymm" (State [5; 3; 0] 1 (Finite 10)) ks (state_of r)
      ∧ py_sum r.1.1 = 0 ∧ steps (mkWorld ["1"; "1"] [] [7%nat]) w')
  ∨ (∃ w', main_loop (cfg := source_config) 8 [5; 3; 0] 1 (Finite 10) "Nymm"
             (mkWorld ["1"; "1"] [] [7%nat]) = (Raise EOFError, w')
           ∧ at_eof (mkWorld ["1"; "1"] [] [7%nat]) w')
  ∨ (∃ w', main_loop (cfg := source_config) 8 [5; 3; 0] 1 (Finite 10) "Nymm"
             (mkWorld ["1"; "1"] [] [7%nat]) = (Raise ValueError, w')
           ∧ bad_line (mkWorld ["1"; "1"] [] [7%nat]) w').
Proof.
  apply (main_loop_refines (cfg := source_config)); [|compute_done].
  solve_state_ok.
Defined.

Lemma main_loop_trace_witness :
  let w := mkWorld ["2"; "3"; "1"; "3"] [] [7%nat] in
  run (cfg := source_config) "Nymm" (State [5; 3; 0] 1 (Finite 10))
    (main_loop_log (cfg := source_config) 8 [5; 3; 0] 1 (Finite 10) "Nymm" w).2
    (state_of ([0; 0; 0], 2, NegInf)).
Proof.
  apply (main_loop_trace (cfg := source_config) 8 [5; 3; 0] 1 (Finite 10) "Nymm"
           (mkWorld ["2"; "3"; "1"; "3"] [] [7%nat]) ([0; 0; 0], 2, NegInf)
           (main_loop (cfg := source_config) 8 [5; 3; 0] 1 (Finite 10) "Nymm"
              (mkWorld ["2"; "3"; "1"; "3"] [] [7%nat])).2);
    [solve_state_ok|by vm_compute].
Defined.

Lemma main_loop_one_mistake_witness :
  let w := mkWorld ["1"; "1"] [] [7%nat] in
  let log := main_loop_log (cfg := source_config) 8 [5; 3; 0] 1 (Finite 10) "Nymm" w in
  log.1 = main_loop (cfg := source_config) 8 [5; 3; 0] 1 (Finite 10) "Nymm" w
  ∧ (length (filter (λ k, k = CpuMistake) log.2) ≤ 1)%nat.
Proof. apply (main_loop_one_mistake (cfg := source_config)). solve_state_ok. Defined.

Lemma perfect_cpu_wins_witness :
  wp (main_loop (cfg := source_config) 8 [5; 3; 0] 1 (Finite 10) "Nimm")
     (λ r w', cpu_won (cfg := source_config) (state_of r) ∧ steps (mkWorld ["1"; "1"] [] [7%nat]) w')
     (input_exn (mkWorld ["1"; "1"] [] [7%nat])) (mkWorld ["1"; "1"] [] [7%nat]).
Proof.
  apply (perfect_cpu_wins (cfg := source_config) source_config_ok);
    [|by left|vm_compute; discriminate|compute_done].
  solve_state_ok.
Defined.

